(** * Ask-AI backstage plugin: retrieval core

    A shallow embedding of the TypeScript sources of the Ask-AI backend
    plugin (chunker, embedding client, the two vector stores, the simple
    RAG strategy, the RAG service and the configuration service), followed
    by the properties established about them.

    Conventions.
    - A rejected promise or a thrown exception is the [Err] branch of
      [result]; the payload is the error message.  Calls to the logger are
      left out.
    - JavaScript numbers that are counts, indices or configuration values
      are integers ([Z]); numbers that are vector components or
      similarities are elements of a [Number] structure, instantiated with
      the reals (exact arithmetic) and with binary64 ([PrimFloat], the
      arithmetic JavaScript performs).
    - Strings are [string]s over the 8-bit alphabet [ascii].
    - An unbounded loop takes a [fuel] argument and returns [None] when the
      fuel runs out before the loop ends.
    - Stateful asynchronous code is written in a state and error monad; the
      suspension points of an [async] function matter for the RAG service
      only, which is a transition system.
    - What lies outside the repository (the PostgreSQL server and the [pg]
      pool, the pgvector operator, the HTTP answer of the embedding
      provider, the catalog) enters as state, as a parameter or as the
      outcome of the call. *)

From Stdlib Require Import List ZArith Lia Bool String Ascii.
From Stdlib Require Import Reals Lra.
From Stdlib Require Import PrimFloat.
From Stdlib Require Import Sorted.
From Stdlib Require DecimalString DecimalZ.
Import ListNotations.

Set Implicit Arguments.

Open Scope string_scope.
Open Scope list_scope.

(* ================================================================= *)
(** * Part I: the embedding *)
(* ================================================================= *)

(** ** JavaScript runtime helpers *)

Module JS.

(** The outcome of a call that may throw (or of an awaited promise). *)
Inductive result (A : Type) : Type :=
| Ok (a : A)
| Err (message : string).

Arguments Ok {A} a.
Arguments Err {A} message.

Definition bind {A B : Type} (r : result A) (k : A -> result B) : result B :=
  match r with
  | Ok a => k a
  | Err e => Err e
  end.

(** [for (const x of l) { ... f(x) ... }] where [f] may throw: the first
    failure aborts the loop. *)
Fixpoint mapM {A B : Type} (f : A -> result B) (l : list A) : result (list B) :=
  match l with
  | [] => Ok []
  | x :: l' =>
      bind (f x) (fun y => bind (mapM f l') (fun ys => Ok (y :: ys)))
  end.

(** Relative index of [Array.prototype.slice]: a negative index counts from
    the end, and the result is clamped to [0, len]. *)
Definition relative_index (k len : Z) : Z :=
  if (k <? 0)%Z then Z.max (len + k) 0 else Z.min k len.

(** [l.slice(start, end)]. *)
Definition slice {A : Type} (l : list A) (start end_ : Z) : list A :=
  let len := Z.of_nat (List.length l) in
  let k := relative_index start len in
  let final := relative_index end_ len in
  firstn (Z.to_nat (final - k)) (skipn (Z.to_nat k) l).

(** [words.join(sep)]. *)
Fixpoint join (sep : string) (l : list string) : string :=
  match l with
  | [] => EmptyString
  | [w] => w
  | w :: l' => (w ++ sep ++ join sep l')%string
  end.

(** Decimal rendering of an integer, as template literals do. *)
Definition string_of_Z (z : Z) : string :=
  DecimalString.NilZero.string_of_int (Z.to_int z).

(** Truthiness of a string: only the empty string is falsy. *)
Definition truthy_string (s : string) : bool :=
  negb (String.eqb s EmptyString).

(** [x || d] on an optional number read from configuration: [undefined] and
    [0] are falsy. *)
Definition number_or (x : option Z) (d : Z) : Z :=
  match x with
  | Some n => if (n =? 0)%Z then d else n
  | None => d
  end.

(** [x || d] on an optional string. *)
Definition string_or (x : option string) (d : string) : string :=
  match x with
  | Some s => if truthy_string s then s else d
  | None => d
  end.

(** [x ?? d]. *)
Definition nullish_or {A : Type} (x : option A) (d : A) : A :=
  match x with
  | Some a => a
  | None => d
  end.

End JS.

Export JS.

(** ** Numbers *)

(** The operations the sources perform on vector components and scores.
    [is_zero x] is [x === 0] and [is_pos x] is [x > 0]. *)
Class Number (N : Type) : Type := {
  zero : N;
  one : N;
  add : N -> N -> N;
  sub : N -> N -> N;
  mul : N -> N -> N;
  div : N -> N -> N;
  sqrt : N -> N;
  is_zero : N -> bool;
  is_pos : N -> bool
}.


(** IEEE 754 binary64, the arithmetic of a JavaScript [number]. *)
#[export] Instance binary64_number : Number float := {
  zero := 0%float;
  one := 1%float;
  add := PrimFloat.add;
  sub := PrimFloat.sub;
  mul := PrimFloat.mul;
  div := PrimFloat.div;
  sqrt := PrimFloat.sqrt;
  is_zero := fun x => PrimFloat.eqb x 0%float;
  is_pos := fun x => PrimFloat.ltb 0%float x
}.

(** [arr.sort(compare)]: the sort is stable, and an element [x] goes after
    [y] exactly when [compare(x, y) > 0].  For a consistent comparator the
    stable sorted arrangement is unique, so that insertion from the right
    computes what every conforming engine returns. *)
Section Sort.

Context {A N : Type} `{Number N}.
Variable compare : A -> A -> N.

Fixpoint insert_sorted (x : A) (l : list A) : list A :=
  match l with
  | [] => [x]
  | y :: l' =>
      if is_pos (compare x y) then y :: insert_sorted x l' else x :: y :: l'
  end.

Definition sort (l : list A) : list A :=
  fold_right insert_sorted [] l.

End Sort.

(** ** Domain models (models/index.ts) *)

Inductive Source : Type := catalog | techdocs.

Definition Source_to_string (s : Source) : string :=
  match s with
  | catalog => "catalog"
  | techdocs => "techdocs"
  end.

Record ChunkMetadata : Type := {
  source : Source;
  chunkIndex : Z;
  totalChunks : Z
}.

Record DocumentChunk : Type := {
  id : string;
  entityId : string;
  entityName : string;
  content : string;
  metadata : ChunkMetadata
}.

(** [vector] is declared [number[]]; it is [None] for the [undefined] that
    [embeddings[index]] yields past the end of the provider's array. *)
Record EmbeddingVector (N : Type) : Type := {
  ev_id : string;
  chunkId : string;
  vector : option (list N);
  documentChunk : DocumentChunk
}.

Record SearchResult (N : Type) : Type := {
  sr_documentChunk : DocumentChunk;
  similarity : N
}.

Record PostgresConfig : Type := {
  host : string;
  port : Z;
  database : string;
  user : string;
  password : string;
  ssl : bool;
  maxConnections : Z;
  idleTimeoutMillis : Z;
  connectionTimeoutMillis : Z
}.

Inductive VectorStoreConfig : Type :=
| memory
| postgresql (pg : PostgresConfig).

Record AskAiConfig : Type := {
  defaultModel : string;
  embeddingModel : string;
  ollamaBaseUrl : string;
  ragEnabled : bool;
  ragStrategy : string;
  defaultTopK : Z;
  chunkSize : Z;
  chunkOverlap : Z;
  vectorStore : VectorStoreConfig
}.

(** ** DocumentProcessor (services/DocumentProcessor.ts) *)

Module DocumentProcessor.

Local Open Scope Z_scope.

(** The class [\s] of regular expressions (and of [trim]) restricted to the
    8-bit alphabet: tab, line feed, vertical tab, form feed, carriage
    return, space and no-break space. *)
Definition is_space (c : ascii) : bool :=
  let n := nat_of_ascii c in
  ((9 <=? n) && (n <=? 13) || (n =? 32) || (n =? 160))%nat.

(** [text.replace(/\s+/g, ' ')]: every maximal run of white space becomes
    one space.  [in_run] tells that the previous character was white. *)
Fixpoint collapse_ws_go (in_run : bool) (s : string) : string :=
  match s with
  | EmptyString => EmptyString
  | String c s' =>
      if is_space c then
        if in_run then collapse_ws_go true s'
        else String " " (collapse_ws_go true s')
      else String c (collapse_ws_go false s')
  end.

Definition collapse_ws (s : string) : string := collapse_ws_go false s.

Fixpoint trim_start (s : string) : string :=
  match s with
  | EmptyString => EmptyString
  | String c s' => if is_space c then trim_start s' else s
  end.

Fixpoint trim_end (s : string) : string :=
  match s with
  | EmptyString => EmptyString
  | String c s' =>
      match trim_end s' with
      | EmptyString => if is_space c then EmptyString else String c EmptyString
      | t => String c t
      end
  end.

(** [s.trim()]. *)
Definition trim (s : string) : string := trim_end (trim_start s).

(** [s.split(/\s+/)]: the pieces between maximal runs of white space; a
    leading or trailing run leaves an empty first or last piece, and the
    empty string splits into one empty piece.  The head of the result is the
    piece under construction; [in_sep] tells that the previous character
    belonged to a separator. *)
Fixpoint split_ws_go (in_sep : bool) (s : string) : list string :=
  match s with
  | EmptyString => [EmptyString]
  | String c s' =>
      if is_space c then
        if in_sep then split_ws_go true s'
        else EmptyString :: split_ws_go true s'
      else
        match split_ws_go false s' with
        | piece :: rest => String c piece :: rest
        | [] => [String c EmptyString]
        end
  end.

Definition split_ws (s : string) : list string := split_ws_go false s.

(** [extractText].  The replacements that strip HTML tags, markdown links,
    headers, code blocks, emphasis marks and URLs are regular-expression
    rewrites whose result is then normalised; they are the parameter
    [markup], and the last two statements (white-space normalisation and
    [trim]) are modelled in full. *)
Definition extractText (markup : string -> string) (content_ : string) : string :=
  let text := markup content_ in
  let text := collapse_ws text in
  trim text.

Definition mkChunk (entityId_ entityName_ : string) (source_ : Source)
    (chunkIndex_ : Z) (chunkContent : string) : DocumentChunk :=
  {| id := entityId_ ++ "-" ++ Source_to_string source_ ++ "-"
           ++ string_of_Z chunkIndex_;
     entityId := entityId_;
     entityName := entityName_;
     content := chunkContent;
     metadata := {| source := source_;
                    chunkIndex := chunkIndex_;
                    totalChunks := 0 |} |}.

(** The [while (currentIndex < words.length)] loop.  The loop is unbounded
    in the source; [fuel] bounds the number of iterations, and [None] says
    that the loop was still running when the fuel ran out. *)
Fixpoint chunk_loop (fuel : nat) (words : list string)
    (chunkSize_ chunkOverlap_ : Z) (entityId_ entityName_ : string)
    (source_ : Source) (currentIndex chunkIndex_ : Z)
    (chunks : list DocumentChunk) : option (list DocumentChunk) :=
  match fuel with
  | O => None
  | S fuel' =>
      if currentIndex <? Z.of_nat (List.length words) then
        let chunkWords := slice words currentIndex (currentIndex + chunkSize_) in
        let chunkContent := join " " chunkWords in
        let pushed := (0 <? String.length (trim chunkContent))%nat in
        let chunks' :=
          if pushed
          then chunks ++ [mkChunk entityId_ entityName_ source_ chunkIndex_
                                  chunkContent]
          else chunks in
        let chunkIndex' := if pushed then chunkIndex_ + 1 else chunkIndex_ in
        chunk_loop fuel' words chunkSize_ chunkOverlap_ entityId_ entityName_
                   source_ (currentIndex + (chunkSize_ - chunkOverlap_))
                   chunkIndex' chunks'
      else Some chunks
  end.

(** [chunks.forEach(chunk => { chunk.metadata.totalChunks = chunks.length })]. *)
Definition set_totalChunks (n : Z) (c : DocumentChunk) : DocumentChunk :=
  {| id := id c;
     entityId := entityId c;
     entityName := entityName c;
     content := content c;
     metadata := {| source := source (metadata c);
                    chunkIndex := chunkIndex (metadata c);
                    totalChunks := n |} |}.

(** [chunkDocument(content, entityId, entityName, source)]; the
    configuration is the one [configService.getConfig()] returns. *)
Definition chunkDocument (fuel : nat) (markup : string -> string)
    (config : AskAiConfig) (content_ entityId_ entityName_ : string)
    (source_ : Source) : option (list DocumentChunk) :=
  let cleanContent := extractText markup content_ in
  if (String.length cleanContent =? 0)%nat
     || (String.length (trim cleanContent) =? 0)%nat
  then Some []
  else
    let words := split_ws cleanContent in
    match chunk_loop fuel words (chunkSize config) (chunkOverlap config)
                     entityId_ entityName_ source_ 0 0 [] with
    | None => None
    | Some chunks =>
        Some (map (set_totalChunks (Z.of_nat (List.length chunks))) chunks)
    end.

(** The words of a chunk: its content was produced by [join " "]. *)
Definition chunk_words (c : DocumentChunk) : list string :=
  split_ws (content c).

(** The last [n] elements of a list (all of it when it is shorter). *)
Definition lastn {A : Type} (n : nat) (l : list A) : list A :=
  skipn (List.length l - n)%nat l.

End DocumentProcessor.


(** ** InMemoryVectorStore (services/InMemoryVectorStore.ts) *)

Module InMemoryVectorStore.

Section Store.

Context {N : Type} `{Number N}.

(** [Map<string, EmbeddingVector>]: a JavaScript [Map] iterates in insertion
    order and re-setting a key keeps its position, so the map is an
    association list. *)
Definition Store : Type := list (string * EmbeddingVector N).

Fixpoint Map_set (k : string) (v : EmbeddingVector N) (m : Store) : Store :=
  match m with
  | [] => [(k, v)]
  | (k', v') :: m' =>
      if String.eqb k k' then (k, v) :: m' else (k', v') :: Map_set k v m'
  end.

Definition Map_values (m : Store) : list (EmbeddingVector N) := map snd m.

Definition store (embedding : EmbeddingVector N) (vectors : Store) : Store :=
  Map_set (ev_id embedding) embedding vectors.

Definition storeBatch (embeddings : list (EmbeddingVector N)) (vectors : Store)
  : Store :=
  fold_left (fun m e => Map_set (ev_id e) e m) embeddings vectors.

Definition clear (vectors : Store) : Store := [].

Definition count (vectors : Store) : Z := Z.of_nat (List.length vectors).

(** The accumulators of the [for] loop of [cosineSimilarity]. *)
Record Accumulators : Type := {
  dotProduct : N;
  normA : N;
  normB : N
}.

Definition accumulate (acc : Accumulators) (ab : N * N) : Accumulators :=
  {| dotProduct := add (dotProduct acc) (mul (fst ab) (snd ab));
     normA := add (normA acc) (mul (fst ab) (fst ab));
     normB := add (normB acc) (mul (snd ab) (snd ab)) |}.

(** [cosineSimilarity(a, b)]; [b] is [None] when the stored vector is
    [undefined], and reading its [length] throws. *)
Definition cosineSimilarity (a : list N) (b : option (list N)) : result N :=
  match b with
  | None => Err "Cannot read properties of undefined (reading 'length')"
  | Some b =>
      if negb (List.length a =? List.length b)%nat
      then Err "Vectors must have the same length"
      else
        let acc := fold_left accumulate (combine a b)
                     {| dotProduct := zero; normA := zero; normB := zero |} in
        let denominator := mul (sqrt (normA acc)) (sqrt (normB acc)) in
        if is_zero denominator then Ok zero
        else Ok (div (dotProduct acc) denominator)
  end.

(** The filter of [search]: [entityId] is used only when it is truthy. *)
Definition vectorsToSearch (vectors : Store) (entityId_ : option string)
  : list (EmbeddingVector N) :=
  match entityId_ with
  | Some e =>
      if truthy_string e
      then filter (fun v => String.eqb (entityId (documentChunk v)) e)
                  (Map_values vectors)
      else Map_values vectors
  | None => Map_values vectors
  end.

Definition score (queryVector : list N) (embedding : EmbeddingVector N)
  : result (SearchResult N) :=
  bind (cosineSimilarity queryVector (vector embedding))
       (fun s => Ok {| sr_documentChunk := documentChunk embedding;
                       similarity := s |}).

(** The comparator [(a, b) => b.similarity - a.similarity]. *)
Definition by_similarity_desc (a b : SearchResult N) : N :=
  sub (similarity b) (similarity a).

(** [search(queryVector, topK, entityId)]. *)
Definition search (vectors : Store) (queryVector : list N) (topK : Z)
    (entityId_ : option string) : result (list (SearchResult N)) :=
  bind (mapM (score queryVector) (vectorsToSearch vectors entityId_))
       (fun results =>
          let sorted := sort by_similarity_desc results in
          Ok (slice sorted 0 topK)).

End Store.

End InMemoryVectorStore.

(** ** A state and error monad for the stateful services *)

Module Async.

(** A computation over a state [S] that either returns or throws; the state
    survives the exception, as the fields of a JavaScript object do. *)
Definition M (S A : Type) : Type := S -> result A * S.

Definition ret {S A : Type} (a : A) : M S A := fun s => (Ok a, s).

Definition throw {S A : Type} (message : string) : M S A :=
  fun s => (Err message, s).

Definition bindM {S A B : Type} (m : M S A) (k : A -> M S B) : M S B :=
  fun s =>
    match m s with
    | (Ok a, s') => k a s'
    | (Err e, s') => (Err e, s')
    end.

(** [try { m } catch (error) { handler(error) }]. *)
Definition try_catch {S A : Type} (m : M S A) (handler : string -> M S A)
  : M S A :=
  fun s =>
    match m s with
    | (Ok a, s') => (Ok a, s')
    | (Err e, s') => handler e s'
    end.

Definition get {S : Type} : M S S := fun s => (Ok s, s).

Definition modify {S : Type} (f : S -> S) : M S unit := fun s => (Ok tt, f s).

(** [for (const x of l) { await f(x) }]. *)
Fixpoint forM_ {S A : Type} (f : A -> M S unit) (l : list A) : M S unit :=
  match l with
  | [] => ret tt
  | x :: l' => bindM (f x) (fun _ => forM_ f l')
  end.

End Async.

Import Async.

Declare Scope async_scope.
Delimit Scope async_scope with async.

Notation "x <- m ;; k" := (bindM m (fun x => k))
  (at level 61, m at next level, right associativity) : async_scope.
Notation "m ;;; k" := (bindM m (fun _ => k))
  (at level 61, right associativity) : async_scope.

(** ** PgVectorStore (services/PgVectorStore.ts) *)

Module PgVectorStore.

Local Open Scope async_scope.

(** One row of the [embeddings] table (migrations/001_initial_schema.sql);
    the time stamps play no part in what follows.  The columns are [NOT
    NULL], and [source] is constrained to 'catalog' and 'techdocs': the
    types say as much. *)
Record Row (N : Type) : Type := {
  r_id : string;
  r_chunk_id : string;
  r_entity_id : string;
  r_entity_name : string;
  r_vector : list N;
  r_content : string;
  r_source : Source;
  r_chunk_index : Z;
  r_total_chunks : Z
}.

(** The transaction status of the session of the client in use; the calls
    are rendered one at a time, each with the client it obtained. *)
Inductive Txn (N : Type) : Type :=
| Idle
| InTransaction (working : list (Row N))
| Aborted.

Arguments Idle {N}.
Arguments Aborted {N}.

(** The store object together with the pool and database it talks to.
    [faults] is the schedule of input/output failures: every connection
    attempt and every query consumes one entry, and [true] makes it fail. *)
Record State (N : Type) : Type := {
  initialized : bool;
  pool_ended : bool;
  table : list (Row N);
  session : Txn N;
  faults : list bool;
  extension_installed : bool;
  schema_exists : bool
}.

Section Store.

Context {N : Type} `{Number N}.

(** The [<=>] operator belongs to the pgvector extension, which is not part
    of this repository: it is a parameter. *)
Variable cosine_distance : list N -> list N -> N.

Definition with_initialized (b : bool) (s : State N) : State N :=
  {| initialized := b; pool_ended := pool_ended s; table := table s;
     session := session s; faults := faults s;
     extension_installed := extension_installed s;
     schema_exists := schema_exists s |}.

Definition with_pool_ended (b : bool) (s : State N) : State N :=
  {| initialized := initialized s; pool_ended := b; table := table s;
     session := session s; faults := faults s;
     extension_installed := extension_installed s;
     schema_exists := schema_exists s |}.

Definition with_table (t : list (Row N)) (s : State N) : State N :=
  {| initialized := initialized s; pool_ended := pool_ended s; table := t;
     session := session s; faults := faults s;
     extension_installed := extension_installed s;
     schema_exists := schema_exists s |}.

Definition with_session (x : Txn N) (s : State N) : State N :=
  {| initialized := initialized s; pool_ended := pool_ended s;
     table := table s; session := x; faults := faults s;
     extension_installed := extension_installed s;
     schema_exists := schema_exists s |}.

Definition with_faults (f : list bool) (s : State N) : State N :=
  {| initialized := initialized s; pool_ended := pool_ended s;
     table := table s; session := session s; faults := f;
     extension_installed := extension_installed s;
     schema_exists := schema_exists s |}.

(** *** The database *)

(** The declared dimension of the [vector] column. *)
Definition vector_dimension : nat := 384.

Definition is_int4 (z : Z) : bool :=
  ((- 2147483648 <=? z) && (z <=? 2147483647))%Z.

(** Type and range checks on the values bound to an [INSERT]. *)
Definition check_row (r : Row N) : result unit :=
  if negb (List.length (r_vector r) =? vector_dimension)%nat
  then Err "expected 384 dimensions"
  else if negb (is_int4 (r_chunk_index r) && is_int4 (r_total_chunks r))
  then Err "integer out of range"
  else Ok tt.

(** The arbiter of [ON CONFLICT (entity_id, chunk_id)]. *)
Definition same_key (r r' : Row N) : bool :=
  String.eqb (r_entity_id r) (r_entity_id r')
  && String.eqb (r_chunk_id r) (r_chunk_id r').

(** [DO UPDATE SET vector, content, entity_name, source, chunk_index,
    total_chunks]: the key columns and [id] keep their values. *)
Definition do_update (old new : Row N) : Row N :=
  {| r_id := r_id old;
     r_chunk_id := r_chunk_id old;
     r_entity_id := r_entity_id old;
     r_entity_name := r_entity_name new;
     r_vector := r_vector new;
     r_content := r_content new;
     r_source := r_source new;
     r_chunk_index := r_chunk_index new;
     r_total_chunks := r_total_chunks new |}.

(** [INSERT ... ON CONFLICT (entity_id, chunk_id) DO UPDATE] on a table. *)
Definition upsert (r : Row N) (t : list (Row N)) : result (list (Row N)) :=
  bind (check_row r) (fun _ =>
    if existsb (same_key r) t
    then Ok (map (fun r' => if same_key r r' then do_update r' r else r') t)
    else if existsb (fun r' => String.eqb (r_id r) (r_id r')) t
    then Err "duplicate key value violates unique constraint embeddings_pkey"
    else Ok (t ++ [r])).

(** One entry of the failure schedule is consumed; a failure strikes before
    the statement has any effect and drops the connection, and the server
    discards the open transaction with it. *)
Definition io : M (State N) unit :=
  fun s =>
    match faults s with
    | true :: f => (Err "Connection terminated unexpectedly",
                    with_session Idle (with_faults f s))
    | false :: f => (Ok tt, with_faults f s)
    | [] => (Ok tt, s)
    end.

(** [pool.connect()]. *)
Definition pool_connect : M (State N) unit :=
  s <- get ;;
  if pool_ended s
  then throw "Cannot use a pool after calling end on the pool"
  else io.

(** [pool.end()]. *)
Definition pool_end : M (State N) unit :=
  s <- get ;;
  if pool_ended s
  then throw "Called end on pool more than once"
  else modify (with_pool_ended true).

(** [client.query('BEGIN')]. *)
Definition query_BEGIN : M (State N) unit :=
  io ;;;
  s <- get ;;
  match session s with
  | Idle => modify (with_session (InTransaction (table s)))
  | InTransaction _ => ret tt
  | Aborted => throw "current transaction is aborted"
  end.

(** [client.query(insert, values)]: inside a transaction the statement
    works on the transaction's copy, and a failing statement aborts the
    transaction; outside, it is committed at once. *)
Definition query_INSERT (r : Row N) : M (State N) unit :=
  io ;;;
  s <- get ;;
  match session s with
  | Idle =>
      match upsert r (table s) with
      | Ok t => modify (with_table t)
      | Err e => throw e
      end
  | InTransaction w =>
      match upsert r w with
      | Ok w' => modify (with_session (InTransaction w'))
      | Err e => modify (with_session Aborted) ;;; throw e
      end
  | Aborted => throw "current transaction is aborted"
  end.

(** [client.query('COMMIT')]. *)
Definition query_COMMIT : M (State N) unit :=
  io ;;;
  s <- get ;;
  match session s with
  | Idle => ret tt
  | InTransaction w => modify (fun s => with_session Idle (with_table w s))
  | Aborted => modify (with_session Idle)
  end.

(** [client.query('ROLLBACK')]. *)
Definition query_ROLLBACK : M (State N) unit :=
  io ;;;
  modify (with_session Idle).

(** The filter [$2::TEXT IS NULL OR entity_id = $2]. *)
Definition matches (filter_ : option string) (r : Row N) : bool :=
  match filter_ with
  | None => true
  | Some e => String.eqb (r_entity_id r) e
  end.

(** The comparator of [ORDER BY vector <=> $1]. *)
Definition by_distance_asc (q : list N) (a b : Row N) : N :=
  sub (cosine_distance (r_vector a) q) (cosine_distance (r_vector b) q).

(** The ranked [SELECT] of [search]: each row comes with the value of
    [1 - (vector <=> $1)]. *)
Definition query_SELECT_ranked (q : list N) (filter_ : option string)
    (limit : Z) : M (State N) (list (Row N * N)) :=
  io ;;;
  s <- get ;;
  if negb (List.length q =? vector_dimension)%nat
  then throw "different vector dimensions"
  else if (limit <? 0)%Z
  then throw "LIMIT must not be negative"
  else
    let rows := filter (matches filter_) (table s) in
    let ordered := sort (by_distance_asc q) rows in
    ret (map (fun r => (r, sub one (cosine_distance (r_vector r) q)))
             (firstn (Z.to_nat limit) ordered)).

(** [DELETE FROM embeddings] with an optional [WHERE entity_id = $1]; the
    answer is the number of deleted rows. *)
Definition query_DELETE (filter_ : option string) : M (State N) Z :=
  io ;;;
  s <- get ;;
  let kept := filter (fun r => negb (matches filter_ r)) (table s) in
  modify (with_table kept) ;;;
  ret (Z.of_nat (List.length (table s) - List.length kept)).

(** [SELECT COUNT( * )] with an optional [WHERE entity_id = $1]. *)
Definition query_COUNT (filter_ : option string) : M (State N) Z :=
  io ;;;
  s <- get ;;
  ret (Z.of_nat (List.length (filter (matches filter_) (table s)))).

(** A query whose answer does not depend on the table
    ([SELECT NOW()], [VACUUM]). *)
Definition query_plain : M (State N) unit := io.

(** *** The store *)

Definition ensureInitialized : M (State N) unit :=
  s <- get ;;
  if negb (initialized s)
  then throw "PgVectorStore not initialized. Call initialize() first."
  else ret tt.

Definition testConnection : M (State N) unit :=
  pool_connect ;;; query_plain.

Definition verifyPgVector : M (State N) unit :=
  pool_connect ;;;
  io ;;;
  s <- get ;;
  if negb (extension_installed s)
  then throw "pgvector extension is not installed. Please run: CREATE EXTENSION vector;"
  else ret tt.

Definition verifySchema : M (State N) unit :=
  pool_connect ;;;
  io ;;;
  s <- get ;;
  if negb (schema_exists s)
  then throw "Embeddings table not found. Run migrations first."
  else ret tt.

Definition initialize : M (State N) unit :=
  s <- get ;;
  if initialized s then ret tt
  else
    try_catch
      (testConnection ;;;
       verifyPgVector ;;;
       verifySchema ;;;
       modify (with_initialized true))
      (fun error => throw ("PgVectorStore initialization failed: " ++ error)).

(** The values bound to the [INSERT]; [vectorToSql] calls [join] on the
    vector and throws when it is [undefined]. *)
Definition row_of (embedding : EmbeddingVector N) : result (Row N) :=
  match vector embedding with
  | None => Err "Cannot read properties of undefined (reading 'join')"
  | Some v =>
      Ok {| r_id := ev_id embedding;
            r_chunk_id := chunkId embedding;
            r_entity_id := entityId (documentChunk embedding);
            r_entity_name := entityName (documentChunk embedding);
            r_vector := v;
            r_content := content (documentChunk embedding);
            r_source := source (metadata (documentChunk embedding));
            r_chunk_index := chunkIndex (metadata (documentChunk embedding));
            r_total_chunks := totalChunks (metadata (documentChunk embedding)) |}
  end.

Definition insert_embedding (embedding : EmbeddingVector N) : M (State N) unit :=
  match row_of embedding with
  | Err e => throw e
  | Ok r => query_INSERT r
  end.

Definition store (embedding : EmbeddingVector N) : M (State N) unit :=
  ensureInitialized ;;;
  pool_connect ;;;
  try_catch (insert_embedding embedding) (fun error => throw error).

(** The transaction of [storeBatch]: the [try] block, from [BEGIN] to
    [COMMIT], and its [catch] clause. *)
Definition storeBatch_transaction (embeddings : list (EmbeddingVector N))
  : M (State N) unit :=
  try_catch
    (query_BEGIN ;;;
     forM_ insert_embedding embeddings ;;;
     query_COMMIT)
    (fun error => query_ROLLBACK ;;; throw error).

Definition storeBatch (embeddings : list (EmbeddingVector N))
  : M (State N) unit :=
  ensureInitialized ;;;
  match embeddings with
  | [] => ret tt
  | _ => pool_connect ;;; storeBatch_transaction embeddings
  end.

(** [entityId || null]. *)
Definition entity_filter (entityId_ : option string) : option string :=
  match entityId_ with
  | Some e => if truthy_string e then Some e else None
  | None => None
  end.

Definition result_of_row (rs : Row N * N) : SearchResult N :=
  let r := fst rs in
  {| sr_documentChunk :=
       {| id := r_id r;
          entityId := r_entity_id r;
          entityName := r_entity_name r;
          content := r_content r;
          metadata := {| source := r_source r;
                         chunkIndex := r_chunk_index r;
                         totalChunks := r_total_chunks r |} |};
     similarity := snd rs |}.

Definition search (queryVector : list N) (topK : Z) (entityId_ : option string)
  : M (State N) (list (SearchResult N)) :=
  ensureInitialized ;;;
  pool_connect ;;;
  try_catch
    (rows <- query_SELECT_ranked queryVector (entity_filter entityId_) topK ;;
     ret (map result_of_row rows))
    (fun error => throw error).

Definition clear (entityId_ : option string) : M (State N) unit :=
  ensureInitialized ;;;
  pool_connect ;;;
  try_catch
    (_ <- query_DELETE (entity_filter entityId_) ;;
     match entity_filter entityId_ with
     | Some _ => ret tt
     | None => try_catch query_plain (fun _ => ret tt)
     end)
    (fun error => throw error).

Definition count (entityId_ : option string) : M (State N) Z :=
  ensureInitialized ;;;
  pool_connect ;;;
  try_catch (query_COUNT (entity_filter entityId_)) (fun error => throw error).

Definition close : M (State N) unit :=
  try_catch pool_end (fun error => throw error).

(** The row of the view [embedding_stats]
    (migrations/001_initial_schema.sql) as [getStats] returns it: the
    aggregates have no [GROUP BY], so that there is always one row. *)
Record Stats : Type := {
  totalVectors : Z;
  uniqueEntities : Z;
  catalogEntities : Z;
  techdocsEntities : Z
}.

(** [COUNT(DISTINCT entity_id)] over the rows of one source, when one is
    given ([COUNT(DISTINCT CASE WHEN source = ... THEN entity_id END)]);
    the columns are [NOT NULL]. *)
Definition count_distinct_entities (source_ : option Source)
    (rows : list (Row N)) : Z :=
  let selected :=
    match source_ with
    | None => rows
    | Some catalog =>
        filter (fun r => match r_source r with
                         | catalog => true
                         | techdocs => false
                         end) rows
    | Some techdocs =>
        filter (fun r => match r_source r with
                         | catalog => false
                         | techdocs => true
                         end) rows
    end in
  Z.of_nat (List.length (nodup String.string_dec (map (@r_entity_id N) selected))).

(** [SELECT * FROM embedding_stats]. *)
Definition query_SELECT_stats : M (State N) Stats :=
  io ;;;
  s <- get ;;
  ret {| totalVectors := Z.of_nat (List.length (table s));
         uniqueEntities := count_distinct_entities None (table s);
         catalogEntities := count_distinct_entities (Some catalog) (table s);
         techdocsEntities := count_distinct_entities (Some techdocs) (table s) |}.

Definition getStats : M (State N) Stats :=
  ensureInitialized ;;;
  pool_connect ;;;
  try_catch query_SELECT_stats (fun error => throw error).

(** [healthCheck()]: it does not go through [ensureInitialized], and the
    [catch] clause turns every failure into [false]. *)
Definition healthCheck : M (State N) bool :=
  try_catch (pool_connect ;;; query_plain ;;; ret true)
            (fun _error => ret false).

(** A freshly constructed store: [initialized = false], a live pool. *)
Definition new (t : list (Row N)) (f : list bool) (ext schema : bool)
  : State N :=
  {| initialized := false; pool_ended := false; table := t; session := Idle;
     faults := f; extension_installed := ext; schema_exists := schema |}.

End Store.

End PgVectorStore.

(** ** OllamaLLMService (services/OllamaLLMService.ts) *)

Module OllamaLLMService.

(** A parsed JSON document. *)
#[local] Unset Elimination Schemes.
Inductive JSON : Type :=
| JNull
| JBool (b : bool)
| JNumber (x : float)
| JString (s : string)
| JArray (items : list JSON)
| JObject (fields : list (string * JSON)).
#[local] Set Elimination Schemes.

(** What [fetch] and the accessors of its response deliver: the request
    itself may fail, reading the body as text may fail, and parsing it as
    JSON may fail. *)
Record Response : Type := {
  ok : bool;
  status : Z;
  text : result string;
  json : result JSON
}.

Fixpoint lookup (key : string) (fields : list (string * JSON)) : option JSON :=
  match fields with
  | [] => None
  | (k, v) :: fields' => if String.eqb k key then Some v else lookup key fields'
  end.

(** [json.embeddings]: reading a property of [null] throws; for an object
    the property may be absent ([undefined], here [None]); the other values
    have no such property. *)
Definition get_embeddings (j : JSON) : result (option JSON) :=
  match j with
  | JNull => Err "Cannot read properties of null (reading 'embeddings')"
  | JObject fields => Ok (lookup "embeddings" fields)
  | _ => Ok None
  end.

(** Truthiness of a JSON value. *)
Definition truthy (j : JSON) : bool :=
  match j with
  | JNull => false
  | JBool b => b
  | JNumber x => negb (PrimFloat.eqb x 0%float) && PrimFloat.eqb x x
  | JString s => truthy_string s
  | JArray _ => true
  | JObject _ => true
  end.

(** [Array.isArray]. *)
Definition isArray (j : JSON) : bool :=
  match j with
  | JArray _ => true
  | _ => false
  end.

(** The guard [!json.embeddings || !Array.isArray(json.embeddings)] and
    the [return json.embeddings] behind it. *)
Definition checked_embeddings (e : option JSON) : result JSON :=
  match e with
  | None => Err "Invalid embeddings response format from Ollama"
  | Some embeddings =>
      if negb (truthy embeddings) || negb (isArray embeddings)
      then Err "Invalid embeddings response format from Ollama"
      else Ok embeddings
  end.

(** The body of the [try] block of [generateEmbeddings]; [fetched] is the
    outcome of the request to [/api/embed]. *)
Definition request_embeddings (fetched : result Response) : result JSON :=
  bind fetched (fun response =>
    if negb (ok response)
    then bind (text response) (fun errorText =>
           Err ("Ollama API error (" ++ string_of_Z (status response) ++ "): "
                ++ errorText))
    else bind (json response) (fun j =>
           bind (get_embeddings j) checked_embeddings)).

(** [generateEmbeddings(inputs, model)]: the inputs only travel in the
    request body; every failure is rethrown with a prefix.  The value
    returned is [json.embeddings] itself, cast to [number[][]]. *)
Definition generateEmbeddings (inputs : list string) (fetched : result Response)
  : result JSON :=
  match request_embeddings fetched with
  | Ok embeddings => Ok embeddings
  | Err message => Err ("Embedding generation failed: " ++ message)
  end.

(** [json.message], read as [json.embeddings] is. *)
Definition get_message (j : JSON) : result (option JSON) :=
  match j with
  | JNull => Err "Cannot read properties of null (reading 'message')"
  | JObject fields => Ok (lookup "message" fields)
  | _ => Ok None
  end.

(** [message.content] for a [message] that is truthy: only an object has
    such a property. *)
Definition get_content (message : JSON) : option JSON :=
  match message with
  | JObject fields => lookup "content" fields
  | _ => None
  end.

(** The guard [!json.message || !json.message.content] and the
    [return json.message.content] behind it. *)
Definition checked_content (message : option JSON) : result JSON :=
  match message with
  | None => Err "Invalid response format from Ollama"
  | Some m =>
      if negb (truthy m)
      then Err "Invalid response format from Ollama"
      else
        match get_content m with
        | None => Err "Invalid response format from Ollama"
        | Some c =>
            if negb (truthy c)
            then Err "Invalid response format from Ollama"
            else Ok c
        end
  end.

(** The body of the [try] block of [chat]; [fetched] is the outcome of the
    request to [/api/chat]. *)
Definition request_chat (fetched : result Response) : result JSON :=
  bind fetched (fun response =>
    if negb (ok response)
    then bind (text response) (fun errorText =>
           Err ("Ollama API error (" ++ string_of_Z (status response) ++ "): "
                ++ errorText))
    else bind (json response) (fun j =>
           bind (get_message j) checked_content)).

(** [chat(messages, model)]: the messages, pairs of a role and a content,
    only travel in the request body.  The value returned is
    [json.message.content] itself, cast to [string]. *)
Definition chat (messages : list (string * string)) (fetched : result Response)
  : result JSON :=
  match request_chat fetched with
  | Ok completion => Ok completion
  | Err message => Err ("Chat completion failed: " ++ message)
  end.

End OllamaLLMService.

(** ** SimpleRAGStrategy (rag/strategies/SimpleRAGStrategy.ts) *)

Module SimpleRAGStrategy.

Local Open Scope async_scope.

Section Strategy.

(** [N]: vector components; [Entity]: a catalog entity; [S]: the state of
    the vector store behind [IVectorStore]. *)
Variables N Entity S : Type.

(** The collaborators injected through [RAGServiceDependencies], each with
    the outcome of its calls.  Only the vector store has state. *)
Record Dependencies : Type := {
  (* ICatalogCollector *)
  fetchAllEntities : result (list Entity);
  fetchEntity : string -> result Entity;
  extractEntityContent : Entity -> string;
  getEntityRef : Entity -> string;
  metadata_name : Entity -> string;
  (* IDocumentProcessor *)
  chunkDocument : string -> string -> string -> Source
                  -> result (list DocumentChunk);
  (* ITechDocsCollector *)
  hasDocumentation : string -> result bool;
  fetchDocumentation : string -> result (option string);
  (* ILLMService *)
  generateEmbeddings : list string -> result (list (list N));
  (* IVectorStore *)
  vs_storeBatch : list (EmbeddingVector N) -> M S unit;
  vs_clear : M S unit;
  vs_count : M S Z
}.

Variable deps : Dependencies.

(** An awaited call of a stateless collaborator. *)
Definition await {A : Type} (r : result A) : M S A := fun s => (r, s).

(** [allChunks.map((chunk, index) => ({ ..., vector: embeddings[index] }))]. *)
Fixpoint embeddingVectors_from (index : nat) (allChunks : list DocumentChunk)
    (embeddings : list (list N)) : list (EmbeddingVector N) :=
  match allChunks with
  | [] => []
  | chunk :: rest =>
      {| ev_id := id chunk;
         chunkId := id chunk;
         vector := nth_error embeddings index;
         documentChunk := chunk |}
      :: embeddingVectors_from (Datatypes.S index) rest embeddings
  end.

(** The [try] block of [indexEntityInternal]. *)
Definition index_chunks (entity : Entity) : M S unit :=
  let entityRef := getEntityRef deps entity in
  let entityName_ := metadata_name deps entity in
  catalogChunks <- await (chunkDocument deps
                            (extractEntityContent deps entity)
                            entityRef entityName_ catalog) ;;
  hasDocs <- await (hasDocumentation deps entityRef) ;;
  docChunks <-
    (if hasDocs : bool
     then
       documentation <- await (fetchDocumentation deps entityRef) ;;
       match documentation with
       | Some d =>
           if truthy_string d
           then await (chunkDocument deps d entityRef entityName_ techdocs)
           else ret []
       | None => ret []
       end
     else ret []) ;;
  let allChunks := catalogChunks ++ docChunks in
  match allChunks with
  | [] => ret tt
  | _ =>
      embeddings <- await (generateEmbeddings deps (map content allChunks)) ;;
      vs_storeBatch deps (embeddingVectors_from 0 allChunks embeddings)
  end.

(** [indexEntityInternal(entity)]: the [catch] clause logs the error and
    returns ("Continue with other entities instead of failing
    completely"). *)
Definition indexEntityInternal (entity : Entity) : M S unit :=
  try_catch (index_chunks entity) (fun _error => ret tt).

(** [indexEntity(entityRef)]. *)
Definition indexEntity (entityRef : string) : M S unit :=
  entity <- await (fetchEntity deps entityRef) ;;
  indexEntityInternal entity.

(** The batches [entities.slice(i, i + batchSize)] of the [for] loop of
    [indexAll], for [i = 0, 10, 20, ...] below [entities.length]. *)
Fixpoint batches_from (fuel : nat) (i : Z) (entities : list Entity)
  : list (list Entity) :=
  match fuel with
  | O => []
  | Datatypes.S fuel' =>
      if (i <? Z.of_nat (List.length entities))%Z
      then slice entities i (i + 10) :: batches_from fuel' (i + 10) entities
      else []
  end.

(** [indexAll()].  The entities of one batch run under [Promise.all]; as
    [indexEntityInternal] never rejects, the batch is rendered by running
    them one after the other. *)
Definition indexAll : M S unit :=
  vs_clear deps ;;;
  entities <- await (fetchAllEntities deps) ;;
  forM_ (fun batch => forM_ indexEntityInternal batch)
        (batches_from (List.length entities) 0 entities) ;;;
  _ <- vs_count deps ;;
  ret tt.

End Strategy.

End SimpleRAGStrategy.

(** ** RAGService (services/RAGService.ts) *)

Module RAGService.

Local Open Scope async_scope.

(** What an observer sees of the invocations of [indexAllDocuments]; an
    invocation is named by its rank. *)
Inductive Event : Type :=
| Warned (call : nat)            (* 'Indexing already in progress, skipping' *)
| StrategyIndexAll (call : nat)  (* [this.strategy.indexAll()] was invoked *)
| Resolved (call : nat)          (* the invocation's promise resolved *)
| Rejected (call : nat) (message : string).

(** The service: its two private fields, the invocations suspended at
    [await this.strategy.indexAll()], the events so far, and the rank of the
    next invocation. *)
Record State : Type := {
  indexingInProgress : bool;
  lastIndexTime : option Z;
  suspended : list nat;
  events : list Event;
  next_call : nat
}.

(** [new RAGService(dependencies)]. *)
Definition new : State :=
  {| indexingInProgress := false; lastIndexTime := None; suspended := [];
     events := []; next_call := 0 |}.

(** [indexAllDocuments()] up to its first suspension: the guard, and
    otherwise the flag and the call of the strategy. *)
Definition indexAllDocuments_enter (s : State) : State :=
  let call := next_call s in
  if indexingInProgress s
  then {| indexingInProgress := indexingInProgress s;
          lastIndexTime := lastIndexTime s;
          suspended := suspended s;
          events := events s ++ [Warned call; Resolved call];
          next_call := Datatypes.S call |}
  else {| indexingInProgress := true;
          lastIndexTime := lastIndexTime s;
          suspended := suspended s ++ [call];
          events := events s ++ [StrategyIndexAll call];
          next_call := Datatypes.S call |}.

(** [indexAllDocuments()] from the moment the promise of
    [strategy.indexAll()] settles with [outcome], at time [now]: the rest of
    the [try] block, or the [catch] clause, and then the [finally] clause. *)
Definition indexAllDocuments_resume (call : nat) (outcome : result unit)
    (now : Z) (s : State) : State :=
  if existsb (Nat.eqb call) (suspended s)
  then
    match outcome with
    | Ok _ =>
        {| indexingInProgress := false;
           lastIndexTime := Some now;
           suspended := filter (fun c => negb (Nat.eqb call c)) (suspended s);
           events := events s ++ [Resolved call];
           next_call := next_call s |}
    | Err error =>
        {| indexingInProgress := false;
           lastIndexTime := lastIndexTime s;
           suspended := filter (fun c => negb (Nat.eqb call c)) (suspended s);
           events := events s ++ [Rejected call error];
           next_call := next_call s |}
    end
  else s.

(** What can happen to the service: somebody calls [indexAllDocuments], or
    the strategy run awaited by a suspended invocation settles. *)
Inductive Action : Type :=
| Call
| Settle (call : nat) (outcome : result unit) (now : Z).

Definition step (s : State) (a : Action) : State :=
  match a with
  | Call => indexAllDocuments_enter s
  | Settle call outcome now => indexAllDocuments_resume call outcome now s
  end.

(** The state after a history of actions on a new service. *)
Definition run (history : list Action) : State :=
  fold_left step history new.

(** A state in which two full index runs execute at once. *)
Definition two_runs_active (s : State) : Prop :=
  (2 <= List.length (suspended s))%nat.

Record IndexingStatus : Type := {
  inProgress : bool;
  status_lastIndexTime : option Z;
  vectorCount : Z
}.

(** [getIndexingStatus()]. *)
Definition getIndexingStatus (s : State) : IndexingStatus :=
  {| inProgress := indexingInProgress s;
     status_lastIndexTime := lastIndexTime s;
     vectorCount := 0 |}.

(** [indexEntity(entityRef)], over the injected strategy: the [catch]
    clause logs and rethrows. *)
Definition indexEntity {S : Type} (strategy_indexEntity : string -> M S unit)
    (entityRef : string) : M S unit :=
  try_catch (strategy_indexEntity entityRef) (fun error => throw error).

End RAGService.

(** ** ConfigService (services/ConfigService.ts) *)

Module ConfigService.

(** The values of the application configuration the service reads;
    [None] is an absent key. *)
Record Config : Type := {
  askAi_defaultModel : option string;
  askAi_embeddingModel : option string;
  askAi_ollamaBaseUrl : option string;
  askAi_ragEnabled : option bool;
  askAi_rag_strategy : option string;
  askAi_defaultTopK : option Z;
  askAi_chunkSize : option Z;
  askAi_chunkOverlap : option Z;
  askAi_vectorStore_type : option string;
  pg_host : option string;
  pg_port : option Z;
  pg_database : option string;
  pg_user : option string;
  pg_password : option string;
  pg_ssl : option bool;
  pg_maxConnections : option Z;
  pg_idleTimeoutMillis : option Z;
  pg_connectionTimeoutMillis : option Z
}.

Definition loadPostgresConfig (config : Config) : result PostgresConfig :=
  let password_ := string_or (pg_password config) EmptyString in
  if negb (truthy_string password_)
  then Err "PostgreSQL password is required when using postgresql vector store"
  else Ok {| host := string_or (pg_host config) "localhost";
             port := number_or (pg_port config) 5432;
             database := string_or (pg_database config) "backstage_vectors";
             user := string_or (pg_user config) "backstage";
             password := password_;
             ssl := nullish_or (pg_ssl config) false;
             maxConnections := number_or (pg_maxConnections config) 10;
             idleTimeoutMillis := number_or (pg_idleTimeoutMillis config) 30000;
             connectionTimeoutMillis :=
               number_or (pg_connectionTimeoutMillis config) 5000 |}.

Definition loadVectorStoreConfig (config : Config) : result VectorStoreConfig :=
  match askAi_vectorStore_type config with
  | Some type_ =>
      if String.eqb type_ "postgresql"
      then bind (loadPostgresConfig config) (fun pg => Ok (postgresql pg))
      else Ok memory
  | None => Ok memory
  end.

(** [loadConfig()], documented "Load and validate configuration". *)
Definition loadConfig (config : Config) : result AskAiConfig :=
  bind (loadVectorStoreConfig config) (fun vectorStore_ =>
    Ok {| defaultModel := string_or (askAi_defaultModel config) "llama3.2";
          embeddingModel := string_or (askAi_embeddingModel config) "all-minilm";
          ollamaBaseUrl :=
            string_or (askAi_ollamaBaseUrl config) "http://localhost:11434";
          ragEnabled := nullish_or (askAi_ragEnabled config) true;
          ragStrategy := string_or (askAi_rag_strategy config) "simple";
          defaultTopK := number_or (askAi_defaultTopK config) 5;
          chunkSize := number_or (askAi_chunkSize config) 512;
          chunkOverlap := number_or (askAi_chunkOverlap config) 50;
          vectorStore := vectorStore_ |}).

(** The configuration with no key set. *)
Definition empty : Config :=
  {| askAi_defaultModel := None; askAi_embeddingModel := None;
     askAi_ollamaBaseUrl := None; askAi_ragEnabled := None;
     askAi_rag_strategy := None; askAi_defaultTopK := None;
     askAi_chunkSize := None; askAi_chunkOverlap := None;
     askAi_vectorStore_type := None; pg_host := None; pg_port := None;
     pg_database := None; pg_user := None; pg_password := None;
     pg_ssl := None; pg_maxConnections := None; pg_idleTimeoutMillis := None;
     pg_connectionTimeoutMillis := None |}.

(** The getters read the configuration that the constructor cached. *)
Definition getVectorStoreType (cachedConfig : AskAiConfig) : string :=
  match vectorStore cachedConfig with
  | postgresql _ => "postgresql"
  | memory => "memory"
  end.

Definition isPostgresVectorStoreEnabled (cachedConfig : AskAiConfig) : bool :=
  match vectorStore cachedConfig with
  | postgresql _ => true
  | memory => false
  end.

Definition getPostgresConfig (cachedConfig : AskAiConfig)
  : result PostgresConfig :=
  match vectorStore cachedConfig with
  | postgresql pg => Ok pg
  | memory => Err "PostgreSQL vector store is not configured"
  end.

End ConfigService.

(** ** VectorStoreFactory (services/VectorStoreFactory.ts) *)

Module VectorStoreFactory.

Section Factory.

Context {N : Type}.

(** The two implementations of [IVectorStore], each with its state. *)
Inductive IVectorStore : Type :=
| InMemory (vectors : InMemoryVectorStore.Store (N := N))
| Pg (store : PgVectorStore.State N).

(** [create(config, logger)].  [db] is what [new PgVectorStore(logger,
    pgConfig)] stands on: the pool and the database at the configured
    address. *)
Definition create (config : AskAiConfig) (db : PgVectorStore.State N)
  : result IVectorStore :=
  if String.eqb (ConfigService.getVectorStoreType config) "postgresql"
  then
    bind (ConfigService.getPostgresConfig config) (fun _pgConfig =>
      match PgVectorStore.initialize db with
      | (Ok _, store) => Ok (Pg store)
      | (Err _, _) => Ok (InMemory [])
      end)
  else Ok (InMemory []).

(** [createStrict(config, logger)]. *)
Definition createStrict (config : AskAiConfig) (db : PgVectorStore.State N)
  : result IVectorStore :=
  if String.eqb (ConfigService.getVectorStoreType config) "postgresql"
  then
    bind (ConfigService.getPostgresConfig config) (fun _pgConfig =>
      match PgVectorStore.initialize db with
      | (Ok _, store) => Ok (Pg store)
      | (Err error, _) => Err error
      end)
  else Ok (InMemory []).

End Factory.

(** [validate(config)]: the pair of [valid] and [errors].  An [Error] put
    into a template literal is rendered as its name and its message. *)
Definition validate (config : AskAiConfig) : bool * list string :=
  let errors :=
    if String.eqb (ConfigService.getVectorStoreType config) "postgresql"
    then
      match ConfigService.getPostgresConfig config with
      | Ok pgConfig =>
          (if negb (truthy_string (host pgConfig))
           then ["PostgreSQL host is required"] else [])
          ++ (if negb (truthy_string (database pgConfig))
              then ["PostgreSQL database is required"] else [])
          ++ (if negb (truthy_string (user pgConfig))
              then ["PostgreSQL user is required"] else [])
          ++ (if negb (truthy_string (password pgConfig))
              then ["PostgreSQL password is required"] else [])
          ++ (if negb (port pgConfig =? 0)%Z
                 && ((port pgConfig <? 1)%Z || (65535 <? port pgConfig)%Z)
              then ["PostgreSQL port must be between 1 and 65535"] else [])
      | Err error =>
          [("PostgreSQL configuration error: Error: " ++ error)%string]
      end
    else [] in
  ((List.length errors =? 0)%nat, errors).

End VectorStoreFactory.

(** ** CatalogCollector (services/CatalogCollector.ts) *)

Module CatalogCollector.

(** The fields of a catalog entity that [getEntityRef] reads. *)
Record Entity : Type := {
  kind : string;
  metadata_namespace : option string;
  metadata_name : string
}.

Definition getEntityRef (entity : Entity) : string :=
  kind entity ++ ":" ++ string_or (metadata_namespace entity) "default"
  ++ "/" ++ metadata_name entity.

End CatalogCollector.

(** ** TechDocsCollector (services/TechDocsCollector.ts) *)

Module TechDocsCollector.

(** [s.split(sep)] for a separator of one character. *)
Fixpoint split_on (sep : ascii) (s : string) : list string :=
  match s with
  | EmptyString => [EmptyString]
  | String c s' =>
      if Ascii.eqb c sep then EmptyString :: split_on sep s'
      else
        match split_on sep s' with
        | piece :: rest => String c piece :: rest
        | [] => [String c EmptyString]
        end
  end.

(** [toLowerCase] on the 8-bit alphabet (the code points below 256): the
    letters A to Z, and the capital letters of the upper half. *)
Definition lower (c : ascii) : ascii :=
  let n := nat_of_ascii c in
  if ((65 <=? n) && (n <=? 90)
      || (192 <=? n) && (n <=? 214)
      || (216 <=? n) && (n <=? 222))%nat
  then ascii_of_nat (n + 32)
  else c.

Fixpoint toLowerCase (s : string) : string :=
  match s with
  | EmptyString => EmptyString
  | String c s' => String (lower c) (toLowerCase s')
  end.

(** An element of a destructured array in a template literal. *)
Definition rendered (x : option string) : string :=
  match x with
  | Some s => s
  | None => "undefined"
  end.

(** The address [docUrl] that [fetchDocumentation(entityRef)] requests. *)
Definition docUrl (baseUrl entityRef : string) : string :=
  let parts := split_on ":" entityRef in
  let kind := nth 0 parts EmptyString in
  let namespaceAndName := nth_error parts 1 in
  let pieces :=
    match namespaceAndName with
    | Some nn => if truthy_string nn then split_on "/" nn else ["default"; kind]
    | None => ["default"; kind]
    end in
  let namespace := nth_error pieces 0 in
  let name := nth_error pieces 1 in
  baseUrl ++ "/static/docs/" ++ rendered namespace ++ "/" ++ toLowerCase kind
  ++ "/" ++ rendered name ++ "/index.html".

End TechDocsCollector.

(** ** Vocabulary of the properties *)

(** *** Words *)

Module Words.

Import DocumentProcessor.

Definition nonempty (s : string) : bool :=
  match s with
  | EmptyString => false
  | String _ _ => true
  end.

Fixpoint space_free (s : string) : bool :=
  match s with
  | EmptyString => true
  | String c s' => negb (is_space c) && space_free s'
  end.

(** A word: not empty, and without white space. *)
Definition word_ok (w : string) : bool := nonempty w && space_free w.

(** The first character is not white. *)
Definition starts_ok (s : string) : bool :=
  match s with
  | EmptyString => false
  | String c _ => negb (is_space c)
  end.

(** The last character is not white. *)
Fixpoint ends_ok (s : string) : bool :=
  match s with
  | EmptyString => false
  | String c EmptyString => negb (is_space c)
  | String _ s' => ends_ok s'
  end.

(** The chunks of [l] hold the windows of [W] words that start at the
    positions [a], [a + stride], [a + 2 stride], ... of [words]. *)
Fixpoint windows_from (words : list string) (W stride a : Z)
    (l : list DocumentChunk) : Prop :=
  match l with
  | [] => True
  | c :: l' =>
      (0 <= a < Z.of_nat (List.length words))%Z
      /\ chunk_words c = slice words a (a + W)
      /\ windows_from words W stride (a + stride) l'
  end.

End Words.

(** A configuration that differs from the defaults in the chunking
    parameters only. *)
Definition config_with (W O : Z) : AskAiConfig :=
  {| defaultModel := "llama3.2"; embeddingModel := "all-minilm";
     ollamaBaseUrl := "http://localhost:11434"; ragEnabled := true;
     ragStrategy := "simple"; defaultTopK := 5; chunkSize := W;
     chunkOverlap := O; vectorStore := memory |}.

(** An application configuration that sets [askAi.chunkSize] to 50 and
    nothing else. *)
Definition config_chunkSize_50 : ConfigService.Config :=
  {| ConfigService.askAi_defaultModel := None;
     ConfigService.askAi_embeddingModel := None;
     ConfigService.askAi_ollamaBaseUrl := None;
     ConfigService.askAi_ragEnabled := None;
     ConfigService.askAi_rag_strategy := None;
     ConfigService.askAi_defaultTopK := None;
     ConfigService.askAi_chunkSize := Some 50%Z;
     ConfigService.askAi_chunkOverlap := None;
     ConfigService.askAi_vectorStore_type := None;
     ConfigService.pg_host := None; ConfigService.pg_port := None;
     ConfigService.pg_database := None; ConfigService.pg_user := None;
     ConfigService.pg_password := None; ConfigService.pg_ssl := None;
     ConfigService.pg_maxConnections := None;
     ConfigService.pg_idleTimeoutMillis := None;
     ConfigService.pg_connectionTimeoutMillis := None |}.

(** *** The guard of the RAG service *)

(** The flag tells exactly whether a strategy run is awaited, and at most
    one is. *)
Definition guard_invariant (s : RAGService.State) : Prop :=
  (RAGService.indexingInProgress s = true
   /\ exists call, RAGService.suspended s = [call])
  \/ (RAGService.indexingInProgress s = false /\ RAGService.suspended s = []).

(** *** The persistent store *)

Module PgSpec.

Import PgVectorStore.

(** All the rows of a batch, one after the other, on a table. *)
Fixpoint apply_batch {N : Type} (rows : list (Row N)) (t : list (Row N))
  : result (list (Row N)) :=
  match rows with
  | [] => Ok t
  | r :: rows' => bind (upsert r t) (apply_batch rows')
  end.

(** The error of a call that follows [close()], according to whether the
    store had been initialized. *)
Definition error_after_close (was_initialized : bool) : string :=
  if was_initialized
  then "Cannot use a pool after calling end on the pool"
  else "PgVectorStore not initialized. Call initialize() first.".

End PgSpec.

(** *** Ranked results *)



(** *** Sample data *)

Definition demo_chunk : DocumentChunk :=
  {| id := "component:default/demo-catalog-0";
     entityId := "component:default/demo";
     entityName := "demo";
     content := "Entity: demo";
     metadata := {| source := catalog; chunkIndex := 0; totalChunks := 1 |} |}.

Definition demo_embedding {N : Type} (name : string) (v : list N)
  : EmbeddingVector N :=
  {| ev_id := name; chunkId := name; vector := Some v;
     documentChunk := demo_chunk |}.

(** An initialized persistent store over an empty table. *)
Definition demo_pg {N : Type} (rows : list (PgVectorStore.Row N))
  : PgVectorStore.State N :=
  {| PgVectorStore.initialized := true;
     PgVectorStore.pool_ended := false;
     PgVectorStore.table := rows;
     PgVectorStore.session := PgVectorStore.Idle;
     PgVectorStore.faults := [];
     PgVectorStore.extension_installed := true;
     PgVectorStore.schema_exists := true |}.

Definition demo_row {N : Type} (name : string) (v : list N)
  : PgVectorStore.Row N :=
  {| PgVectorStore.r_id := name;
     PgVectorStore.r_chunk_id := name;
     PgVectorStore.r_entity_id := "component:default/demo";
     PgVectorStore.r_entity_name := "demo";
     PgVectorStore.r_vector := v;
     PgVectorStore.r_content := "Entity: demo";
     PgVectorStore.r_source := catalog;
     PgVectorStore.r_chunk_index := 0;
     PgVectorStore.r_total_chunks := 1 |}.

(** ** Vocabulary for the chunking *)

Module ChunkSpec.
Import DocumentProcessor.

(** The chunks the loop appends from position [a] and index [idx] on:
    one chunk per window start below the number of words. *)
Fixpoint loop_chunks (words : list string) (W stride : Z)
    (e n : string) (src : Source) (a idx : Z) (l : list DocumentChunk)
  : Prop :=
  match l with
  | [] => (Z.of_nat (List.length words) <= a)%Z
  | c :: l' =>
      (0 <= a < Z.of_nat (List.length words))%Z
      /\ c = mkChunk e n src idx (join " " (slice words a (a + W)))
      /\ loop_chunks words W stride e n src (a + stride) (idx + 1) l'
  end.

(** White space occurs only as single spaces; [after_space] tells that the
    previous character was one. *)
Fixpoint single_spaced (after_space : bool) (s : string) : bool :=
  match s with
  | EmptyString => true
  | String c s' =>
      if is_space c
      then Ascii.eqb c " " && negb after_space && single_spaced true s'
      else single_spaced false s'
  end.

(** Every character is white. *)
Fixpoint blank (s : string) : bool :=
  match s with
  | EmptyString => true
  | String c s' => is_space c && blank s'
  end.

(** The fields a chunk gets from the call and from its position [k]. *)
Definition labelled (e n : string) (src : Source) (k : Z)
    (c : DocumentChunk) : Prop :=
  id c = (e ++ "-" ++ Source_to_string src ++ "-" ++ string_of_Z k)%string
  /\ entityId c = e
  /\ entityName c = n
  /\ source (metadata c) = src
  /\ chunkIndex (metadata c) = k.

End ChunkSpec.

(** ** Vocabulary for the in-memory store *)

Module MapSpec.

Import InMemoryVectorStore.

Section Spec.

Context {N : Type}.

(** [vectors.get(k)]. *)
Fixpoint Map_get (k : string) (m : Store (N := N))
  : option (EmbeddingVector N) :=
  match m with
  | [] => None
  | (k', v) :: m' => if String.eqb k k' then Some v else Map_get k m'
  end.

(** [Array.from(vectors.keys())]. *)
Definition Map_keys (m : Store (N := N)) : list string := map fst m.

(** The last embedding of a batch that has the id [k], or [d]. *)
Definition last_write (k : string) (es : list (EmbeddingVector N))
    (d : option (EmbeddingVector N)) : option (EmbeddingVector N) :=
  fold_left (fun acc e => if String.eqb k (ev_id e) then Some e else acc) es d.

(** A stored embedding that [cosineSimilarity] accepts for the query [q]. *)
Definition comparable (q : list N) (e : EmbeddingVector N) : Prop :=
  exists v, vector e = Some v /\ List.length v = List.length q.

End Spec.

End MapSpec.

(** ** Vocabulary for the persistent store *)

Module PgFrame.

Import PgVectorStore.

(** What input and output never touch: everything but the failure
    schedule and the session. *)
Definition frame {N : Type} (s s1 : State N) : Prop :=
  table s1 = table s
  /\ initialized s1 = initialized s
  /\ pool_ended s1 = pool_ended s
  /\ extension_installed s1 = extension_installed s
  /\ schema_exists s1 = schema_exists s.

(** The rows a call scoped by [entityId_] is about. *)
Definition in_scope {N : Type} (entityId_ : option string) (r : Row N) : bool :=
  matches (entity_filter entityId_) r.

(** No failure is scheduled for the next [n] steps of input and output. *)
Definition quiet {N : Type} (n : nat) (s : State N) : bool :=
  forallb negb (firstn n (faults s)).

End PgFrame.

(** ** Vocabulary for the entity references *)

Module RefSpec.

(** The character [c] does not occur in [s]. *)
Fixpoint free_of (c : ascii) (s : string) : bool :=
  match s with
  | EmptyString => true
  | String c' s' => negb (Ascii.eqb c' c) && free_of c s'
  end.

(** A part of an entity reference: neither [:] nor [/] occurs in it. *)
Definition ref_part (s : string) : bool :=
  free_of ":" s && free_of "/" s.

End RefSpec.

(** ** Vocabulary for the indexing *)

Module IndexSpec.

Import Async SimpleRAGStrategy.

Local Open Scope async_scope.

(** [indexAll] with the entities taken one by one, in the order of the
    catalog. *)
Definition indexAll_one_by_one {N Entity S : Type}
    (deps : Dependencies N Entity S) : M S unit :=
  vs_clear deps ;;;
  entities <- await (fetchAllEntities deps) ;;
  forM_ (indexEntityInternal deps) entities ;;;
  _ <- vs_count deps ;;
  ret tt.

End IndexSpec.

(* ================================================================= *)
(** * Part II: properties *)
(* ================================================================= *)

(** ** Lists, slices and the monad *)

Section Lists.

Import DocumentProcessor.

Lemma firstn_min_length {A} (n : nat) (l : list A) :
  firstn (Nat.min n (List.length l)) l = firstn n l.
Proof.
  destruct (Nat.le_gt_cases n (List.length l)) as [H | H].
  - rewrite Nat.min_l by exact H. reflexivity.
  - rewrite Nat.min_r by lia. rewrite !firstn_all2 by lia. reflexivity.
Qed.

Lemma Forall_firstn {A} (P : A -> Prop) (n : nat) (l : list A) :
  Forall P l -> Forall P (firstn n l).
Proof.
  revert l; induction n as [| n IH]; intros l H; cbn; [constructor |].
  destruct H as [| x l Hx Hl]; constructor; [exact Hx | apply IH, Hl].
Qed.

Lemma Forall_skipn {A} (P : A -> Prop) (n : nat) (l : list A) :
  Forall P l -> Forall P (skipn n l).
Proof.
  revert l; induction n as [| n IH]; intros l H; cbn; [exact H |].
  destruct H as [| x l Hx Hl]; [constructor | apply IH, Hl].
Qed.




Lemma slice_window {A} (l : list A) (a W : Z) :
  (0 <= a)%Z -> (0 < W)%Z ->
  slice l a (a + W) = firstn (Z.to_nat W) (skipn (Z.to_nat a) l).
Proof.
  intros Ha HW. unfold slice, relative_index.
  destruct (Z.ltb_spec a 0) as [? | _]; [lia |].
  destruct (Z.ltb_spec (a + W) 0) as [? | _]; [lia |].
  set (len := Z.of_nat (List.length l)).
  destruct (Z.le_gt_cases a len) as [Hle | Hgt].
  - rewrite (Z.min_l a len) by exact Hle.
    rewrite <- (firstn_min_length (Z.to_nat W)).
    rewrite length_skipn. f_equal. subst len. lia.
  - rewrite (Z.min_r a len) by lia.
    rewrite (skipn_all2 (n := Z.to_nat len)) by (subst len; lia).
    rewrite (skipn_all2 (n := Z.to_nat a)) by (subst len; lia).
    rewrite !firstn_nil. reflexivity.
Qed.


Lemma lastn_0 {A} (l : list A) : lastn 0 l = [].
Proof. unfold lastn. rewrite Nat.sub_0_r. apply skipn_all. Qed.

Lemma bindM_eq {S A B : Type} (m : M S A) (k : A -> M S B) (s : S) :
  bindM m k s = match m s with
                | (Ok a, s') => k a s'
                | (Err e, s') => (Err e, s')
                end.
Proof. reflexivity. Qed.

End Lists.

(** ** RAGService: the indexing status *)

(** C10: whatever the state of the service (and so after any history of
    index runs) and whatever the vector store holds, [getIndexingStatus]
    reports a [vectorCount] of 0; the report agrees with the count of the
    store only when the store is empty. *)
Theorem getIndexingStatus_vectorCount_zero :
  forall (s : RAGService.State) (history : list RAGService.Action)
         (N : Type) (vectors : InMemoryVectorStore.Store (N := N)),
    RAGService.vectorCount (RAGService.getIndexingStatus s) = 0%Z
    /\ RAGService.vectorCount
         (RAGService.getIndexingStatus (RAGService.run history)) = 0%Z
    /\ (RAGService.vectorCount (RAGService.getIndexingStatus s)
        = InMemoryVectorStore.count vectors <-> vectors = []).
Proof.
  intros s history N vectors.
  split; [reflexivity |]. split; [reflexivity |].
  unfold InMemoryVectorStore.count. cbn [RAGService.getIndexingStatus
    RAGService.vectorCount].
  destruct vectors as [| v vectors]; cbn [List.length].
  - split; reflexivity.
  - split; [lia | discriminate].
Qed.

(** ** RAGService: the single-flight guard and the indexing lifecycle *)

Section SingleFlight.

Import RAGService.

Lemma guard_invariant_new : guard_invariant new.
Proof. right; split; reflexivity. Qed.

Lemma guard_invariant_enter (s : State) :
  guard_invariant s -> guard_invariant (indexAllDocuments_enter s).
Proof.
  intros [[Hflag [call Hs]] | [Hflag Hs]]; unfold indexAllDocuments_enter;
    rewrite Hflag; cbn.
  - left; split; [reflexivity | exists call; assumption].
  - left; split; [reflexivity | exists (next_call s); rewrite Hs; reflexivity].
Qed.

Lemma guard_invariant_resume (call : nat) (outcome : result unit) (now : Z)
    (s : State) :
  guard_invariant s ->
  guard_invariant (indexAllDocuments_resume call outcome now s).
Proof.
  intros Hinv. unfold indexAllDocuments_resume.
  destruct (existsb (Nat.eqb call) (suspended s)) eqn:Hmem; [| assumption].
  destruct Hinv as [[_ [c Hs]] | [_ Hs]]; rewrite Hs in Hmem; cbn in Hmem.
  - rewrite orb_false_r in Hmem.
    right; destruct outcome; cbn; rewrite Hs; cbn; rewrite Hmem; cbn;
      split; reflexivity.
  - discriminate.
Qed.

Lemma guard_invariant_step (s : State) (a : Action) :
  guard_invariant s -> guard_invariant (step s a).
Proof.
  destruct a; cbn.
  - apply guard_invariant_enter.
  - apply guard_invariant_resume.
Qed.

Lemma guard_invariant_fold (history : list Action) (s : State) :
  guard_invariant s -> guard_invariant (fold_left step history s).
Proof.
  revert s; induction history as [| a history IH]; intros s Hs; cbn.
  - assumption.
  - apply IH, guard_invariant_step, Hs.
Qed.

Lemma guard_invariant_run (history : list Action) :
  guard_invariant (run history).
Proof. apply guard_invariant_fold, guard_invariant_new. Qed.

Lemma never_two_runs (history : list Action) :
  ~ two_runs_active (run history).
Proof.
  unfold two_runs_active.
  destruct (guard_invariant_run history) as [[_ [c Hs]] | [_ Hs]];
    rewrite Hs; cbn; lia.
Qed.

(** C5: while a full index run is in progress, a further call of
    [indexAllDocuments] only logs the warning and resolves: it does not
    invoke the strategy (so no clear, fetch or store), it touches neither
    field, and it suspends nothing; and no history of calls and completions
    reaches a state with two runs active. *)
Theorem indexAllDocuments_single_flight :
  forall history : list Action,
    indexingInProgress (run history) = true ->
    let s := run history in
    let s' := indexAllDocuments_enter s in
    events s' = events s ++ [Warned (next_call s); Resolved (next_call s)]
    /\ suspended s' = suspended s
    /\ indexingInProgress s' = indexingInProgress s
    /\ lastIndexTime s' = lastIndexTime s
    /\ (forall any : list Action, ~ two_runs_active (run any)).
Proof.
  intros history Hflag s s'. subst s s'.
  unfold indexAllDocuments_enter. rewrite Hflag. cbn.
  repeat split; try reflexivity; intros; apply never_two_runs.
Qed.

(** One call is in flight when two more arrive. *)
Lemma indexAllDocuments_single_flight_witness :
  indexingInProgress (run [Call]) = true
  /\ events (run [Call; Call])
     = [StrategyIndexAll 0; Warned 1; Resolved 1]
  /\ ~ two_runs_active (run [Call; Call; Call]).
Proof.
  split; [reflexivity |].
  pose proof (indexAllDocuments_single_flight [Call] eq_refl) as H.
  cbv zeta in H.
  destruct H as (Hev & _ & _ & _ & Hany).
  split; [exact Hev | exact (Hany [Call; Call; Call])].
Defined.

(** C6, as stated, fails: a run that fails leaves [lastIndexTime] as it
    was.  Here the only run is rejected at time 42. *)
Lemma lifecycle_failure_keeps_lastIndexTime :
  let s := run [Call; Settle 0 (Err "Catalog fetch failed: timeout") 42] in
  ~ (indexingInProgress s = false /\ lastIndexTime s = Some 42%Z).
Proof.
  cbn. intros [_ H]. discriminate H.
Qed.

(** C6, amended: a call that passes the guard sets [indexingInProgress];
    the flag stays set while the run is awaited; when the run completes the
    flag is cleared, whatever the outcome, and [lastIndexTime] becomes the
    completion time if the run succeeded and keeps its value if it
    failed. *)
Theorem indexing_lifecycle :
  forall (history : list Action) (call : nat) (outcome : result unit)
         (now : Z),
    In call (suspended (run history)) ->
    let s := run history in
    let s' := indexAllDocuments_resume call outcome now s in
    (forall s0, indexingInProgress (indexAllDocuments_enter s0) = true)
    /\ indexingInProgress s = true
    /\ indexingInProgress s' = false
    /\ suspended s' = []
    /\ lastIndexTime s' = match outcome with
                          | Ok _ => Some now
                          | Err _ => lastIndexTime s
                          end.
Proof.
  intros history call outcome now Hin s s'. subst s s'.
  split.
  { intros s0. unfold indexAllDocuments_enter.
    destruct (indexingInProgress s0); reflexivity. }
  destruct (guard_invariant_run history) as [[Hflag [c Hs]] | [_ Hs]];
    rewrite Hs in Hin; cbn in Hin; [| contradiction].
  destruct Hin as [<- | []].
  split; [exact Hflag |].
  unfold indexAllDocuments_resume. rewrite Hs. cbn.
  rewrite Nat.eqb_refl. cbn.
  destruct outcome; cbn; repeat split; reflexivity.
Qed.

Lemma indexing_lifecycle_witness :
  In 0%nat (suspended (run [Call]))
  /\ lastIndexTime (indexAllDocuments_resume 0 (Ok tt) 42 (run [Call]))
     = Some 42%Z
  /\ lastIndexTime
       (indexAllDocuments_resume 0 (Err "Catalog fetch failed") 42 (run [Call]))
     = None.
Proof.
  assert (Hin : In 0%nat (suspended (run [Call]))) by (left; reflexivity).
  split; [exact Hin |].
  split.
  - exact (proj2 (proj2 (proj2 (proj2
      (indexing_lifecycle [Call] 0 (Ok tt) 42 Hin))))).
  - exact (proj2 (proj2 (proj2 (proj2
      (indexing_lifecycle [Call] 0 (Err "Catalog fetch failed") 42 Hin))))).
Defined.

End SingleFlight.

(** ** SimpleRAGStrategy: what becomes of an error in [indexEntity] *)

Section IndexEntity.

Variables N Entity S : Type.
Variable deps : SimpleRAGStrategy.Dependencies N Entity S.

Lemma indexEntityInternal_never_rejects (entity : Entity) (s : S) :
  fst (SimpleRAGStrategy.indexEntityInternal deps entity s) = Ok tt.
Proof.
  unfold SimpleRAGStrategy.indexEntityInternal, try_catch.
  destruct (SimpleRAGStrategy.index_chunks deps entity s) as [[[] | e] s'];
    reflexivity.
Qed.

(** C3 (the code at the failing inputs): once the entity has been fetched,
    [indexEntity] resolves whatever happens while chunking, embedding or
    storing; the [catch] clause of [indexEntityInternal] has consumed the
    error before the service could rethrow it. *)
Theorem indexEntity_swallows_errors :
  forall (entityRef : string) (entity : Entity) (s : S),
    SimpleRAGStrategy.fetchEntity deps entityRef = Ok entity ->
    fst (RAGService.indexEntity (SimpleRAGStrategy.indexEntity deps)
                                entityRef s) = Ok tt.
Proof.
  intros entityRef entity s Hfetch.
  unfold RAGService.indexEntity, SimpleRAGStrategy.indexEntity, try_catch,
    bindM, SimpleRAGStrategy.await.
  rewrite Hfetch.
  pose proof (indexEntityInternal_never_rejects entity s) as H.
  destruct (SimpleRAGStrategy.indexEntityInternal deps entity s) as [r s'].
  cbn in H. rewrite H. reflexivity.
Qed.

End IndexEntity.

(** A catalog with one entity, a chunker that yields one chunk, and an
    embedding provider that is down. *)
Lemma indexEntity_swallows_errors_witness :
  let chunk := {| id := "component:default/demo-catalog-0";
                  entityId := "component:default/demo";
                  entityName := "demo";
                  content := "Entity: demo";
                  metadata := {| source := catalog; chunkIndex := 0;
                                 totalChunks := 1 |} |} in
  let deps : SimpleRAGStrategy.Dependencies Z string (list (EmbeddingVector Z)) :=
    {| SimpleRAGStrategy.fetchAllEntities := Ok ["demo"];
       SimpleRAGStrategy.fetchEntity := fun _ => Ok "demo";
       SimpleRAGStrategy.extractEntityContent := fun _ => "Entity: demo";
       SimpleRAGStrategy.getEntityRef := fun _ => "component:default/demo";
       SimpleRAGStrategy.metadata_name := fun e => e;
       SimpleRAGStrategy.chunkDocument := fun _ _ _ _ => Ok [chunk];
       SimpleRAGStrategy.hasDocumentation := fun _ => Ok false;
       SimpleRAGStrategy.fetchDocumentation := fun _ => Ok None;
       SimpleRAGStrategy.generateEmbeddings :=
         fun _ => Err "Embedding generation failed: connect ECONNREFUSED";
       SimpleRAGStrategy.vs_storeBatch := fun es st => (Ok tt, st ++ es);
       SimpleRAGStrategy.vs_clear := fun _ => (Ok tt, []);
       SimpleRAGStrategy.vs_count :=
         fun st => (Ok (Z.of_nat (List.length st)), st) |} in
  fst (SimpleRAGStrategy.index_chunks deps "demo" [])
    = Err "Embedding generation failed: connect ECONNREFUSED"
  /\ RAGService.indexEntity (SimpleRAGStrategy.indexEntity deps)
       "component:default/demo" [] = (Ok tt, []).
Proof.
  intros chunk deps.
  split; [reflexivity |].
  pose proof (@indexEntity_swallows_errors Z string _ deps
                "component:default/demo" "demo" [] eq_refl) as H.
  destruct (RAGService.indexEntity (SimpleRAGStrategy.indexEntity deps)
              "component:default/demo" []) as [r st] eqn:E.
  cbn in H. rewrite H.
  vm_compute in E. inversion E. reflexivity.
Defined.

(** ** OllamaLLMService: which payloads [generateEmbeddings] rejects *)

Section GenerateEmbeddings.

Import OllamaLLMService.

(** C4, as stated, fails: an empty [embeddings] array, answered to one
    input text, is returned to the caller. *)
Lemma generateEmbeddings_accepts_empty_array :
  let response := {| ok := true; status := 200; text := Ok "{...}";
                     json := Ok (JObject [("model", JString "all-minilm");
                                          ("embeddings", JArray [])]) |} in
  exists items,
    generateEmbeddings ["Service X handles payments."] (Ok response)
      = Ok (JArray items)
    /\ List.length items <> List.length ["Service X handles payments."].
Proof.
  cbn. exists []. split; [reflexivity | discriminate].
Qed.

(** C4, amended: [generateEmbeddings] resolves exactly when the request
    succeeded with an ok status and a JSON object whose [embeddings] member
    is an array, and then returns that array as it is, whatever its length;
    in every other case (failed request, non-ok status, unreadable body,
    [embeddings] absent or not an array) it fails with an error that starts
    with "Embedding generation failed: ". *)
Theorem generateEmbeddings_failures :
  forall (inputs : list string) (fetched : result Response),
    (exists response fields items,
        fetched = Ok response /\ ok response = true
        /\ json response = Ok (JObject fields)
        /\ lookup "embeddings" fields = Some (JArray items)
        /\ generateEmbeddings inputs fetched = Ok (JArray items))
    \/ (exists message,
          generateEmbeddings inputs fetched
            = Err ("Embedding generation failed: " ++ message)
          /\ (forall response fields items,
                fetched = Ok response -> ok response = true ->
                json response = Ok (JObject fields) ->
                lookup "embeddings" fields <> Some (JArray items))).
Proof.
  intros inputs fetched.
  unfold generateEmbeddings, request_embeddings.
  destruct fetched as [response | e]; cbn.
  2:{ right. exists e. split; [reflexivity |]. intros; discriminate. }
  destruct (ok response) eqn:Hok; cbn.
  2:{ right. destruct (text response) as [t | e]; cbn; eexists;
        (split; [reflexivity |]); intros ? ? ? Heq Hok'; inversion Heq;
        subst; congruence. }
  destruct (json response) as [j | e] eqn:Hjson; cbn.
  2:{ right. exists e. split; [reflexivity |].
      intros ? ? ? Heq _ Hj; inversion Heq; subst; congruence. }
  destruct j as [| b | x | str | items | fields]; cbn;
    try (right; eexists; split; [reflexivity |];
         intros ? ? ? Heq _ Hj; inversion Heq; subst; congruence).
  destruct (lookup "embeddings" fields) as [embeddings |] eqn:Hlookup; cbn.
  2:{ right; eexists; split; [reflexivity |].
      intros ? ? ? Heq _ Hj; inversion Heq; subst.
      rewrite Hjson in Hj; inversion Hj; subst; congruence. }
  destruct (negb (truthy embeddings) || negb (isArray embeddings)) eqn:Hguard.
  - right; eexists; split; [reflexivity |].
    intros ? ? ? Heq _ Hj; inversion Heq; subst.
    rewrite Hjson in Hj; inversion Hj; subst.
    intros Hl. rewrite Hlookup in Hl. inversion Hl; subst.
    cbn in Hguard. discriminate.
  - apply orb_false_elim in Hguard as [_ Harr].
    destruct embeddings as [| b | x | str | items | fs]; cbn in Harr;
      try discriminate.
    left. exists response, fields, items.
    repeat split; assumption || reflexivity.
Qed.

End GenerateEmbeddings.

(** ** DocumentProcessor: words, windows and the chunking loop *)

Section Chunking.

Import DocumentProcessor Words.

Local Open Scope Z_scope.

(** *** What [trim] leaves *)

Lemma trim_start_starts_ok s :
  trim_start s = EmptyString \/ starts_ok (trim_start s) = true.
Proof.
  induction s as [| c s IH]; cbn; [left; reflexivity |].
  destruct (is_space c) eqn:E; [exact IH |].
  right; cbn. rewrite E. reflexivity.
Qed.

Lemma trim_end_head c s :
  is_space c = false -> exists t, trim_end (String c s) = String c t.
Proof.
  intros E. cbn. destruct (trim_end s); [rewrite E |]; eexists; reflexivity.
Qed.

Lemma trim_end_ends_ok s :
  trim_end s = EmptyString \/ ends_ok (trim_end s) = true.
Proof.
  induction s as [| c s IH]; cbn; [left; reflexivity |].
  destruct (trim_end s) as [| c' t] eqn:Et.
  - destruct (is_space c) eqn:E; [left; reflexivity |].
    right; cbn; rewrite E; reflexivity.
  - right. destruct IH as [IH | IH]; [discriminate |]. exact IH.
Qed.

(** A trimmed string is empty, or begins and ends with a character that is
    not white. *)
Lemma trim_shape s :
  trim s = EmptyString
  \/ (starts_ok (trim s) = true /\ ends_ok (trim s) = true).
Proof.
  unfold trim.
  destruct (trim_start_starts_ok s) as [E | E].
  - rewrite E. left; reflexivity.
  - destruct (trim_start s) as [| c t]; [discriminate |]. cbn in E.
    apply negb_true_iff in E.
    destruct (@trim_end_head c t E) as [t' Ht'].
    right. split.
    + rewrite Ht'. cbn. rewrite E. reflexivity.
    + destruct (trim_end_ends_ok (String c t)) as [H | H]; [| exact H].
      rewrite Ht' in H. discriminate.
Qed.

(** *** The pieces of [split] *)

Lemma split_ws_go_nonnil b s : split_ws_go b s <> [].
Proof.
  revert b; induction s as [| c s IH]; intros b; cbn; [discriminate |].
  destruct (is_space c).
  - destruct b; [apply IH | discriminate].
  - destruct (split_ws_go false s); discriminate.
Qed.

Lemma split_ws_go_space_free b s :
  Forall (fun w => space_free w = true) (split_ws_go b s).
Proof.
  revert b; induction s as [| c s IH]; intros b; cbn.
  - constructor; [reflexivity | constructor].
  - destruct (is_space c) eqn:E.
    + destruct b; [apply IH |]. constructor; [reflexivity | apply IH].
    + specialize (IH false).
      destruct (split_ws_go false s) as [| p rest].
      * constructor; [cbn; rewrite E; reflexivity | constructor].
      * inversion IH; subst.
        constructor; [cbn; rewrite E; assumption | assumption].
Qed.

(** Only a leading or a trailing run of white space leaves an empty
    piece. *)
Lemma split_ws_go_nonempty s :
  (ends_ok s = true ->
   Forall (fun w => nonempty w = true) (split_ws_go true s))
  /\ (s = EmptyString \/ ends_ok s = true ->
      Forall (fun w => nonempty w = true) (tl (split_ws_go false s))).
Proof.
  induction s as [| c s [IHa IHb]].
  - split; [discriminate | intros _; constructor].
  - assert (Htail : ends_ok (String c s) = true ->
                    s = EmptyString \/ ends_ok s = true).
    { destruct s; [left; reflexivity | right; assumption]. }
    cbn [split_ws_go]. destruct (is_space c) eqn:E.
    + assert (Hs : ends_ok (String c s) = true -> ends_ok s = true).
      { intros H. destruct s; [| exact H].
        cbn in H; rewrite E in H; discriminate. }
      split.
      * intros H. apply IHa, Hs, H.
      * intros [H | H]; [discriminate |]. cbn. apply IHa, Hs, H.
    + assert (Hrest : ends_ok (String c s) = true ->
                Forall (fun w => nonempty w = true)
                  match split_ws_go false s with
                  | [] => [String c EmptyString]
                  | piece :: rest => String c piece :: rest
                  end).
      { intros H. specialize (IHb (Htail H)).
        destruct (split_ws_go false s) as [| p rest];
          constructor; try reflexivity; [constructor | exact IHb]. }
      split.
      * exact Hrest.
      * intros [H | H]; [discriminate |].
        specialize (Hrest H).
        destruct (split_ws_go false s); inversion Hrest; assumption.
Qed.

(** A string without white space at either end splits into words. *)
Lemma split_ws_word_ok s :
  starts_ok s = true -> ends_ok s = true ->
  Forall (fun w => word_ok w = true) (split_ws s).
Proof.
  intros Hs He. unfold split_ws.
  pose proof (split_ws_go_space_free false s) as Hsf.
  destruct (split_ws_go_nonempty s) as [_ Hb].
  specialize (Hb (or_intror He)).
  destruct s as [| c s]; [discriminate |].
  cbn in Hs. apply negb_true_iff in Hs.
  cbn [split_ws_go] in *. rewrite Hs in *.
  destruct (split_ws_go false s) as [| p rest].
  - constructor; [| constructor].
    inversion Hsf; subst. unfold word_ok. cbn. assumption.
  - cbn in Hb. inversion Hsf as [| ? ? Hp Hrest]; subst. constructor.
    + unfold word_ok. cbn [nonempty]. assumption.
    + rewrite Forall_forall in *. intros w Hw. unfold word_ok.
      rewrite (Hb w Hw), (Hrest w Hw). reflexivity.
Qed.

(** *** [split] undoes [join] on words *)

Lemma split_ws_go_word_head b c s :
  is_space c = false ->
  split_ws_go b (String c s) = split_ws_go false (String c s).
Proof. intros E. cbn. rewrite E. reflexivity. Qed.

Lemma split_ws_go_app w s :
  space_free w = true ->
  split_ws_go false (w ++ s)%string
  = match split_ws_go false s with
    | p :: rest => (w ++ p)%string :: rest
    | [] => [w]
    end.
Proof.
  induction w as [| c w IH]; intros Hw; cbn.
  - destruct (split_ws_go false s) eqn:E; [| reflexivity].
    exfalso. exact (split_ws_go_nonnil _ _ E).
  - cbn in Hw. apply andb_true_iff in Hw as [Hc Hw].
    apply negb_true_iff in Hc. rewrite Hc.
    rewrite (IH Hw).
    destruct (split_ws_go false s) as [| p rest] eqn:E; [| reflexivity].
    exfalso. exact (split_ws_go_nonnil _ _ E).
Qed.

Lemma append_empty_r s : (s ++ EmptyString)%string = s.
Proof.
  induction s as [| c s IH]; cbn; [reflexivity | rewrite IH; reflexivity].
Qed.

Lemma join_starts_ok w ws :
  word_ok w = true -> starts_ok (join " " (w :: ws)) = true.
Proof.
  unfold word_ok. intros H. apply andb_true_iff in H as [Hn Hs].
  destruct w as [| c w]; [discriminate |].
  cbn in Hs. apply andb_true_iff in Hs as [Hc _].
  destruct ws; cbn; exact Hc.
Qed.

Lemma split_ws_join ws :
  ws <> [] -> Forall (fun w => word_ok w = true) ws ->
  split_ws (join " " ws) = ws.
Proof.
  unfold split_ws.
  induction ws as [| w ws IH]; intros Hne Hok; [congruence |].
  inversion Hok as [| ? ? Hw Hws]; subst.
  assert (Hsf : space_free w = true).
  { unfold word_ok in Hw. apply andb_true_iff in Hw as [_ H]; exact H. }
  destruct ws as [| w2 ws'].
  - cbn [join]. rewrite <- (append_empty_r w) at 1.
    rewrite (split_ws_go_app w EmptyString Hsf). cbn.
    rewrite append_empty_r. reflexivity.
  - change (join " " (w :: w2 :: ws'))
      with (w ++ String " " (join " " (w2 :: ws')))%string.
    rewrite (split_ws_go_app w _ Hsf).
    cbn [split_ws_go]. change (is_space " ") with true. cbv iota.
    rewrite append_empty_r.
    inversion Hws as [| ? ? Hw2 _]; subst.
    pose proof (join_starts_ok w2 ws' Hw2) as Hst.
    destruct (join " " (w2 :: ws')) as [| c t] eqn:Ej; [discriminate |].
    cbn in Hst. apply negb_true_iff in Hst.
    rewrite (split_ws_go_word_head true c t Hst).
    rewrite IH; [reflexivity | discriminate | exact Hws].
Qed.

Lemma trim_nonempty_of_starts_ok s :
  starts_ok s = true -> (0 <? String.length (trim s))%nat = true.
Proof.
  intros H. destruct s as [| c s]; [discriminate |]. cbn in H.
  apply negb_true_iff in H. unfold trim. cbn [trim_start]. rewrite H.
  destruct (@trim_end_head c s H) as [t Ht]. rewrite Ht. reflexivity.
Qed.

(** *** The loop *)

Section Loop.

Variable words : list string.
Variables W O : Z.
Variables e n : string.
Variable src : Source.

Hypothesis words_ok : Forall (fun w => word_ok w = true) words.

(** A window that starts inside the text is pushed, and its chunk holds
    the words of the window. *)
Lemma window_pushed (a idx : Z) :
  0 <= a < Z.of_nat (List.length words) -> 0 < W ->
  (0 <? String.length (trim (join " " (slice words a (a + W)))))%nat = true
  /\ chunk_words (mkChunk e n src idx (join " " (slice words a (a + W))))
     = slice words a (a + W).
Proof.
  intros Ha HW.
  assert (Hok : Forall (fun w => word_ok w = true) (slice words a (a + W))).
  { rewrite slice_window by lia.
    apply Forall_firstn, Forall_skipn, words_ok. }
  assert (Hne : slice words a (a + W) <> []).
  { rewrite slice_window by lia. intros E.
    apply (f_equal (@List.length string)) in E.
    rewrite length_firstn, length_skipn in E. cbn in E. lia. }
  destruct (slice words a (a + W)) as [| w ws] eqn:Es; [congruence |].
  split.
  - apply trim_nonempty_of_starts_ok. inversion Hok; subst.
    apply join_starts_ok; assumption.
  - unfold chunk_words. cbn [content mkChunk].
    apply split_ws_join; assumption.
Qed.

(** With a positive stride the loop appends consecutive windows. *)
Lemma chunk_loop_windows (fuel : nat) :
  forall ci idx acc out,
    0 <= ci -> 0 < W -> 0 < W - O ->
    chunk_loop fuel words W O e n src ci idx acc = Some out ->
    exists rest, out = acc ++ rest /\ windows_from words W (W - O) ci rest.
Proof.
  induction fuel as [| fuel IH]; intros ci idx acc out Hci HW HS Hrun;
    cbn [chunk_loop] in Hrun; [discriminate |].
  destruct (Z.ltb_spec ci (Z.of_nat (List.length words))) as [Hlt | Hge].
  - destruct (@window_pushed ci idx (conj Hci Hlt) HW) as [Hpush Hwords].
    rewrite Hpush in Hrun.
    apply IH in Hrun; [| lia | assumption | assumption].
    destruct Hrun as [rest [-> Hrest]].
    eexists. rewrite <- app_assoc. split; [reflexivity |].
    cbn. repeat split; try assumption; lia.
  - inversion Hrun; subst. exists []. rewrite app_nil_r.
    split; [reflexivity | exact I].
Qed.

(** With a positive stride, one unit of fuel more than there are words
    left is enough. *)
Lemma chunk_loop_terminates (fuel : nat) :
  forall ci idx acc,
    0 < W - O ->
    Z.max 0 (Z.of_nat (List.length words) - ci) < Z.of_nat fuel ->
    chunk_loop fuel words W O e n src ci idx acc <> None.
Proof.
  induction fuel as [| fuel IH]; intros ci idx acc HS Hfuel;
    cbn [chunk_loop]; [lia |].
  destruct (Z.ltb_spec ci (Z.of_nat (List.length words))) as [Hlt | Hge];
    [| discriminate].
  apply IH; [assumption | lia].
Qed.

(** Without a positive stride the index never reaches the end. *)
Lemma chunk_loop_diverges (fuel : nat) :
  forall ci idx acc,
    W - O <= 0 ->
    ci < Z.of_nat (List.length words) ->
    chunk_loop fuel words W O e n src ci idx acc = None.
Proof.
  induction fuel as [| fuel IH]; intros ci idx acc HS Hlt;
    cbn [chunk_loop]; [reflexivity |].
  destruct (Z.ltb_spec ci (Z.of_nat (List.length words))) as [_ | Hge];
    [| lia].
  apply IH; [assumption | lia].
Qed.

End Loop.

Lemma windows_from_nth (words : list string) (W stride : Z)
    (l : list DocumentChunk) :
  forall (a : Z) (i : nat) (c : DocumentChunk),
    windows_from words W stride a l ->
    nth_error l i = Some c ->
    0 <= a + Z.of_nat i * stride < Z.of_nat (List.length words)
    /\ chunk_words c
       = slice words (a + Z.of_nat i * stride) (a + Z.of_nat i * stride + W).
Proof.
  induction l as [| c0 l IH]; intros a i c Hw Hnth.
  - destruct i; discriminate.
  - destruct Hw as (Ha & Hc0 & Hl). destruct i as [| i]; cbn in Hnth.
    + inversion Hnth; subst. rewrite Z.mul_0_l, Z.add_0_r. split; assumption.
    + destruct (IH _ _ _ Hl Hnth) as [Hr Hc].
      replace (a + Z.of_nat (S i) * stride)
        with (a + stride + Z.of_nat i * stride) by lia.
      split; assumption.
Qed.

Lemma windows_from_map (words : list string) (W stride : Z) (k : Z)
    (l : list DocumentChunk) :
  forall a, windows_from words W stride a l ->
            windows_from words W stride a (map (set_totalChunks k) l).
Proof.
  induction l as [| c l IH]; intros a Hw; cbn; [exact I |].
  destruct Hw as (Ha & Hc & Hl). repeat split; try apply Ha.
  - exact Hc.
  - apply IH, Hl.
Qed.

(** *** The overlap of two consecutive windows *)

Lemma window_overlap (words : list string) (W O a : Z) :
  0 <= a -> 0 < O -> O < W ->
  (Z.to_nat O
   <= List.length (slice words (a + (W - O)) (a + (W - O) + W)))%nat ->
  lastn (Z.to_nat O) (slice words a (a + W))
  = firstn (Z.to_nat O) (slice words (a + (W - O)) (a + (W - O) + W)).
Proof.
  intros Ha HO HW Hlen.
  rewrite !slice_window in * by lia.
  replace (Z.to_nat (a + (W - O)))
    with (Z.to_nat (W - O) + Z.to_nat a)%nat in * by lia.
  rewrite <- skipn_skipn in *.
  set (l := skipn (Z.to_nat a) words) in *.
  rewrite length_firstn, length_skipn in Hlen.
  unfold lastn. rewrite length_firstn.
  replace (Nat.min (Z.to_nat W) (List.length l) - Z.to_nat O)%nat
    with (Z.to_nat (W - O)) by lia.
  rewrite skipn_firstn_comm, firstn_firstn.
  f_equal. lia.
Qed.

(** The text [chunkDocument] splits consists of words. *)
Lemma clean_words_ok (markup : string -> string) (content_ : string) :
  (String.length (extractText markup content_) =? 0)%nat
  || (String.length (trim (extractText markup content_)) =? 0)%nat = false ->
  Forall (fun w => word_ok w = true) (split_ws (extractText markup content_)).
Proof.
  intros Hne. apply orb_false_elim in Hne as [Hne _].
  unfold extractText in *.
  destruct (trim_shape (collapse_ws (markup content_))) as [E | [Hs He]].
  - rewrite E in Hne. discriminate.
  - apply split_ws_word_ok; assumption.
Qed.

(** C7, amended: when the overlap is smaller than the window, the chunking
    of a text terminates, and for every two consecutive chunks of which the
    second holds at least [chunkOverlap] words, the last [chunkOverlap]
    words of the first are the first [chunkOverlap] words of the second. *)
Theorem chunk_overlap_invariant :
  forall (markup : string -> string) (config : AskAiConfig)
         (content_ entityId_ entityName_ : string) (source_ : Source),
    chunkOverlap config < chunkSize config ->
    (exists fuel,
        chunkDocument fuel markup config content_ entityId_ entityName_ source_
        <> None)
    /\ (forall fuel chunks i c1 c2,
          chunkDocument fuel markup config content_ entityId_ entityName_
                        source_ = Some chunks ->
          nth_error chunks i = Some c1 ->
          nth_error chunks (S i) = Some c2 ->
          (Z.to_nat (chunkOverlap config) <= List.length (chunk_words c2))%nat ->
          lastn (Z.to_nat (chunkOverlap config)) (chunk_words c1)
          = firstn (Z.to_nat (chunkOverlap config)) (chunk_words c2)).
Proof.
  intros markup config content_ entityId_ entityName_ source_ Hstride.
  unfold chunkDocument.
  destruct ((String.length (extractText markup content_) =? 0)%nat
            || (String.length (trim (extractText markup content_)) =? 0)%nat)
    eqn:Hblank.
  - split; [exists 0%nat; discriminate |].
    intros fuel chunks i c1 c2 Hrun Hc1. inversion Hrun; subst.
    destruct i; discriminate.
  - pose proof (clean_words_ok markup content_ Hblank) as Hok.
    set (words := split_ws (extractText markup content_)) in *.
    split.
    + exists (S (List.length words)).
      pose proof (@chunk_loop_terminates words (chunkSize config)
                    (chunkOverlap config) entityId_ entityName_ source_
                    (S (List.length words)) 0 0 []) as Hterm.
      destruct (chunk_loop (S (List.length words)) words (chunkSize config)
                  (chunkOverlap config) entityId_ entityName_ source_ 0 0 []);
        [discriminate |].
      exfalso. apply Hterm; [lia | lia | reflexivity].
    + intros fuel chunks i c1 c2 Hrun Hc1 Hc2 Hlen.
      destruct (Z.le_gt_cases (chunkOverlap config) 0) as [Hneg | Hpos].
      { replace (Z.to_nat (chunkOverlap config)) with 0%nat by lia.
        rewrite lastn_0. reflexivity. }
      destruct (chunk_loop fuel words (chunkSize config) (chunkOverlap config)
                  entityId_ entityName_ source_ 0 0 []) as [out |] eqn:Hloop;
        [| discriminate].
      inversion Hrun; subst chunks.
      apply (@chunk_loop_windows words (chunkSize config) (chunkOverlap config)
               entityId_ entityName_ source_ Hok) in Hloop; [| lia | lia | lia].
      destruct Hloop as [rest [Hout Hwin]]. cbn in Hout. subst rest.
      apply (@windows_from_map _ _ _ (Z.of_nat (List.length out))) in Hwin.
      destruct (@windows_from_nth _ _ _ _ _ _ _ Hwin Hc1) as [Hr1 Hw1].
      destruct (@windows_from_nth _ _ _ _ _ _ _ Hwin Hc2) as [Hr2 Hw2].
      rewrite Hw1, Hw2 in *.
      replace (0 + Z.of_nat (S i) * (chunkSize config - chunkOverlap config))
        with (0 + Z.of_nat i * (chunkSize config - chunkOverlap config)
              + (chunkSize config - chunkOverlap config)) in * by lia.
      apply window_overlap; [lia | lia | lia | exact Hlen].
Qed.

Lemma chunk_overlap_invariant_witness :
  chunkOverlap (config_with 4 2) < chunkSize (config_with 4 2)
  /\ option_map (map chunk_words)
       (chunkDocument 10 (fun s => s) (config_with 4 2) "a b c d e"
                      "component:default/x" "x" catalog)
     = Some [["a"; "b"; "c"; "d"]; ["c"; "d"; "e"]; ["e"]]
  /\ lastn 2 ["a"; "b"; "c"; "d"] = firstn 2 ["c"; "d"; "e"].
Proof.
  assert (H : chunkOverlap (config_with 4 2) < chunkSize (config_with 4 2))
    by (cbn; lia).
  split; [exact H |]. split; [vm_compute; reflexivity |].
  destruct (chunkDocument 10 (fun s => s) (config_with 4 2) "a b c d e"
              "component:default/x" "x" catalog) as [chunks |] eqn:E;
    [| vm_compute in E; discriminate].
  pose proof (proj2 (chunk_overlap_invariant (fun s => s) (config_with 4 2)
                "a b c d e" "component:default/x" "x" catalog H)
                10%nat chunks 0%nat) as Hth.
  rewrite E in Hth. vm_compute in E. inversion E; subst chunks.
  exact (Hth _ _ eq_refl eq_refl eq_refl ltac:(vm_compute; lia)).
Defined.

(** C7, as stated, fails on a short last chunk: five words, a window of
    four and an overlap of two give the chunks "a b c d", "c d e" and "e";
    the last two words of the second are "d e", and the third has one
    word. *)
Lemma chunk_overlap_fails_on_short_tail :
  exists chunks c1 c2,
    chunkDocument 10 (fun s => s) (config_with 4 2) "a b c d e"
                  "component:default/x" "x" catalog = Some chunks
    /\ nth_error chunks 1 = Some c1
    /\ nth_error chunks 2 = Some c2
    /\ chunk_words c1 = ["c"; "d"; "e"]
    /\ chunk_words c2 = ["e"]
    /\ lastn (Z.to_nat (chunkOverlap (config_with 4 2))) (chunk_words c1)
       <> firstn (Z.to_nat (chunkOverlap (config_with 4 2))) (chunk_words c2).
Proof.
  eexists. eexists. eexists.
  split; [vm_compute; reflexivity |].
  split; [reflexivity |]. split; [reflexivity |].
  split; [reflexivity |]. split; [reflexivity |].
  vm_compute. discriminate.
Qed.

(** C8 (the code at the failing inputs): a configuration that [loadConfig]
    accepts may have a stride [chunkSize - chunkOverlap] that is not
    positive, and [chunkDocument] then never leaves its loop on a text that
    is not blank: no amount of fuel yields a result. *)
Theorem nonpositive_stride_never_terminates :
  forall (raw : ConfigService.Config) (config : AskAiConfig)
         (markup : string -> string)
         (content_ entityId_ entityName_ : string) (source_ : Source)
         (fuel : nat),
    ConfigService.loadConfig raw = Ok config ->
    chunkSize config - chunkOverlap config <= 0 ->
    (0 < String.length (trim (extractText markup content_)))%nat ->
    chunkDocument fuel markup config content_ entityId_ entityName_ source_
    = None.
Proof.
  intros raw config markup content_ entityId_ entityName_ source_ fuel
    _ Hstride Htext.
  unfold chunkDocument.
  assert (Hclean : (String.length (extractText markup content_) =? 0)%nat = false).
  { destruct (extractText markup content_); [cbn in Htext; lia | reflexivity]. }
  rewrite Hclean.
  destruct (Nat.eqb_spec (String.length (trim (extractText markup content_))) 0)
    as [E | _]; [lia |].
  cbn [orb].
  rewrite chunk_loop_diverges; [reflexivity | exact Hstride |].
  unfold split_ws.
  pose proof (split_ws_go_nonnil false (extractText markup content_)) as Hne.
  destruct (split_ws_go false (extractText markup content_));
    [congruence | cbn; lia].
Qed.

(** Setting [askAi.chunkSize] to 50 and leaving the overlap at its default
    of 50 is accepted. *)
Lemma nonpositive_stride_never_terminates_witness :
  ConfigService.loadConfig config_chunkSize_50 = Ok (config_with 50 50)
  /\ forall fuel,
       chunkDocument fuel (fun s => s) (config_with 50 50)
         "Service X handles payments." "component:default/x" "x" catalog
       = None.
Proof.
  assert (Hload : ConfigService.loadConfig config_chunkSize_50
                  = Ok (config_with 50 50)) by reflexivity.
  split; [exact Hload |].
  intros fuel.
  apply (nonpositive_stride_never_terminates config_chunkSize_50
           (fun s => s) "Service X handles payments." "component:default/x" "x"
           catalog fuel Hload).
  - cbn. lia.
  - vm_compute. lia.
Defined.

End Chunking.

(** ** PgVectorStore: transactions and the closed pool *)

Section PgStore.

Import PgVectorStore PgSpec.

Variable N : Type.

Implicit Types s : State N.

Lemma ensureInitialized_eq s :
  ensureInitialized s
  = if initialized s then (Ok tt, s)
    else (Err "PgVectorStore not initialized. Call initialize() first.", s).
Proof.
  unfold ensureInitialized, bindM, get. destruct (initialized s); reflexivity.
Qed.

Lemma pool_connect_eq s :
  pool_connect s
  = if pool_ended s
    then (Err "Cannot use a pool after calling end on the pool", s)
    else io s.
Proof.
  unfold pool_connect, bindM, get. destruct (pool_ended s); reflexivity.
Qed.

Lemma io_cases s :
  (exists s1, io s = (Ok tt, s1)
              /\ table s1 = table s /\ session s1 = session s
              /\ initialized s1 = initialized s
              /\ pool_ended s1 = pool_ended s)
  \/ (exists e s1, io s = (Err e, s1)
                   /\ table s1 = table s /\ session s1 = Idle
                   /\ initialized s1 = initialized s
                   /\ pool_ended s1 = pool_ended s).
Proof.
  unfold io. destruct (faults s) as [| [|] f].
  - left. exists s. repeat split; reflexivity.
  - right. eexists. eexists. repeat split; reflexivity.
  - left. eexists. repeat split; reflexivity.
Qed.

Ltac step_io s :=
  let s1 := fresh "s" in
  let e := fresh "e" in
  let Hio := fresh "Hio" in
  let Ht := fresh "Ht" in
  let Hs := fresh "Hs" in
  let Hi := fresh "Hi" in
  let Hp := fresh "Hp" in
  destruct (io_cases s) as [(s1 & Hio & Ht & Hs & Hi & Hp)
                           | (e & s1 & Hio & Ht & Hs & Hi & Hp)];
  rewrite Hio; cbn.

Lemma insert_embedding_in_transaction (e : EmbeddingVector N) s w :
  session s = InTransaction w ->
  match insert_embedding e s with
  | (Ok _, s1) =>
      table s1 = table s
      /\ exists r w1, row_of e = Ok r /\ upsert r w = Ok w1
                      /\ session s1 = InTransaction w1
  | (Err _, s1) => table s1 = table s
  end.
Proof.
  intros Hw. unfold insert_embedding.
  destruct (row_of e) as [r | msg]; [| reflexivity].
  unfold query_INSERT, bindM. step_io s; [| assumption].
  unfold get. cbn. rewrite Hs, Hw.
  destruct (upsert r w) as [w1 | msg] eqn:Hu; cbn.
  - split; [assumption |]. exists r, w1.
    repeat split; assumption || reflexivity.
  - assumption.
Qed.

Lemma forM_insert_in_transaction (embeddings : list (EmbeddingVector N)) :
  forall s w,
    session s = InTransaction w ->
    match forM_ (@insert_embedding N) embeddings s with
    | (Ok _, s1) =>
        table s1 = table s
        /\ exists rows w1, mapM (@row_of N) embeddings = Ok rows
                           /\ apply_batch rows w = Ok w1
                           /\ session s1 = InTransaction w1
    | (Err _, s1) => table s1 = table s
    end.
Proof.
  induction embeddings as [| e embeddings IH]; intros s w Hw; cbn.
  - split; [reflexivity |]. exists [], w. repeat split; assumption || reflexivity.
  - unfold bindM.
    pose proof (insert_embedding_in_transaction e s Hw) as He.
    destruct (insert_embedding e s) as [[[] | msg] s1]; [| assumption].
    destruct He as (Ht & r & w1 & Hr & Hu & Hs1).
    specialize (IH s1 w1 Hs1).
    destruct (forM_ (@insert_embedding N) embeddings s1) as [[[] | msg] s2].
    + destruct IH as (Ht2 & rows & w2 & Hrows & Happly & Hs2).
      split; [congruence |].
      exists (r :: rows), w2. rewrite Hr, Hrows. cbn. rewrite Hu. cbn.
      repeat split; assumption.
    + congruence.
Qed.

Lemma query_BEGIN_idle s :
  session s = Idle ->
  match query_BEGIN s with
  | (Ok _, s1) => session s1 = InTransaction (table s) /\ table s1 = table s
  | (Err _, s1) => session s1 = Idle /\ table s1 = table s
  end.
Proof.
  intros Hidle. unfold query_BEGIN, bindM. step_io s; [| split; assumption].
  unfold get. cbn. rewrite Hs, Hidle. cbn. split; congruence.
Qed.

Lemma query_COMMIT_in_transaction s w :
  session s = InTransaction w ->
  match query_COMMIT s with
  | (Ok _, s1) => session s1 = Idle /\ table s1 = w
  | (Err _, s1) => session s1 = Idle /\ table s1 = table s
  end.
Proof.
  intros Hw. unfold query_COMMIT, bindM. step_io s; [| split; assumption].
  unfold get. cbn. rewrite Hs, Hw. cbn. split; reflexivity.
Qed.

Lemma query_ROLLBACK_spec s :
  session (snd (query_ROLLBACK s)) = Idle
  /\ table (snd (query_ROLLBACK s)) = table s.
Proof.
  unfold query_ROLLBACK, bindM. step_io s; split; assumption || reflexivity.
Qed.

Lemma rollback_and_rethrow (error : string) s :
  match bindM (@query_ROLLBACK N) (fun _ => @throw _ unit error) s with
  | (Ok _, s1) => False
  | (Err _, s1) => session s1 = Idle /\ table s1 = table s
  end.
Proof.
  unfold bindM. pose proof (query_ROLLBACK_spec s) as H.
  destruct (query_ROLLBACK s) as [[[] | e] s1]; cbn in *; exact H.
Qed.

Lemma transaction_atomic (embeddings : list (EmbeddingVector N)) s :
  session s = Idle ->
  match storeBatch_transaction embeddings s with
  | (Ok _, s1) =>
      session s1 = Idle
      /\ exists rows, mapM (@row_of N) embeddings = Ok rows
                      /\ apply_batch rows (table s) = Ok (table s1)
  | (Err _, s1) => session s1 = Idle /\ table s1 = table s
  end.
Proof.
  intros Hidle. unfold storeBatch_transaction, try_catch. unfold bindM at 1.
  pose proof (query_BEGIN_idle s Hidle) as Hb.
  destruct (query_BEGIN s) as [[[] | e] s1].
  2:{ pose proof (rollback_and_rethrow e s1) as Hr.
      destruct (bindM (@query_ROLLBACK N) (fun _ => @throw _ unit e) s1)
        as [[[] | e'] s2]; [contradiction |].
      destruct Hr as [Hr1 Hr2], Hb as [_ Hb2]. split; congruence. }
  destruct Hb as [Hs1 Ht1]. unfold bindM at 1.
  pose proof (forM_insert_in_transaction embeddings s1 Hs1) as Hloop.
  destruct (forM_ (@insert_embedding N) embeddings s1) as [[[] | e] s2].
  2:{ pose proof (rollback_and_rethrow e s2) as Hr.
      destruct (bindM (@query_ROLLBACK N) (fun _ => @throw _ unit e) s2)
        as [[[] | e'] s3]; [contradiction |].
      destruct Hr as [Hr1 Hr2]. split; congruence. }
  destruct Hloop as (Ht2 & rows & w1 & Hrows & Happly & Hs2).
  pose proof (query_COMMIT_in_transaction s2 Hs2) as Hc.
  destruct (query_COMMIT s2) as [[[] | e] s3].
  - destruct Hc as [Hc1 Hc2]. split; [assumption |].
    exists rows. split; [assumption |]. rewrite Hc2. exact Happly.
  - pose proof (rollback_and_rethrow e s3) as Hr.
    destruct (bindM (@query_ROLLBACK N) (fun _ => @throw _ unit e) s3)
      as [[[] | e'] s4]; [contradiction |].
    destruct Hr as [Hr1 Hr2], Hc as [_ Hc2]. split; congruence.
Qed.

Lemma storeBatch_cases (embeddings : list (EmbeddingVector N)) s :
  session s = Idle ->
  match storeBatch embeddings s with
  | (Ok _, s1) =>
      session s1 = Idle
      /\ exists rows, mapM (@row_of N) embeddings = Ok rows
                      /\ apply_batch rows (table s) = Ok (table s1)
  | (Err _, s1) => session s1 = Idle /\ table s1 = table s
  end.
Proof.
  intros Hidle.
  unfold storeBatch. rewrite bindM_eq, ensureInitialized_eq.
  destruct (initialized s) eqn:Hinit; [| split; [assumption | reflexivity]].
  destruct embeddings as [| e0 embeddings0] eqn:Hemb.
  { cbn. split; [assumption |]. exists []. split; reflexivity. }
  rewrite <- Hemb. clear Hemb e0 embeddings0.
  rewrite bindM_eq, pool_connect_eq.
  destruct (pool_ended s) eqn:Hpool; [split; [assumption | reflexivity] |].
  step_io s; [| split; assumption].
  pose proof (@transaction_atomic embeddings s0 ltac:(congruence)) as Htx.
  destruct (storeBatch_transaction embeddings s0) as [[[] | e] s1].
  - destruct Htx as (Hs1 & rows & Hrows & Happly).
    split; [assumption |]. exists rows. split; [assumption | congruence].
  - destruct Htx as [Hs1 Ht1]. split; congruence.
Qed.

(** C2: [storeBatch] is atomic.  On a store whose session is idle, either
    the call resolves and the table is the old one with every row of the
    batch applied, in order; or the call rejects and the table, and with it
    the row count, is what it was before the call.  A row that fails (a
    vector that is [undefined], a violated constraint, an input/output
    failure) therefore leaves nothing of the batch behind. *)
Theorem storeBatch_atomic :
  forall (embeddings : list (EmbeddingVector N)) s,
    session s = Idle ->
    let s' := snd (storeBatch embeddings s) in
    session s' = Idle
    /\ match fst (storeBatch embeddings s) with
       | Ok _ =>
           exists rows, mapM (@row_of N) embeddings = Ok rows
                        /\ apply_batch rows (table s) = Ok (table s')
       | Err _ =>
           table s' = table s
           /\ List.length (table s') = List.length (table s)
       end.
Proof.
  intros embeddings s Hidle s'. subst s'.
  pose proof (@storeBatch_cases embeddings s Hidle) as H.
  destruct (storeBatch embeddings s) as [[[] | e] s1]; cbn [fst snd].
  - exact H.
  - destruct H as [Hs1 Ht1]. repeat split; try assumption.
    rewrite Ht1. reflexivity.
Qed.

Lemma close_ends_pool s :
  pool_ended (snd (close s)) = true
  /\ initialized (snd (close s)) = initialized s.
Proof.
  unfold close, try_catch, pool_end, bindM, get, modify, throw. cbv beta iota.
  destruct (pool_ended s) eqn:E; cbn; split; assumption || reflexivity.
Qed.

Lemma guarded_call_after_close {A : Type} (body : M (State N) A) s :
  pool_ended s = true ->
  fst (bindM (@ensureInitialized N) (fun _ => bindM (@pool_connect N) (fun _ => body)) s)
  = Err (error_after_close (initialized s)).
Proof.
  intros Hp. rewrite bindM_eq, ensureInitialized_eq.
  unfold error_after_close.
  destruct (initialized s) eqn:Hi; [| reflexivity].
  rewrite bindM_eq, pool_connect_eq, Hp. reflexivity.
Qed.

Section Ranked.

Context `{Number N}.
Variable cosine_distance : list N -> list N -> N.

(** C9, amended: after [close()], every [store], every [storeBatch] of a
    non-empty batch, every [search], [clear] and [count] fails; the error is
    the not-initialized error when the store had not been initialized, and
    the pool's own error, raised by [pool.connect()], when it had. *)
Theorem calls_after_close_fail :
  forall s (e : EmbeddingVector N) (es : list (EmbeddingVector N))
         (q : list N) (topK : Z) (entityId_ : option string),
    let s1 := snd (close s) in
    let message := error_after_close (initialized s) in
    fst (store e s1) = Err message
    /\ fst (storeBatch (e :: es) s1) = Err message
    /\ fst (search cosine_distance q topK entityId_ s1) = Err message
    /\ fst (clear entityId_ s1) = Err message
    /\ fst (count entityId_ s1) = Err message.
Proof.
  intros s e es q topK entityId_ s1 message. subst s1 message.
  destruct (close_ends_pool s) as [Hp Hi]. rewrite <- Hi.
  repeat split.
  - apply guarded_call_after_close, Hp.
  - unfold storeBatch. rewrite bindM_eq, ensureInitialized_eq.
    unfold error_after_close.
    destruct (initialized (snd (close s))); [| reflexivity].
    rewrite bindM_eq, pool_connect_eq, Hp. reflexivity.
  - apply guarded_call_after_close, Hp.
  - apply guarded_call_after_close, Hp.
  - apply guarded_call_after_close, Hp.
Qed.

End Ranked.

End PgStore.

(** A batch of two valid rows and one whose vector has the wrong dimension,
    on an empty table: the call rejects and the table stays empty. *)
Lemma storeBatch_atomic_witness :
  let batch := [demo_embedding "chunk-0" (repeat 1%Z 384);
                demo_embedding "chunk-1" (repeat 2%Z 384);
                demo_embedding "chunk-2" [3%Z]] in
  let s := demo_pg (N := Z) [] in
  PgVectorStore.session s = PgVectorStore.Idle
  /\ fst (PgVectorStore.storeBatch batch s) = Err "expected 384 dimensions"
  /\ PgVectorStore.table (snd (PgVectorStore.storeBatch batch s)) = []
  /\ List.length
       (PgVectorStore.table
          (snd (PgVectorStore.storeBatch (firstn 2 batch) s))) = 2%nat.
Proof.
  intros batch s.
  assert (Hidle : PgVectorStore.session s = PgVectorStore.Idle) by reflexivity.
  split; [exact Hidle |].
  pose proof (@storeBatch_atomic Z batch s Hidle) as [_ H].
  assert (E : fst (PgVectorStore.storeBatch batch s)
              = Err "expected 384 dimensions") by (vm_compute; reflexivity).
  rewrite E in H. destruct H as [Ht _].
  split; [exact E |]. split; [exact Ht |].
  vm_compute. reflexivity.
Defined.

(** C9, as stated, fails: [close()] leaves [initialized] set, so that a
    later call passes [ensureInitialized] and fails in [pool.connect()]
    with the pool's error, not with the not-initialized error. *)
Lemma close_keeps_initialized :
  let s0 := snd (@PgVectorStore.initialize Z
                   (PgVectorStore.new [] [] true true)) in
  let s1 := snd (PgVectorStore.close s0) in
  PgVectorStore.initialized s0 = true
  /\ fst (PgVectorStore.close s0) = Ok tt
  /\ fst (PgVectorStore.count None s1)
     = Err "Cannot use a pool after calling end on the pool"
  /\ fst (PgVectorStore.count None s1)
     <> Err "PgVectorStore not initialized. Call initialize() first.".
Proof.
  cbn. repeat split; try reflexivity. discriminate.
Qed.

(** ** Vector stores: ranking of the search results *)

Section SortMembers.

Context {A N : Type} `{Number N}.
Variable compare : A -> A -> N.

Lemma insert_sorted_In (x z : A) (l : list A) :
  In z (insert_sorted compare x l) <-> z = x \/ In z l.
Proof.
  induction l as [| y l IH]; cbn [insert_sorted].
  - cbn. split; intros [E | E]; auto.
  - destruct (is_pos (compare x y)); cbn [In]; rewrite ?IH.
    + tauto.
    + split; intros [E | E]; auto.
Qed.

Lemma sort_In (z : A) (l : list A) : In z (sort compare l) <-> In z l.
Proof.
  induction l as [| x l IH]; cbn; [reflexivity |].
  unfold sort in IH. rewrite insert_sorted_In, IH.
  split; intros [E | E]; auto.
Qed.

End SortMembers.

Section RealSort.

Variable A : Type.
Variable key : A -> R.
Variable compare : A -> A -> R.
Hypothesis compare_key : forall x y, compare x y = (key x - key y)%R.



End RealSort.

(** ** Cosine similarity over the reals *)

Section Cosine.

Import InMemoryVectorStore.



End Cosine.

Section InMemorySearch.

Import InMemoryVectorStore.




End InMemorySearch.


Section PgSearch.

Import PgVectorStore.

Variable cosine_distance : list R -> list R -> R.
Hypothesis distance_range : forall a b, (0 <= cosine_distance a b <= 2)%R.



End PgSearch.




(** ** More on the chunking *)

Section ChunkingMore.

Import DocumentProcessor Words ChunkSpec.

Local Open Scope Z_scope.

(** *** The normal form of [extractText] *)

Lemma single_spaced_weaken b s :
  single_spaced b s = true -> single_spaced false s = true.
Proof.
  destruct s as [| c s]; [reflexivity |]. cbn.
  destruct (is_space c); [| auto].
  destruct b; cbn; [rewrite andb_false_r; discriminate | auto].
Qed.

Lemma collapse_ws_go_single_spaced b s :
  single_spaced b (collapse_ws_go b s) = true.
Proof.
  revert b; induction s as [| c s IH]; intros b; cbn; [reflexivity |].
  destruct (is_space c) eqn:E.
  - destruct b; [apply IH |]. cbn. rewrite IH. reflexivity.
  - cbn. rewrite E. apply IH.
Qed.

Lemma trim_start_single_spaced s :
  single_spaced false s = true -> single_spaced false (trim_start s) = true.
Proof.
  induction s as [| c s IH]; [reflexivity |]. cbn.
  destruct (is_space c) eqn:E; cbn; [| rewrite E; auto].
  intros H. apply andb_true_iff in H as [_ H].
  apply IH. eapply single_spaced_weaken, H.
Qed.

Lemma trim_end_single_spaced b s :
  single_spaced b s = true -> single_spaced b (trim_end s) = true.
Proof.
  revert b; induction s as [| c s IH]; intros b; [reflexivity |]. cbn.
  destruct (is_space c) eqn:E.
  - intros H. apply andb_true_iff in H as [Hc H].
    specialize (IH true H).
    destruct (trim_end s) as [| c' t]; [reflexivity |].
    cbn [single_spaced]. rewrite E, Hc. exact IH.
  - intros H. specialize (IH false H).
    destruct (trim_end s) as [| c' t]; cbn [single_spaced]; rewrite E.
    + reflexivity.
    + exact IH.
Qed.

Lemma extractText_single_spaced (markup : string -> string) (content_ : string) :
  single_spaced false (extractText markup content_) = true.
Proof.
  unfold extractText, trim.
  apply trim_end_single_spaced, trim_start_single_spaced.
  apply (collapse_ws_go_single_spaced false).
Qed.

Lemma join_cons_char c p rest :
  join " " (String c p :: rest) = String c (join " " (p :: rest)).
Proof. destruct rest; reflexivity. Qed.

Lemma join_split_ws_go s :
  single_spaced false s = true ->
  s = EmptyString \/ ends_ok s = true ->
  join " " (split_ws_go false s) = s.
Proof.
  induction s as [| c s IH]; intros Hn He; [reflexivity |].
  assert (Hs : s = EmptyString \/ ends_ok s = true).
  { destruct He as [He | He]; [discriminate |].
    destruct s; [left; reflexivity | right; exact He]. }
  cbn [split_ws_go]. cbn [single_spaced] in Hn.
  destruct (is_space c) eqn:E.
  - apply andb_true_iff in Hn as [Hc Hn]. apply andb_true_iff in Hc as [Hc _].
    apply Ascii.eqb_eq in Hc. subst c.
    destruct s as [| c2 s2].
    { destruct He as [He | He]; [discriminate |]. cbn in He.
      rewrite E in He. discriminate. }
    assert (Hc2 : is_space c2 = false).
    { cbn in Hn. destruct (is_space c2); [| reflexivity].
      rewrite andb_false_r in Hn. discriminate. }
    rewrite (split_ws_go_word_head true c2 s2 Hc2).
    specialize (IH (single_spaced_weaken _ _ Hn) Hs).
    destruct (split_ws_go false (String c2 s2)) as [| q rest] eqn:Eq.
    { exfalso. exact (split_ws_go_nonnil _ _ Eq). }
    change (join " " (EmptyString :: q :: rest))
      with (String " " (join " " (q :: rest))).
    rewrite IH. reflexivity.
  - specialize (IH Hn Hs).
    destruct (split_ws_go false s) as [| p rest] eqn:Ep.
    { exfalso. exact (split_ws_go_nonnil _ _ Ep). }
    rewrite join_cons_char, IH. reflexivity.
Qed.

Lemma collapse_ws_go_fixed b s :
  single_spaced b s = true -> collapse_ws_go b s = s.
Proof.
  revert b; induction s as [| c s IH]; intros b H; [reflexivity |].
  cbn in *. destruct (is_space c).
  - apply andb_true_iff in H as [Hc H]. apply andb_true_iff in Hc as [Hc Hb].
    apply Ascii.eqb_eq in Hc. subst c. destruct b; [discriminate |].
    rewrite (IH true H). reflexivity.
  - rewrite (IH false H). reflexivity.
Qed.

Lemma trim_start_fixed s :
  s = EmptyString \/ starts_ok s = true -> trim_start s = s.
Proof.
  intros [-> | H]; [reflexivity |].
  destruct s as [| c s]; [discriminate |]. cbn in *.
  apply negb_true_iff in H. rewrite H. reflexivity.
Qed.

Lemma trim_end_fixed s :
  s = EmptyString \/ ends_ok s = true -> trim_end s = s.
Proof.
  induction s as [| c s IH]; intros H; [reflexivity |].
  destruct H as [H | H]; [discriminate |].
  cbn [trim_end]. destruct s as [| c2 s2].
  - cbn in *. apply negb_true_iff in H. rewrite H. reflexivity.
  - rewrite IH by (right; exact H). reflexivity.
Qed.

Lemma extractText_trimmed (markup : string -> string) (content_ : string) :
  trim (extractText markup content_) = extractText markup content_.
Proof.
  assert (Hshape : extractText markup content_ = EmptyString
                   \/ (starts_ok (extractText markup content_) = true
                       /\ ends_ok (extractText markup content_) = true)).
  { unfold extractText. apply trim_shape. }
  unfold trim. rewrite trim_start_fixed by tauto.
  apply trim_end_fixed. tauto.
Qed.

(** X1: The text that is chunked is in normal form: it is its words joined by
    single spaces, and normalising it again changes nothing. *)
Theorem extractText_normal_form :
  forall (markup : string -> string) (content_ : string),
    join " " (split_ws (extractText markup content_))
    = extractText markup content_
    /\ (extractText markup content_ = EmptyString
        \/ Forall (fun w => word_ok w = true)
                  (split_ws (extractText markup content_)))
    /\ trim (collapse_ws (extractText markup content_))
       = extractText markup content_.
Proof.
  intros markup content_.
  pose proof (extractText_single_spaced markup content_) as Hn.
  assert (Hshape : extractText markup content_ = EmptyString
                   \/ (starts_ok (extractText markup content_) = true
                       /\ ends_ok (extractText markup content_) = true)).
  { unfold extractText. apply trim_shape. }
  split; [| split].
  - apply join_split_ws_go; [exact Hn | tauto].
  - destruct Hshape as [E | [Hs He]]; [left; exact E | right].
    apply split_ws_word_ok; assumption.
  - unfold collapse_ws. rewrite (collapse_ws_go_fixed _ _ Hn).
    unfold trim. rewrite trim_start_fixed by tauto.
    apply trim_end_fixed. tauto.
Qed.

(** *** Blank input *)

Lemma collapse_ws_go_blank s :
  blank s = true -> collapse_ws_go true s = EmptyString.
Proof.
  induction s as [| c s IH]; intros H; [reflexivity |].
  cbn in *. apply andb_true_iff in H as [Hc H]. rewrite Hc. apply IH, H.
Qed.

Lemma extractText_blank (markup : string -> string) (content_ : string) :
  blank (markup content_) = true ->
  extractText markup content_ = EmptyString.
Proof.
  intros H. unfold extractText, collapse_ws.
  destruct (markup content_) as [| c s]; [reflexivity |].
  cbn in *. apply andb_true_iff in H as [Hc H]. rewrite Hc.
  rewrite (collapse_ws_go_blank _ H). reflexivity.
Qed.

(** X2: A text that is blank once the markup is stripped gives no chunk,
    whatever the configuration, and the loop is not entered. *)
Theorem chunkDocument_blank :
  forall (fuel : nat) (markup : string -> string) (config : AskAiConfig)
         (content_ entityId_ entityName_ : string) (source_ : Source),
    blank (markup content_) = true ->
    chunkDocument fuel markup config content_ entityId_ entityName_ source_
    = Some [].
Proof.
  intros fuel markup config content_ entityId_ entityName_ source_ H.
  unfold chunkDocument. rewrite (extractText_blank _ _ H). reflexivity.
Qed.

(** *** What the loop produces *)

Section LoopMore.

Variable words : list string.
Variables W O : Z.
Variables e n : string.
Variable src : Source.

Hypothesis words_ok : Forall (fun w => word_ok w = true) words.

Lemma chunk_loop_exact (fuel : nat) :
  forall ci idx acc out,
    0 <= ci -> 0 < W -> 0 < W - O ->
    chunk_loop fuel words W O e n src ci idx acc = Some out ->
    exists rest,
      out = acc ++ rest /\ loop_chunks words W (W - O) e n src ci idx rest.
Proof.
  induction fuel as [| fuel IH]; intros ci idx acc out Hci HW HS Hrun;
    cbn [chunk_loop] in Hrun; [discriminate |].
  destruct (Z.ltb_spec ci (Z.of_nat (List.length words))) as [Hlt | Hge].
  - destruct (@window_pushed words W e n src words_ok ci idx (conj Hci Hlt) HW)
      as [Hpush _].
    rewrite Hpush in Hrun.
    apply IH in Hrun; [| lia | assumption | assumption].
    destruct Hrun as [rest [-> Hrest]].
    eexists. rewrite <- app_assoc. split; [reflexivity |].
    cbn. repeat split; try assumption; lia.
  - inversion Hrun; subst. exists []. rewrite app_nil_r.
    split; [reflexivity | exact Hge].
Qed.

End LoopMore.

Lemma loop_chunks_nth (words : list string) (W stride : Z) (e n : string)
    (src : Source) (l : list DocumentChunk) :
  forall (a idx : Z) (i : nat) (c : DocumentChunk),
    loop_chunks words W stride e n src a idx l ->
    nth_error l i = Some c ->
    0 <= a + Z.of_nat i * stride < Z.of_nat (List.length words)
    /\ c = mkChunk e n src (idx + Z.of_nat i)
             (join " " (slice words (a + Z.of_nat i * stride)
                              (a + Z.of_nat i * stride + W))).
Proof.
  induction l as [| c0 l IH]; intros a idx i c Hl Hnth.
  - destruct i; discriminate.
  - destruct Hl as (Ha & Hc0 & Hl). destruct i as [| i]; cbn in Hnth.
    + inversion Hnth; subst. rewrite Z.mul_0_l, !Z.add_0_r. split; [assumption | reflexivity].
    + destruct (IH _ _ _ _ Hl Hnth) as [Hr Hc].
      replace (a + Z.of_nat (S i) * stride)
        with (a + stride + Z.of_nat i * stride) by lia.
      replace (idx + Z.of_nat (S i)) with (idx + 1 + Z.of_nat i) by lia.
      split; assumption.
Qed.

Lemma loop_chunks_count (words : list string) (W stride : Z) (e n : string)
    (src : Source) (l : list DocumentChunk) :
  forall (a idx : Z),
    0 < stride ->
    loop_chunks words W stride e n src a idx l ->
    Z.of_nat (List.length words) <= a + Z.of_nat (List.length l) * stride
    /\ (l <> [] ->
        a + (Z.of_nat (List.length l) - 1) * stride
        < Z.of_nat (List.length words)).
Proof.
  induction l as [| c0 l IH]; intros a idx HS Hl.
  - cbn in *. split; [lia | congruence].
  - destruct Hl as (Ha & _ & Hl). destruct (IH _ _ HS Hl) as [H1 H2].
    cbn [List.length]. split; [lia |]. intros _.
    destruct l as [| c1 l]; [cbn; lia |].
    specialize (H2 ltac:(discriminate)). cbn [List.length] in *. lia.
Qed.

(** The chunks of a text that is not blank, for a positive window and a
    positive stride. *)
Lemma chunkDocument_exact (fuel : nat) (markup : string -> string)
    (config : AskAiConfig) (content_ entityId_ entityName_ : string)
    (source_ : Source) (chunks : list DocumentChunk) :
  0 < chunkSize config -> chunkOverlap config < chunkSize config ->
  extractText markup content_ <> EmptyString ->
  chunkDocument fuel markup config content_ entityId_ entityName_ source_
  = Some chunks ->
  exists out,
    chunks = map (set_totalChunks (Z.of_nat (List.length out))) out
    /\ loop_chunks (split_ws (extractText markup content_))
         (chunkSize config) (chunkSize config - chunkOverlap config)
         entityId_ entityName_ source_ 0 0 out
    /\ Forall (fun w => word_ok w = true)
              (split_ws (extractText markup content_)).
Proof.
  intros HW HO Hne. unfold chunkDocument.
  destruct ((String.length (extractText markup content_) =? 0)%nat
            || (String.length (trim (extractText markup content_)) =? 0)%nat)
    eqn:Hblank.
  - exfalso. rewrite extractText_trimmed, orb_diag in Hblank.
    destruct (extractText markup content_); [congruence | discriminate].
  - pose proof (clean_words_ok markup content_ Hblank) as Hok.
    destruct (chunk_loop fuel _ _ _ _ _ _ 0 0 []) as [out |] eqn:Hloop;
      [| discriminate].
    intros E. inversion E; subst chunks. exists out.
    apply (@chunk_loop_exact _ _ _ _ _ _ Hok) in Hloop; [| lia | lia | lia].
    destruct Hloop as [rest [Hout Hrest]]. cbn in Hout. subst rest.
    repeat split; assumption.
Qed.

(** *** Labels *)

Lemma to_int_not_nil (z : Z) :
  Z.to_int z <> Decimal.Pos Decimal.Nil /\ Z.to_int z <> Decimal.Neg Decimal.Nil.
Proof.
  assert (Hn : Z.to_int z = Decimal.norm (Z.to_int z)).
  { rewrite <- DecimalZ.to_of, DecimalZ.of_to. reflexivity. }
  split; intros E; rewrite E in Hn; cbn in Hn; discriminate.
Qed.

Lemma string_of_Z_inj (x y : Z) : string_of_Z x = string_of_Z y -> x = y.
Proof.
  unfold string_of_Z. intros E.
  apply DecimalZ.to_int_inj.
  destruct (to_int_not_nil x) as [Hx1 Hx2].
  destruct (to_int_not_nil y) as [Hy1 Hy2].
  pose proof (DecimalString.NilZero.isi _ Hx1 Hx2) as Ix.
  pose proof (DecimalString.NilZero.isi _ Hy1 Hy2) as Iy.
  rewrite E in Ix. rewrite Ix in Iy. congruence.
Qed.

Lemma append_inj_l (p x y : string) : (p ++ x = p ++ y)%string -> x = y.
Proof.
  induction p as [| c p IH]; cbn; intros E; [assumption |].
  inversion E. auto.
Qed.

Lemma labelled_id_inj (e n : string) (src : Source) (k1 k2 : Z)
    (c1 c2 : DocumentChunk) :
  labelled e n src k1 c1 -> labelled e n src k2 c2 -> id c1 = id c2 -> k1 = k2.
Proof.
  intros (I1 & _) (I2 & _) E. rewrite I1, I2 in E.
  apply string_of_Z_inj.
  repeat (apply append_inj_l in E). exact E.
Qed.

Lemma chunk_loop_labels (words : list string) (W O : Z) (e n : string)
    (src : Source) (fuel : nat) :
  forall ci idx acc out,
    idx = Z.of_nat (List.length acc) ->
    (forall i c, nth_error acc i = Some c ->
       labelled e n src (Z.of_nat i) c
       /\ trim (content c) <> EmptyString) ->
    chunk_loop fuel words W O e n src ci idx acc = Some out ->
    forall i c, nth_error out i = Some c ->
      labelled e n src (Z.of_nat i) c /\ trim (content c) <> EmptyString.
Proof.
  induction fuel as [| fuel IH]; intros ci idx acc out Hidx Hacc Hrun;
    cbn [chunk_loop] in Hrun; [discriminate |].
  destruct (ci <? Z.of_nat (List.length words)).
  - destruct (0 <? String.length (trim (join " " (slice words ci (ci + W)))))%nat
      eqn:Hpush.
    + revert Hrun. apply IH; [rewrite length_app; cbn; lia |].
      intros i c Hnth.
      destruct (Nat.lt_ge_cases i (List.length acc)) as [Hlt | Hge].
      * rewrite nth_error_app1 in Hnth by assumption. auto.
      * rewrite nth_error_app2 in Hnth by assumption.
        destruct (i - List.length acc)%nat as [| k] eqn:Ek;
          [| destruct k; discriminate].
        cbn in Hnth. inversion Hnth; subst c.
        replace (Z.of_nat i) with idx by lia.
        split; [repeat split |]. cbn [content mkChunk].
        intros E. rewrite E in Hpush. discriminate.
    + revert Hrun. apply IH; assumption.
  - inversion Hrun; subst. exact Hacc.
Qed.

(** X3: Position [i] of the result holds the chunk numbered [i]: its id is
    [entityId-source-i], it carries the entity and the source of the call,
    its [totalChunks] is the number of chunks returned, and its content is
    not blank; so the ids of one call are pairwise distinct.  No assumption
    on the configuration is needed. *)
Theorem chunkDocument_metadata :
  forall fuel markup config content_ entityId_ entityName_ source_ chunks,
    chunkDocument fuel markup config content_ entityId_ entityName_ source_
    = Some chunks ->
    (forall i c,
        nth_error chunks i = Some c ->
        labelled entityId_ entityName_ source_ (Z.of_nat i) c
        /\ totalChunks (metadata c) = Z.of_nat (List.length chunks)
        /\ trim (content c) <> EmptyString)
    /\ NoDup (map id chunks).
Proof.
  intros fuel markup config content_ e n src chunks Hrun.
  assert (Hpos : forall i c,
             nth_error chunks i = Some c ->
             labelled e n src (Z.of_nat i) c
             /\ totalChunks (metadata c) = Z.of_nat (List.length chunks)
             /\ trim (content c) <> EmptyString).
  { revert Hrun. unfold chunkDocument.
    destruct ((String.length (extractText markup content_) =? 0)%nat
              || (String.length (trim (extractText markup content_)) =? 0)%nat).
    - intros E i c Hnth. inversion E; subst. destruct i; discriminate.
    - destruct (chunk_loop fuel _ _ _ _ _ _ 0 0 []) as [out |] eqn:Hloop;
        [| discriminate].
      intros E i c Hnth. inversion E; subst chunks.
      rewrite nth_error_map in Hnth.
      destruct (nth_error out i) as [c0 |] eqn:Hc0; [| discriminate].
      cbn in Hnth. inversion Hnth; subst c.
      assert (Hnil : forall k c,
                 nth_error (@nil DocumentChunk) k = Some c ->
                 labelled e n src (Z.of_nat k) c
                 /\ trim (content c) <> EmptyString)
        by (intros [| ?] ?; discriminate).
      destruct (@chunk_loop_labels _ _ _ e n src _ _ _ _ _ eq_refl
                  Hnil Hloop i c0 Hc0)
        as [(L1 & L2 & L3 & L4 & L5) Hne].
      rewrite length_map. split; [| split; [reflexivity | exact Hne]].
      repeat split; assumption. }
  split; [exact Hpos |].
  apply NoDup_nth_error. intros i j Hi Hij.
  rewrite length_map in Hi. rewrite !nth_error_map in Hij.
  destruct (nth_error chunks i) as [ci |] eqn:Ei;
    [| apply nth_error_None in Ei; lia].
  destruct (nth_error chunks j) as [cj |] eqn:Ej; [| discriminate].
  cbn in Hij. inversion Hij as [Hid].
  destruct (Hpos _ _ Ei) as [Li _]. destruct (Hpos _ _ Ej) as [Lj _].
  pose proof (labelled_id_inj Li Lj Hid). lia.
Qed.

(** *** Windows *)

(** X4: For a window [0 < chunkSize] and an overlap below it, a text that is
    not blank gives [ceil (#words / stride)] chunks, with
    [stride = chunkSize - chunkOverlap], and chunk [i] holds the words from
    position [i * stride] on, [chunkSize] of them or what is left, joined
    by single spaces. *)
Theorem chunkDocument_windows :
  forall fuel markup config content_ entityId_ entityName_ source_ chunks,
    0 < chunkSize config -> chunkOverlap config < chunkSize config ->
    extractText markup content_ <> EmptyString ->
    chunkDocument fuel markup config content_ entityId_ entityName_ source_
    = Some chunks ->
    let words := split_ws (extractText markup content_) in
    let stride := chunkSize config - chunkOverlap config in
    (Z.of_nat (List.length chunks) - 1) * stride < Z.of_nat (List.length words)
    /\ Z.of_nat (List.length words) <= Z.of_nat (List.length chunks) * stride
    /\ (forall i c,
          nth_error chunks i = Some c ->
          chunk_words c
          = firstn (Z.to_nat (chunkSize config))
                   (skipn (Z.to_nat (Z.of_nat i * stride)) words)
          /\ content c = join " " (chunk_words c)).
Proof.
  intros fuel markup config content_ e n src chunks HW HO Hne Hrun words stride.
  destruct (chunkDocument_exact _ _ _ _ _ _ _ HW HO Hne Hrun)
    as (out & -> & Hloop & Hok).
  fold words in Hloop, Hok. fold stride in Hloop.
  assert (HS : 0 < stride) by (unfold stride; lia).
  destruct (loop_chunks_count _ _ _ _ _ _ _ _ HS Hloop) as [Hup Hlow].
  rewrite length_map.
  assert (Hwords : words <> []).
  { unfold words, split_ws. apply split_ws_go_nonnil. }
  split; [| split].
  - destruct out as [| c0 out']; [| specialize (Hlow ltac:(discriminate)); lia].
    cbn in Hup. destruct words; [congruence | cbn in Hup; lia].
  - lia.
  - intros i c Hnth. rewrite nth_error_map in Hnth.
    destruct (nth_error out i) as [c0 |] eqn:Hc0; [| discriminate].
    cbn in Hnth. inversion Hnth; subst c.
    destruct (loop_chunks_nth _ _ _ _ _ _ _ _ _ _ Hloop Hc0) as [Hr ->].
    rewrite Z.add_0_l in Hr.
    destruct (@window_pushed words (chunkSize config) e n src Hok
                (Z.of_nat i * stride) (Z.of_nat i) Hr HW) as [_ Hcw].
    unfold chunk_words in *. cbn [content set_totalChunks mkChunk] in *.
    rewrite !Z.add_0_l. rewrite Hcw. rewrite slice_window by lia. split; reflexivity.
Qed.

(** X5: With an overlap [0 <= chunkOverlap < chunkSize] no word is lost: the
    word at position [j] is in chunk [j / stride], at offset
    [j mod stride]. *)
Theorem chunkDocument_covers :
  forall fuel markup config content_ entityId_ entityName_ source_ chunks j w,
    0 <= chunkOverlap config -> chunkOverlap config < chunkSize config ->
    extractText markup content_ <> EmptyString ->
    chunkDocument fuel markup config content_ entityId_ entityName_ source_
    = Some chunks ->
    nth_error (split_ws (extractText markup content_)) j = Some w ->
    exists c,
      nth_error chunks
        (j / Z.to_nat (chunkSize config - chunkOverlap config))%nat = Some c
      /\ nth_error (chunk_words c)
           (j mod Z.to_nat (chunkSize config - chunkOverlap config))%nat
         = Some w.
Proof.
  intros fuel markup config content_ e n src chunks j w HO0 HO Hne Hrun Hj.
  assert (HW : 0 < chunkSize config) by lia.
  destruct (chunkDocument_exact _ _ _ _ _ _ _ HW HO Hne Hrun)
    as (out & -> & Hloop & Hok).
  set (words := split_ws (extractText markup content_)) in *.
  set (stride := chunkSize config - chunkOverlap config) in *.
  assert (HS : 0 < stride) by (unfold stride; lia).
  destruct (loop_chunks_count _ _ _ _ _ _ _ _ HS Hloop) as [Hup _].
  assert (Hjlt : (j < List.length words)%nat)
    by (apply nth_error_Some; congruence).
  set (s := Z.to_nat stride).
  assert (Hs : (0 < s)%nat) by (unfold s; lia).
  assert (Es : stride = Z.of_nat s) by (unfold s; lia).
  pose proof (Nat.div_mod_eq j s) as Hdm.
  pose proof (Nat.mod_upper_bound j s ltac:(lia)) as Hmod.
  assert (Hi : (j / s < List.length out)%nat).
  { destruct (Nat.lt_ge_cases (j / s) (List.length out)) as [? | Hge];
      [assumption | exfalso].
    assert (List.length out * s <= j / s * s)%nat
      by (apply Nat.mul_le_mono_r; exact Hge).
    nia. }
  destruct (nth_error out (j / s)) as [c0 |] eqn:Hc0;
    [| apply nth_error_None in Hc0; lia].
  exists (set_totalChunks (Z.of_nat (List.length out)) c0). split.
  - rewrite nth_error_map, Hc0. reflexivity.
  - destruct (loop_chunks_nth _ _ _ _ _ _ _ _ _ _ Hloop Hc0) as [Hr ->].
    rewrite Z.add_0_l in Hr.
    destruct (@window_pushed words (chunkSize config) e n src Hok
                (Z.of_nat (j / s) * stride) (Z.of_nat (j / s)) Hr HW)
      as [_ Hcw].
    unfold chunk_words in *. cbn [content set_totalChunks mkChunk] in *.
    rewrite !Z.add_0_l. rewrite Hcw. rewrite slice_window by lia.
    rewrite nth_error_firstn.
    destruct (Nat.ltb_spec (j mod s) (Z.to_nat (chunkSize config)))
      as [_ | Hge]; [| unfold stride in Es; lia].
    rewrite nth_error_skipn.
    replace (Z.to_nat (Z.of_nat (j / s) * stride) + j mod s)%nat with j;
      [exact Hj |].
    rewrite Es. nia.
Qed.

End ChunkingMore.

(** *** Instances *)

Lemma chunkDocument_blank_witness :
  ChunkSpec.blank "   " = true
  /\ DocumentProcessor.chunkDocument 0 (fun s => s) (config_with 4 4) "   "
       "component:default/x" "x" catalog = Some [].
Proof.
  assert (H : ChunkSpec.blank ((fun s : string => s) "   ") = true)
    by reflexivity.
  split; [exact H |].
  exact (chunkDocument_blank 0 (fun s => s) (config_with 4 4) "   "
           "component:default/x" "x" catalog H).
Defined.

Lemma chunkDocument_metadata_witness :
  exists chunks,
    DocumentProcessor.chunkDocument 10 (fun s => s) (config_with 4 2)
      "a b c d e" "component:default/x" "x" techdocs = Some chunks
    /\ map id chunks = ["component:default/x-techdocs-0";
                        "component:default/x-techdocs-1";
                        "component:default/x-techdocs-2"]
    /\ map (fun c => totalChunks (metadata c)) chunks = [3; 3; 3]%Z
    /\ NoDup (map id chunks).
Proof.
  destruct (DocumentProcessor.chunkDocument 10 (fun s => s) (config_with 4 2)
              "a b c d e" "component:default/x" "x" techdocs)
    as [chunks |] eqn:E; [| vm_compute in E; discriminate].
  exists chunks. split; [reflexivity |].
  pose proof (proj2 (chunkDocument_metadata 10 (fun s => s) (config_with 4 2)
                       "a b c d e" "component:default/x" "x" techdocs E))
    as Hnd.
  vm_compute in E. inversion E; subst chunks.
  split; [reflexivity |]. split; [reflexivity | exact Hnd].
Defined.

Lemma chunkDocument_windows_witness :
  exists chunks,
    DocumentProcessor.chunkDocument 10 (fun s => s) (config_with 4 2)
      "a b c d e" "component:default/x" "x" catalog = Some chunks
    /\ ((Z.of_nat (List.length chunks) - 1) * 2 < 5
        /\ 5 <= Z.of_nat (List.length chunks) * 2)%Z
    /\ map content chunks = ["a b c d"; "c d e"; "e"].
Proof.
  destruct (DocumentProcessor.chunkDocument 10 (fun s => s) (config_with 4 2)
              "a b c d e" "component:default/x" "x" catalog)
    as [chunks |] eqn:E; [| vm_compute in E; discriminate].
  exists chunks. split; [reflexivity |].
  destruct (@chunkDocument_windows 10 (fun s => s) (config_with 4 2)
              "a b c d e" "component:default/x" "x" catalog chunks
              ltac:(cbn; lia) ltac:(cbn; lia) ltac:(vm_compute; discriminate) E)
    as (Hlow & Hup & _).
  split; [split; [exact Hlow | exact Hup] |].
  vm_compute in E. inversion E; subst chunks. reflexivity.
Defined.

Lemma chunkDocument_covers_witness :
  exists chunks c,
    DocumentProcessor.chunkDocument 10 (fun s => s) (config_with 4 2)
      "a b c d e" "component:default/x" "x" catalog = Some chunks
    /\ nth_error chunks 1 = Some c
    /\ nth_error (DocumentProcessor.chunk_words c) 1 = Some "d".
Proof.
  destruct (DocumentProcessor.chunkDocument 10 (fun s => s) (config_with 4 2)
              "a b c d e" "component:default/x" "x" catalog)
    as [chunks |] eqn:E; [| vm_compute in E; discriminate].
  destruct (@chunkDocument_covers 10 (fun s => s) (config_with 4 2)
              "a b c d e" "component:default/x" "x" catalog chunks 3%nat "d"
              ltac:(cbn; lia) ltac:(cbn; lia) ltac:(vm_compute; discriminate) E
              ltac:(vm_compute; reflexivity))
    as (c & Hc & Hw).
  exists chunks, c. split; [reflexivity |]. split; [exact Hc | exact Hw].
Defined.

(** ** More on the in-memory store *)

Section MapSet.

Import InMemoryVectorStore MapSpec.

Context {N : Type} `{Number N}.

Lemma Map_get_set (k k' : string) (v : EmbeddingVector N) (m : Store (N := N)) :
  Map_get k' (Map_set k v m)
  = if String.eqb k' k then Some v else Map_get k' m.
Proof.
  induction m as [| [k0 v0] m IH]; cbn.
  - destruct (String.eqb k' k); reflexivity.
  - destruct (String.eqb_spec k k0) as [-> | Hne]; cbn.
    + destruct (String.eqb k' k0); reflexivity.
    + rewrite IH. destruct (String.eqb_spec k' k0) as [-> | Hne'].
      * destruct (String.eqb_spec k0 k); [congruence | reflexivity].
      * reflexivity.
Qed.

Lemma Map_keys_set (k : string) (v : EmbeddingVector N) (m : Store (N := N)) :
  Map_keys (Map_set k v m)
  = if existsb (String.eqb k) (Map_keys m)
    then Map_keys m else Map_keys m ++ [k].
Proof.
  unfold Map_keys. induction m as [| [k0 v0] m IH]; cbn; [reflexivity |].
  destruct (String.eqb_spec k k0) as [-> | Hne]; cbn; [reflexivity |].
  rewrite IH. destruct (existsb (String.eqb k) (map fst m)); reflexivity.
Qed.

Lemma existsb_eqb_In (k : string) (l : list string) :
  existsb (String.eqb k) l = true <-> In k l.
Proof.
  rewrite existsb_exists. split.
  - intros (x & Hx & E). apply String.eqb_eq in E. subst. exact Hx.
  - intros Hin. exists k. split; [exact Hin | apply String.eqb_refl].
Qed.

Lemma Map_set_NoDup (k : string) (v : EmbeddingVector N) (m : Store (N := N)) :
  NoDup (Map_keys m) -> NoDup (Map_keys (Map_set k v m)).
Proof.
  intros Hm. rewrite Map_keys_set.
  destruct (existsb (String.eqb k) (Map_keys m)) eqn:Hin; [assumption |].
  apply NoDup_app; [assumption | repeat constructor; intros [] | ].
  intros x Hx [<- | []]. apply existsb_eqb_In in Hx. congruence.
Qed.

Lemma Map_ext (m1 m2 : Store (N := N)) :
  NoDup (Map_keys m1) ->
  Map_keys m1 = Map_keys m2 ->
  (forall k, Map_get k m1 = Map_get k m2) ->
  m1 = m2.
Proof.
  revert m2. induction m1 as [| [k1 v1] m1 IH]; intros [| [k2 v2] m2] Hnd Hk Hg;
    try discriminate; [reflexivity |].
  cbn in Hk. inversion Hk as [[Hk1 Hk2]]. subst k2.
  pose proof (Hg k1) as Hg1. cbn in Hg1. rewrite String.eqb_refl in Hg1.
  inversion Hg1; subst v2.
  inversion Hnd as [| ? ? Hnotin Hnd']; subst.
  f_equal. apply IH; [assumption | assumption |].
  intros k0. specialize (Hg k0). cbn in Hg.
  destruct (String.eqb_spec k0 k1) as [E | Hne]; [subst k0 | assumption].
  assert (Hnone : forall m : Store (N := N), ~ In k1 (Map_keys m) -> Map_get k1 m = None).
  { clear. induction m as [| [k0 v0] m IH]; cbn; intros Hn; [reflexivity |].
    destruct (String.eqb_spec k1 k0) as [E | _];
      [exfalso; apply Hn; left; symmetry; exact E |].
    apply IH. intros Hin. apply Hn. right. exact Hin. }
  rewrite (Hnone m1 Hnotin). rewrite (Hnone m2); [reflexivity |].
  unfold Map_keys. rewrite <- Hk2. exact Hnotin.
Qed.

Lemma storeBatch_get (es : list (EmbeddingVector N)) :
  forall (m : Store (N := N)) (k : string),
    Map_get k (storeBatch es m) = last_write k es (Map_get k m).
Proof.
  unfold storeBatch, last_write.
  induction es as [| e es IH]; intros m k; cbn [fold_left]; [reflexivity |].
  rewrite IH, Map_get_set. reflexivity.
Qed.

Lemma storeBatch_NoDup (es : list (EmbeddingVector N)) :
  forall m : Store (N := N), NoDup (Map_keys m) -> NoDup (Map_keys (storeBatch es m)).
Proof.
  unfold storeBatch.
  induction es as [| e es IH]; intros m Hm; cbn [fold_left]; [assumption |].
  apply IH, Map_set_NoDup, Hm.
Qed.

Lemma storeBatch_keys_incl (es : list (EmbeddingVector N)) :
  forall (m : Store (N := N)) (k : string),
    In k (Map_keys m) \/ In k (map (@ev_id N) es) ->
    In k (Map_keys (storeBatch es m)).
Proof.
  unfold storeBatch.
  induction es as [| e es IH]; intros m k Hk; cbn [fold_left].
  - destruct Hk as [? | []]. assumption.
  - apply IH. rewrite Map_keys_set.
    destruct (existsb (String.eqb (ev_id e)) (Map_keys m)) eqn:Hin.
    + apply existsb_eqb_In in Hin. destruct Hk as [? | [<- | ?]]; auto.
    + rewrite in_app_iff. cbn. destruct Hk as [? | [<- | ?]]; auto.
Qed.

Lemma storeBatch_keys_fixed (es : list (EmbeddingVector N)) :
  forall m : Store (N := N),
    (forall e, In e es -> In (ev_id e) (Map_keys m)) ->
    Map_keys (storeBatch es m) = Map_keys m.
Proof.
  unfold storeBatch.
  induction es as [| e es IH]; intros m Hin; cbn [fold_left]; [reflexivity |].
  assert (Hk : Map_keys (Map_set (ev_id e) e m) = Map_keys m).
  { rewrite Map_keys_set.
    destruct (existsb (String.eqb (ev_id e)) (Map_keys m)) eqn:Hout;
      [reflexivity |].
    exfalso. assert (Hk : In (ev_id e) (Map_keys m))
      by (apply Hin; left; reflexivity).
    apply existsb_eqb_In in Hk. congruence. }
  rewrite IH; [exact Hk |].
  intros e' He'. rewrite Hk. apply Hin. right. exact He'.
Qed.

Lemma last_write_cases (k : string) (es : list (EmbeddingVector N)) :
  (forall d, last_write k es d = d)
  \/ (exists e, forall d, last_write k es d = Some e).
Proof.
  unfold last_write. induction es as [| e es IH]; cbn [fold_left].
  - left. reflexivity.
  - destruct (String.eqb k (ev_id e)).
    + right. destruct IH as [Hid | [e' He']].
      * exists e. intros d. apply Hid.
      * exists e'. intros d. apply He'.
    + exact IH.
Qed.

Lemma storeBatch_length (es : list (EmbeddingVector N)) :
  forall m : Store (N := N),
    (List.length m <= List.length (storeBatch es m)
     <= List.length m + List.length es)%nat.
Proof.
  unfold storeBatch.
  induction es as [| e es IH]; intros m; cbn [fold_left List.length]; [lia |].
  specialize (IH (Map_set (ev_id e) e m)).
  assert (Hset : (List.length m <= List.length (Map_set (ev_id e) e m)
                  <= S (List.length m))%nat).
  { clear. induction m as [| [k0 v0] m IHm]; cbn; [lia |].
    destruct (String.eqb (ev_id e) k0); cbn; lia. }
  lia.
Qed.

(** X6: [storeBatch] is an upsert by id.  On a store whose keys are distinct
    (as those of a [Map] are) the keys stay distinct, every id of the batch
    is bound afterwards to the last embedding of the batch with that id,
    the other bindings are kept, the size grows by at most the length of
    the batch, and storing the same batch again changes nothing. *)
Theorem in_memory_storeBatch_upsert :
  forall (es : list (EmbeddingVector N)) (m : Store (N := N)),
    NoDup (Map_keys m) ->
    NoDup (Map_keys (storeBatch es m))
    /\ (forall k, Map_get k (storeBatch es m) = last_write k es (Map_get k m))
    /\ (forall e, In e es ->
          exists e', Map_get (ev_id e) (storeBatch es m) = Some e'
                     /\ In e' es /\ ev_id e' = ev_id e)
    /\ (count m <= count (storeBatch es m)
        <= count m + Z.of_nat (List.length es))%Z
    /\ storeBatch es (storeBatch es m) = storeBatch es m.
Proof.
  intros es m Hm.
  split; [apply storeBatch_NoDup, Hm |].
  split; [apply storeBatch_get |].
  split; [| split].
  - intros e He. rewrite storeBatch_get.
    assert (Hgen : forall d,
               (exists e', d = Some e' /\ In e' es /\ ev_id e' = ev_id e)
               \/ In e es ->
               exists e', last_write (ev_id e) es d = Some e'
                          /\ In e' es /\ ev_id e' = ev_id e).
    { clear He. unfold last_write.
      induction es as [| e0 es IH] using rev_ind; intros d Hd.
      - destruct Hd as [(e' & _ & [] & _) | []].
      - rewrite fold_left_app. cbn [fold_left].
        destruct (String.eqb_spec (ev_id e) (ev_id e0)) as [E | Hne].
        + exists e0. rewrite in_app_iff. cbn. auto.
        + destruct (IH d) as (e' & He' & Hin & Hid).
          * destruct Hd as [(e' & -> & Hin & Hid) | Hin].
            -- left. exists e'. apply in_app_iff in Hin.
               destruct Hin as [? | [<- | []]]; [auto | congruence].
            -- right. apply in_app_iff in Hin.
               destruct Hin as [? | [<- | []]]; [auto | congruence].
          * exists e'. rewrite in_app_iff. auto. }
    apply Hgen. right. exact He.
  - unfold count. pose proof (storeBatch_length es m). lia.
  - apply Map_ext.
    + apply storeBatch_NoDup, storeBatch_NoDup, Hm.
    + apply storeBatch_keys_fixed. intros e He.
      apply storeBatch_keys_incl. right. apply in_map, He.
    + intros k. rewrite storeBatch_get.
      destruct (last_write_cases k es) as [Hid | [e He]].
      * apply Hid.
      * rewrite He. rewrite storeBatch_get. symmetry. apply He.
Qed.

End MapSet.

Section SearchMore.

Import InMemoryVectorStore MapSpec.

Context {N : Type} `{Number N}.

Lemma insert_sorted_length {A : Type} (compare : A -> A -> N) (x : A)
    (l : list A) :
  List.length (insert_sorted compare x l) = S (List.length l).
Proof.
  induction l as [| y l IH]; cbn [insert_sorted]; [reflexivity |].
  destruct (is_pos (compare x y)); cbn [List.length]; [rewrite IH |];
    reflexivity.
Qed.

Lemma sort_length {A : Type} (compare : A -> A -> N) (l : list A) :
  List.length (sort compare l) = List.length l.
Proof.
  induction l as [| x l IH]; cbn; [reflexivity |].
  unfold sort in IH. rewrite insert_sorted_length, IH. reflexivity.
Qed.

Lemma mapM_Forall2 {A B : Type} (f : A -> result B) (l : list A) :
  forall ys, mapM f l = Ok ys -> Forall2 (fun x y => f x = Ok y) l ys.
Proof.
  induction l as [| x l IH]; cbn [mapM]; intros ys E.
  - inversion E. constructor.
  - destruct (f x) as [y | m] eqn:Ex; cbn [bind] in E; [| discriminate].
    destruct (mapM f l) as [ys' | m]; cbn [bind] in E; [| discriminate].
    inversion E; subst. constructor; [exact Ex | apply IH; reflexivity].
Qed.

Lemma mapM_Err {A B : Type} (f : A -> result B) (l : list A) (msg : string) :
  mapM f l = Err msg -> exists x, In x l /\ f x = Err msg.
Proof.
  induction l as [| x l IH]; cbn [mapM]; intros E; [discriminate |].
  destruct (f x) as [y | m] eqn:Ex; cbn [bind] in E.
  - destruct (mapM f l) as [ys' | m]; cbn [bind] in E; [discriminate |].
    destruct (IH E) as (x' & Hin & Hx'). exists x'. split; [right |]; assumption.
  - inversion E; subst. exists x. split; [left; reflexivity | exact Ex].
Qed.

Lemma mapM_Ok {A B : Type} (f : A -> result B) (l : list A) :
  Forall (fun x => exists y, f x = Ok y) l -> exists ys, mapM f l = Ok ys.
Proof.
  induction 1 as [| x l [y Hy] _ [ys Hys]]; cbn [mapM].
  - exists []. reflexivity.
  - rewrite Hy. cbn [bind]. rewrite Hys. cbn [bind]. eexists. reflexivity.
Qed.

Lemma score_cases (q : list N) (e : EmbeddingVector N) :
  (comparable q e
   /\ exists s, cosineSimilarity q (vector e) = Ok s
                /\ score q e = Ok {| sr_documentChunk := documentChunk e;
                                     similarity := s |})
  \/ (vector e = None
      /\ score q e
         = Err "Cannot read properties of undefined (reading 'length')")
  \/ ((exists v, vector e = Some v /\ List.length v <> List.length q)
      /\ score q e = Err "Vectors must have the same length").
Proof.
  unfold score, cosineSimilarity, comparable.
  destruct (vector e) as [v |]; [| right; left; split; reflexivity].
  destruct (Nat.eqb_spec (List.length q) (List.length v)) as [E | Hne];
    cbn [negb bind].
  - left. split; [exists v; auto |].
    destruct (is_zero _); cbn [bind]; eexists; split; reflexivity.
  - right. right. split; [| reflexivity]. exists v. split; [reflexivity | congruence].
Qed.

Lemma comparable_not_rejected (q : list N) (e : EmbeddingVector N) (msg : string) :
  comparable q e -> score q e <> Err msg.
Proof.
  intros (v & Hv & Hlen) E.
  destruct (score_cases q e) as [(_ & s & _ & Hs) | [(Hn & _) | ((v' & Hv' & Hne) & _)]];
    congruence.
Qed.

(** X7: [search] accepts a query exactly when every candidate, an embedding of
    the scope or of the whole store, has a vector of the length of the
    query; otherwise it rejects with the error of [cosineSimilarity] on
    some candidate: the length mismatch, unless that candidate has no
    vector at all. *)
Theorem in_memory_search_accepts :
  forall (vectors : Store (N := N)) (q : list N) (topK : Z)
         (entityId_ : option string),
    ((exists results, search vectors q topK entityId_ = Ok results)
     <-> Forall (comparable q) (vectorsToSearch vectors entityId_))
    /\ (forall msg,
          search vectors q topK entityId_ = Err msg ->
          exists e,
            In e (vectorsToSearch vectors entityId_)
            /\ ((vector e = None
                 /\ msg = "Cannot read properties of undefined (reading 'length')")
                \/ ((exists v, vector e = Some v
                               /\ List.length v <> List.length q)
                    /\ msg = "Vectors must have the same length"))).
Proof.
  intros vectors q topK eid. unfold search. split; [split |].
  - intros [results E].
    destruct (mapM (score q) (vectorsToSearch vectors eid)) as [rs | m] eqn:Em;
      cbn [bind] in E; [| discriminate].
    apply mapM_Forall2 in Em. clear E.
    induction Em as [| e r es rs He _ IH]; constructor; [| exact IH].
    destruct (score_cases q e) as [(Hc & _) | [(_ & Hs) | (_ & Hs)]];
      [exact Hc | congruence | congruence].
  - intros Hall.
    destruct (@mapM_Ok _ _ (score q) (vectorsToSearch vectors eid)) as [rs Hrs].
    { apply Forall_impl with (2 := Hall). intros e Hc.
      destruct (score_cases q e) as [(_ & s & _ & Hs) | [(Hn & _) | ((v' & Hv' & Hne) & _)]].
      - eexists. exact Hs.
      - destruct Hc as (v & Hv & _). congruence.
      - destruct Hc as (v & Hv & Hl). congruence. }
    rewrite Hrs. cbn [bind]. eexists. reflexivity.
  - intros msg E.
    destruct (mapM (score q) (vectorsToSearch vectors eid)) as [rs | m] eqn:Em;
      cbn [bind] in E; [discriminate |].
    inversion E; subst m.
    destruct (mapM_Err _ _ Em) as (e & Hin & He). exists e. split; [exact Hin |].
    destruct (score_cases q e) as [(_ & s & _ & Hs) | [(Hn & Hs) | (Hv & Hs)]].
    + congruence.
    + left. split; [exact Hn | congruence].
    + right. split; [exact Hv | congruence].
Qed.

Lemma vectorsToSearch_scope (vectors : Store (N := N)) (s : string)
    (e : EmbeddingVector N) :
  s <> EmptyString ->
  In e (vectorsToSearch vectors (Some s)) ->
  entityId (documentChunk e) = s.
Proof.
  intros Hs. unfold vectorsToSearch, truthy_string.
  destruct (String.eqb_spec s EmptyString) as [? | _]; [contradiction |].
  cbn [negb]. intros Hin. apply filter_In in Hin.
  destruct Hin as [_ E]. apply String.eqb_eq in E. exact E.
Qed.

Lemma vectorsToSearch_stored (vectors : Store (N := N))
    (entityId_ : option string) (e : EmbeddingVector N) :
  In e (vectorsToSearch vectors entityId_) -> In e (Map_values vectors).
Proof.
  unfold vectorsToSearch.
  destruct entityId_ as [x |]; [| auto].
  destruct (truthy_string x); [| auto].
  intros Hin. apply filter_In in Hin. apply Hin.
Qed.

Lemma slice_In {A : Type} (l : list A) (a b : Z) (x : A) :
  In x (slice l a b) -> In x l.
Proof.
  unfold slice. intros Hx.
  assert (Hall : Forall (fun y => In y l) l) by (apply Forall_forall; auto).
  apply (Forall_skipn (Z.to_nat (relative_index a (Z.of_nat (List.length l)))))
    in Hall.
  apply (Forall_firstn
           (Z.to_nat (relative_index b (Z.of_nat (List.length l))
                      - relative_index a (Z.of_nat (List.length l))))) in Hall.
  rewrite Forall_forall in Hall. apply Hall, Hx.
Qed.

Lemma slice_top_length {A : Type} (l : list A) (topK : Z) :
  Z.of_nat (List.length (slice l 0 topK))
  = if (topK <? 0)%Z then Z.max (Z.of_nat (List.length l) + topK) 0
    else Z.min topK (Z.of_nat (List.length l)).
Proof.
  unfold slice, relative_index. cbn [Z.ltb Z.compare].
  rewrite length_firstn, length_skipn.
  destruct (Z.ltb_spec topK 0); lia.
Qed.

Lemma scored_from (q : list N) (es : list (EmbeddingVector N))
    (rs : list (SearchResult N)) :
  Forall2 (fun e r => score q e = Ok r) es rs ->
  forall r, In r rs ->
    exists e, In e es
              /\ sr_documentChunk r = documentChunk e
              /\ cosineSimilarity q (vector e) = Ok (similarity r).
Proof.
  induction 1 as [| e r' es rs He _ IH]; intros r Hr; [destruct Hr |].
  destruct Hr as [<- | Hr].
  - exists e. split; [left; reflexivity |].
    destruct (score_cases q e) as [(_ & s & Hcos & Hs) | [(_ & Hs) | (_ & Hs)]];
      try congruence.
    rewrite Hs in He. inversion He; subst r'. cbn.
    split; [reflexivity | exact Hcos].
  - destruct (IH r Hr) as (e' & Hin & Hrest). exists e'.
    split; [right; exact Hin | exact Hrest].
Qed.

(** X8: The results of an accepted search: each one is the chunk of a stored
    candidate with its cosine similarity to the query; with a scope that is
    not the empty string every result belongs to that entity; and their
    number is [min topK #candidates], or, for a negative [topK], what
    [slice] leaves when it drops [-topK] results from the end. *)
Theorem in_memory_search_results :
  forall (vectors : Store (N := N)) (q : list N) (topK : Z)
         (entityId_ : option string) (results : list (SearchResult N)),
    search vectors q topK entityId_ = Ok results ->
    (forall r, In r results ->
       exists e,
         In e (vectorsToSearch vectors entityId_)
         /\ In e (Map_values vectors)
         /\ sr_documentChunk r = documentChunk e
         /\ cosineSimilarity q (vector e) = Ok (similarity r))
    /\ (forall s, entityId_ = Some s -> s <> EmptyString ->
          forall r, In r results -> entityId (sr_documentChunk r) = s)
    /\ Z.of_nat (List.length results)
       = (let candidates :=
            Z.of_nat (List.length (vectorsToSearch vectors entityId_)) in
          if (topK <? 0)%Z then Z.max (candidates + topK) 0
          else Z.min topK candidates).
Proof.
  intros vectors q topK eid results. unfold search.
  destruct (mapM (score q) (vectorsToSearch vectors eid)) as [rs | m] eqn:Em;
    cbn [bind]; [| discriminate].
  intros E. inversion E; subst results. clear E.
  pose proof (mapM_Forall2 _ _ Em) as Hrs.
  assert (Hfrom : forall r, In r (slice (sort by_similarity_desc rs) 0 topK) ->
            exists e,
              In e (vectorsToSearch vectors eid)
              /\ sr_documentChunk r = documentChunk e
              /\ cosineSimilarity q (vector e) = Ok (similarity r)).
  { intros r Hr. apply slice_In in Hr.
    apply (sort_In by_similarity_desc r rs) in Hr.
    apply (@scored_from _ _ _ Hrs), Hr. }
  split; [| split].
  - intros r Hr. destruct (Hfrom r Hr) as (e & Hin & Hc & Hs).
    exists e. split; [exact Hin |].
    split; [exact (@vectorsToSearch_stored _ _ _ Hin) | split; assumption].
  - intros s -> Hs r Hr. destruct (Hfrom r Hr) as (e & Hin & Hc & _).
    rewrite Hc. exact (@vectorsToSearch_scope _ _ _ Hs Hin).
  - rewrite slice_top_length, sort_length.
    rewrite <- (Forall2_length Hrs). reflexivity.
Qed.

End SearchMore.

(** ** More on the cosine similarity over the reals *)

Section CosineMore.

Import InMemoryVectorStore.





End CosineMore.

(** *** Instances *)

Lemma in_memory_storeBatch_upsert_witness :
  let batch := [demo_embedding "chunk-0" [1%Z];
                demo_embedding "chunk-1" [2%Z];
                demo_embedding "chunk-0" [3%Z]] in
  NoDup (MapSpec.Map_keys (@nil (string * EmbeddingVector Z)))
  /\ InMemoryVectorStore.count (InMemoryVectorStore.storeBatch batch []) = 2%Z
  /\ MapSpec.Map_get "chunk-0" (InMemoryVectorStore.storeBatch batch [])
     = Some (demo_embedding "chunk-0" [3%Z])
  /\ InMemoryVectorStore.storeBatch batch
       (InMemoryVectorStore.storeBatch batch [])
     = InMemoryVectorStore.storeBatch batch [].
Proof.
  intros batch.
  assert (Hn : NoDup (MapSpec.Map_keys (@nil (string * EmbeddingVector Z))))
    by constructor.
  split; [exact Hn |].
  destruct (@in_memory_storeBatch_upsert Z batch [] Hn) as (_ & _ & _ & _ & Hidem).
  split; [reflexivity |]. split; [reflexivity | exact Hidem].
Defined.

Lemma in_memory_search_results_witness :
  let vectors :=
    InMemoryVectorStore.storeBatch
      [demo_embedding "chunk-0" [1%float; 0%float];
       demo_embedding "chunk-1" [0%float; 1%float]] [] in
  exists results,
    InMemoryVectorStore.search vectors [1%float; 0%float] 1
      (Some "component:default/demo") = Ok results
    /\ Z.of_nat (List.length results) = 1%Z
    /\ map (fun r => entityId (sr_documentChunk r)) results
       = ["component:default/demo"].
Proof.
  intros vectors.
  destruct (InMemoryVectorStore.search vectors [1%float; 0%float] 1
              (Some "component:default/demo")) as [results | m] eqn:E;
    [| vm_compute in E; discriminate].
  exists results. split; [reflexivity |].
  destruct (@in_memory_search_results float _ _ _ _ _ _ E) as (_ & _ & Hlen).
  split; [exact Hlen |].
  vm_compute in E. inversion E; subst results. reflexivity.
Defined.

(** ** More on the persistent store *)

Section PgMore.

Import Async PgVectorStore PgSpec PgFrame.

Context {N : Type} `{Number N}.

Implicit Types s : State N.

Lemma frame_refl s : frame s s.
Proof. repeat split. Qed.

Lemma frame_trans s s1 s2 : frame s s1 -> frame s1 s2 -> frame s s2.
Proof.
  unfold frame. intros (A1 & A2 & A3 & A4 & A5) (B1 & B2 & B3 & B4 & B5).
  repeat split; congruence.
Qed.

Lemma io_frame s :
  frame s (snd (io s))
  /\ (fst (io s) = Ok tt \/ exists e, fst (io s) = Err e)
  /\ (fst (io s) = Ok tt -> session (snd (io s)) = session s)
  /\ fst (io s) = (if nth 0 (faults s) false
                   then Err "Connection terminated unexpectedly"
                   else Ok tt)
  /\ faults (snd (io s)) = tl (faults s).
Proof.
  unfold io, frame. destruct (faults s) as [| [|] f] eqn:Ef; cbn;
    repeat split; try discriminate; try reflexivity; try assumption;
    solve [intros; reflexivity | left; reflexivity
          | right; eexists; reflexivity].
Qed.

Lemma pool_connect_frame s :
  frame s (snd (pool_connect s))
  /\ (fst (pool_connect s) = Ok tt ->
      pool_ended s = false /\ session (snd (pool_connect s)) = session s)
  /\ fst (pool_connect s)
     = (if pool_ended s
        then Err "Cannot use a pool after calling end on the pool"
        else if nth 0 (faults s) false
             then Err "Connection terminated unexpectedly"
             else Ok tt)
  /\ faults (snd (pool_connect s))
     = (if pool_ended s then faults s else tl (faults s)).
Proof.
  unfold pool_connect, bindM, get. cbv beta iota.
  destruct (pool_ended s) eqn:Hp; cbn [throw fst snd].
  - split; [apply frame_refl |]. split; [discriminate |]. split; reflexivity.
  - destruct (io_frame s) as (Hf & _ & Hs & Hr & Hfa).
    split; [exact Hf |]. split; [| split; assumption].
    intros Hok. split; [reflexivity | apply Hs, Hok].
Qed.

Lemma try_rethrow {A : Type} (m : M (State N) A) s :
  try_catch m (fun error => throw error) s = m s.
Proof.
  unfold try_catch, throw. destruct (m s) as [[a | e] s1]; reflexivity.
Qed.

Lemma guarded_eq {A : Type} (body : M (State N) A) s :
  bindM (@ensureInitialized N) (fun _ => bindM (@pool_connect N) (fun _ => body)) s
  = if negb (initialized s)
    then (Err "PgVectorStore not initialized. Call initialize() first.", s)
    else if pool_ended s
    then (Err "Cannot use a pool after calling end on the pool", s)
    else match io s with
         | (Ok _, s1) => body s1
         | (Err e, s1) => (Err e, s1)
         end.
Proof.
  rewrite bindM_eq, ensureInitialized_eq.
  destruct (initialized s); cbn [negb]; [| reflexivity].
  rewrite bindM_eq, pool_connect_eq.
  destruct (pool_ended s); reflexivity.
Qed.

(** X11: Before [initialize()] every guarded call fails with the same error and
    does nothing else: no connection is requested and the state of the
    store and of the database is what it was.  This holds for
    [storeBatch([])] as well. *)
Theorem calls_before_initialize_fail :
  forall (cosine_distance : list N -> list N -> N) s
         (e : EmbeddingVector N) (es : list (EmbeddingVector N))
         (q : list N) (topK : Z) (entityId_ : option string),
    initialized s = false ->
    let rejected {A : Type} (outcome : result A * State N) :=
      outcome
      = (Err "PgVectorStore not initialized. Call initialize() first.", s) in
    rejected (store e s)
    /\ rejected (storeBatch es s)
    /\ rejected (search cosine_distance q topK entityId_ s)
    /\ rejected (clear entityId_ s)
    /\ rejected (count entityId_ s)
    /\ rejected (getStats s).
Proof.
  intros cd s e es q topK eid Hi rejected. subst rejected. cbv beta.
  unfold store, search, clear, count, getStats.
  rewrite !guarded_eq, Hi. cbn [negb].
  repeat split.
  unfold storeBatch. rewrite bindM_eq, ensureInitialized_eq, Hi. reflexivity.
Qed.

(** *** [initialize] *)

Lemma io_quiet s : faults s = [] -> io s = (Ok tt, s).
Proof. unfold io. intros ->. reflexivity. Qed.

Lemma checked_step (flag : State N -> bool) (message : string) s :
  let m := bindM (@pool_connect N) (fun _ =>
             bindM (@io N) (fun _ =>
               bindM get (fun s' =>
                 if negb (flag s') then throw message else ret tt))) in
  frame s (snd (m s))
  /\ (fst (m s) = Ok tt ->
      pool_ended s = false /\ flag (snd (m s)) = true)
  /\ (faults s = [] -> pool_ended s = false ->
      m s = if flag s then (Ok tt, s) else (Err message, s)).
Proof.
  intros m. subst m. rewrite bindM_eq.
  destruct (pool_connect_frame s) as (Hf & Hok & _ & _).
  split; [| split].
  - destruct (pool_connect s) as [[[] | e] s1]; cbn [fst snd] in *;
      [| exact Hf].
    rewrite bindM_eq. destruct (io_frame s1) as (Hf1 & _).
    destruct (io s1) as [[[] | e] s2]; cbn [fst snd] in *;
      [| exact (frame_trans Hf Hf1)].
    unfold bindM, get. destruct (flag s2); exact (frame_trans Hf Hf1).
  - destruct (pool_connect s) as [[[] | e] s1]; cbn [fst snd] in *;
      [| discriminate].
    rewrite bindM_eq. destruct (io s1) as [[[] | e] s2]; [| discriminate].
    unfold bindM, get. destruct (flag s2) eqn:Hflag; cbn; [| discriminate].
    intros _. split; [apply Hok; reflexivity | exact Hflag].
  - intros Hq Hp. rewrite pool_connect_eq, Hp, (io_quiet _ Hq), bindM_eq,
      (io_quiet _ Hq).
    unfold bindM, get. destruct (flag s); reflexivity.
Qed.

Lemma testConnection_step s :
  frame s (snd (testConnection s))
  /\ (fst (testConnection s) = Ok tt -> pool_ended s = false)
  /\ (faults s = [] -> pool_ended s = false -> testConnection s = (Ok tt, s)).
Proof.
  unfold testConnection, query_plain. rewrite bindM_eq.
  destruct (pool_connect_frame s) as (Hf & Hok & _ & _).
  split; [| split].
  - destruct (pool_connect s) as [[[] | e] s1]; cbn [fst snd] in *;
      [| exact Hf].
    destruct (io_frame s1) as (Hf1 & _). exact (frame_trans Hf Hf1).
  - destruct (pool_connect s) as [[[] | e] s1]; cbn [fst snd] in *;
      [| discriminate].
    intros _. apply Hok. reflexivity.
  - intros Hq Hp. rewrite pool_connect_eq, Hp, (io_quiet _ Hq).
    apply io_quiet, Hq.
Qed.

Lemma initialize_eq s :
  initialize s
  = if initialized s then (Ok tt, s)
    else
      match bindM (@testConnection N) (fun _ =>
              bindM (@verifyPgVector N) (fun _ =>
                bindM (@verifySchema N) (fun _ =>
                  modify (with_initialized true)))) s with
      | (Ok a, s1) => (Ok a, s1)
      | (Err error, s1) =>
          (Err ("PgVectorStore initialization failed: " ++ error)%string, s1)
      end.
Proof.
  unfold initialize, bindM at 1, get. cbv beta iota.
  destruct (initialized s); reflexivity.
Qed.

Lemma initialize_cases s :
  match initialize s with
  | (Ok _, s1) =>
      initialized s1 = true
      /\ table s1 = table s
      /\ (initialized s = false ->
          pool_ended s = false
          /\ extension_installed s = true /\ schema_exists s = true)
      /\ initialize s1 = (Ok tt, s1)
  | (Err message, s1) =>
      initialized s = false
      /\ initialized s1 = false
      /\ table s1 = table s
      /\ exists error,
           message
           = ("PgVectorStore initialization failed: " ++ error)%string
  end.
Proof.
  rewrite initialize_eq.
  destruct (initialized s) eqn:Hi.
  - repeat split; try discriminate; try assumption.
    rewrite initialize_eq, Hi. reflexivity.
  - rewrite bindM_eq.
    destruct (testConnection_step s) as (Hf0 & Hp0 & _).
    destruct (testConnection s) as [[[] | e] s1]; cbn [fst snd] in *.
    2:{ destruct Hf0 as (Ht & Hin & _). cbn.
        repeat split; try congruence. eexists. reflexivity. }
    unfold verifyPgVector. rewrite bindM_eq.
    destruct (checked_step (@extension_installed N)
                "pgvector extension is not installed. Please run: CREATE EXTENSION vector;" s1)
      as (Hf1 & Hp1 & _). cbv zeta in Hf1, Hp1.
    match goal with
    | |- context [bindM pool_connect ?k s1] =>
        destruct (bindM pool_connect k s1) as [[[] | e] s2]
    end; cbn [fst snd] in *.
    2:{ pose proof (frame_trans Hf0 Hf1) as (Ht & Hin & _). cbn.
        repeat split; try congruence. eexists. reflexivity. }
    unfold verifySchema. rewrite bindM_eq.
    destruct (checked_step (@schema_exists N)
                "Embeddings table not found. Run migrations first." s2)
      as (Hf2 & Hp2 & _). cbv zeta in Hf2, Hp2.
    match goal with
    | |- context [bindM pool_connect ?k s2] =>
        destruct (bindM pool_connect k s2) as [[[] | e] s3]
    end; cbn [fst snd] in *.
    2:{ pose proof (frame_trans (frame_trans Hf0 Hf1) Hf2) as (Ht & Hin & _).
        cbn. repeat split; try congruence. eexists. reflexivity. }
    unfold modify. cbn.
    pose proof (frame_trans (frame_trans Hf0 Hf1) Hf2)
      as (Ht & Hin & Hpe & Hex & Hsc).
    destruct (Hp1 eq_refl) as [_ Hext]. destruct (Hp2 eq_refl) as [_ Hsch].
    destruct Hf2 as (_ & _ & _ & Hex2 & _).
    repeat split; try congruence.
    apply Hp0. reflexivity.
Qed.

Lemma initialize_quiet s :
  faults s = [] -> pool_ended s = false ->
  initialize s
  = if initialized s then (Ok tt, s)
    else if negb (extension_installed s)
    then (Err ("PgVectorStore initialization failed: "
               ++ "pgvector extension is not installed. Please run: CREATE EXTENSION vector;")%string,
          s)
    else if negb (schema_exists s)
    then (Err ("PgVectorStore initialization failed: "
               ++ "Embeddings table not found. Run migrations first.")%string,
          s)
    else (Ok tt, with_initialized true s).
Proof.
  intros Hq Hp. rewrite initialize_eq.
  destruct (initialized s) eqn:Hi; [reflexivity |].
  rewrite bindM_eq.
  destruct (testConnection_step s) as (_ & _ & Ht). rewrite (Ht Hq Hp).
  unfold verifyPgVector. rewrite bindM_eq.
  destruct (checked_step (@extension_installed N)
              "pgvector extension is not installed. Please run: CREATE EXTENSION vector;" s)
    as (_ & _ & Hv). cbv zeta in Hv. rewrite (Hv Hq Hp).
  destruct (extension_installed s); cbn [negb]; [| reflexivity].
  unfold verifySchema. rewrite bindM_eq.
  destruct (checked_step (@schema_exists N)
              "Embeddings table not found. Run migrations first." s)
    as (_ & _ & Hv'). cbv zeta in Hv'. rewrite (Hv' Hq Hp).
  destruct (schema_exists s); reflexivity.
Qed.

(** X12: [initialize()] on any state.  When it resolves, the store is
    initialized, and unless it already was, the pool is live, the extension
    is installed and the table exists; a second call then returns at once.
    When it rejects, the store was not and is not initialized, and the
    message starts with the prefix of the [catch] clause, followed by the
    rendering of the caught error.  The table is never touched.  With a
    live pool and no failure of input and output it resolves exactly when
    the extension and the table are there. *)
Theorem initialize_outcome :
  forall s,
    match initialize s with
    | (Ok _, s1) =>
        initialized s1 = true
        /\ table s1 = table s
        /\ (initialized s = false ->
            pool_ended s = false
            /\ extension_installed s = true /\ schema_exists s = true)
        /\ initialize s1 = (Ok tt, s1)
    | (Err message, s1) =>
        initialized s = false
        /\ initialized s1 = false
        /\ table s1 = table s
        /\ exists error,
             message
             = ("PgVectorStore initialization failed: " ++ error)%string
    end
    /\ (faults s = [] -> pool_ended s = false ->
        (fst (initialize s) = Ok tt
         <-> initialized s || (extension_installed s && schema_exists s)
             = true)).
Proof.
  intros s. split; [apply initialize_cases |].
  intros Hq Hp. rewrite (initialize_quiet s Hq Hp).
  destruct (initialized s); [split; reflexivity |].
  destruct (extension_installed s); cbn; [| split; discriminate].
  destruct (schema_exists s); cbn; split; (reflexivity || discriminate).
Qed.

(** *** [store] *)






(** *** [clear] and [count] *)

Lemma filter_filter_negb {A : Type} (f : A -> bool) (l : list A) :
  filter f (filter (fun x => negb (f x)) l) = [].
Proof.
  induction l as [| x l IH]; cbn; [reflexivity |].
  destruct (f x) eqn:Hx; cbn; [exact IH |]. rewrite Hx. exact IH.
Qed.

Lemma query_DELETE_table (filter_ : option string) s :
  match query_DELETE filter_ s with
  | (Ok _, s1) =>
      table s1 = filter (fun r => negb (matches filter_ r)) (table s)
  | (Err _, s1) => table s1 = table s
  end.
Proof.
  unfold query_DELETE. rewrite bindM_eq.
  destruct (io_frame s) as ((Ht & _) & _).
  destruct (io s) as [[[] | e] s1]; cbn [fst snd] in *; [| exact Ht].
  unfold bindM, get, modify, ret. cbn. rewrite Ht. reflexivity.
Qed.

(** X14: [clear(entityId)] deletes the rows of the entity and no other row;
    [clear()] and, as the empty string is falsy, [clear('')] delete every
    row.  A failure leaves the table as it is, and a failure of the
    [VACUUM] that follows an unscoped deletion is not reported.  After a
    [clear] that resolved, [count] with the same argument returns 0 when it
    resolves. *)
Theorem pg_clear_effect :
  forall (entityId_ : option string) s,
    match clear entityId_ s with
    | (Ok _, s1) =>
        table s1 = filter (fun r => negb (in_scope entityId_ r)) (table s)
        /\ (entityId_ = None \/ entityId_ = Some EmptyString -> table s1 = [])
        /\ (forall n s2, count entityId_ s1 = (Ok n, s2) -> n = 0%Z)
    | (Err _, s1) => table s1 = table s
    end.
Proof.
  intros eid s. unfold clear, in_scope. rewrite guarded_eq.
  destruct (initialized s) eqn:Hi; cbn [negb]; [| reflexivity].
  destruct (pool_ended s) eqn:Hp; [reflexivity |].
  destruct (io_frame s) as ((Ht & _) & _).
  destruct (io s) as [[[] | e] sa]; cbn [fst snd] in *; [| exact Ht].
  rewrite try_rethrow, bindM_eq.
  pose proof (query_DELETE_table (entity_filter eid) sa) as Hdel.
  destruct (query_DELETE (entity_filter eid) sa) as [[n | e] sb];
    [| congruence].
  assert (Hfinal : forall sc, table sc = table sb ->
            table sc
            = filter (fun r => negb (matches (entity_filter eid) r)) (table s)
            /\ (eid = None \/ eid = Some EmptyString -> table sc = [])
            /\ (forall n s2, count eid sc = (Ok n, s2) -> n = 0%Z)).
  { intros sc Hsc. rewrite Hsc, Hdel, Ht. split; [reflexivity |]. split.
    - assert (Hall : forall l : list (Row N),
                 filter (fun r => negb (matches None r)) l = [])
        by (induction l; cbn; auto).
      intros [-> | ->]; apply Hall.
    - intros k s2. unfold count. rewrite guarded_eq.
      destruct (initialized sc); cbn [negb]; [| discriminate].
      destruct (pool_ended sc); [discriminate |].
      destruct (io_frame sc) as ((Htc & _) & _).
      destruct (io sc) as [[[] | e] sd]; cbn [fst snd] in *; [| discriminate].
      rewrite try_rethrow. unfold query_COUNT. rewrite bindM_eq.
      destruct (io_frame sd) as ((Htd & _) & _).
      destruct (io sd) as [[[] | e] se]; cbn [fst snd] in *; [| discriminate].
      unfold bindM, get, ret. cbn. intros E. inversion E; subst.
      rewrite Htd, Htc, Hsc, Hdel, filter_filter_negb. reflexivity. }
  destruct (entity_filter eid) eqn:Hfilter.
  - cbn. apply Hfinal. reflexivity.
  - unfold try_catch, query_plain, ret.
    destruct (io_frame sb) as ((Htb & _) & _).
    destruct (io sb) as [[[] | e] sc]; cbn [fst snd] in *; apply Hfinal;
      exact Htb.
Qed.

(** *** [search] *)



(** *** [healthCheck] and [getStats] *)

(** X16: [healthCheck()] never rejects and never touches the table; it does not
    depend on [initialize()]; and it answers [true] exactly when the pool
    is live and neither the connection nor the query fails. *)
Theorem pg_healthCheck_total :
  forall s,
    fst (healthCheck s)
    = Ok (negb (pool_ended s)
          && negb (nth 0 (faults s) false)
          && negb (nth 1 (faults s) false))
    /\ table (snd (healthCheck s)) = table s
    /\ initialized (snd (healthCheck s)) = initialized s.
Proof.
  intros s. unfold healthCheck, try_catch, query_plain.
  rewrite bindM_eq, pool_connect_eq.
  destruct (pool_ended s); [repeat split |]. cbn [negb andb].
  destruct (io_frame s) as ((Ht & Hi & _) & _ & _ & Hr & Hfa).
  destruct (io s) as [[[] | e] sa]; cbn [fst snd] in *.
  - rewrite bindM_eq.
    destruct (io_frame sa) as ((Hta & Hia & _) & _ & _ & Hra & _).
    assert (Hn0 : nth 0 (faults s) false = false)
      by (destruct (nth 0 (faults s) false); [discriminate | reflexivity]).
    assert (Hn1 : nth 1 (faults s) false = nth 0 (faults sa) false)
      by (rewrite Hfa; destruct (faults s); reflexivity).
    rewrite Hn0, Hn1. cbn [negb andb].
    destruct (io sa) as [[[] | e] sb]; cbn [fst snd ret] in *.
    + destruct (nth 0 (faults sa) false); [discriminate |].
      repeat split; congruence.
    + destruct (nth 0 (faults sa) false); [| discriminate].
      repeat split; congruence.
  - destruct (nth 0 (faults s) false); [| discriminate].
    repeat split; assumption.
Qed.

Lemma count_distinct_incl (l l' : list string) :
  incl l l' ->
  (List.length (nodup String.string_dec l)
   <= List.length (nodup String.string_dec l'))%nat.
Proof.
  intros Hincl. apply NoDup_incl_length; [apply NoDup_nodup |].
  intros x Hx. apply nodup_In. apply Hincl. apply nodup_In in Hx. exact Hx.
Qed.

(** X17: The numbers [getStats()] returns fit together: [totalVectors] is the
    number of rows, and what [count()] returns on the same state; no more
    entities than rows; the entities of each source are among the
    entities, and every entity is of one source at least. *)
Theorem pg_getStats_consistent :
  forall s s1 (stats : Stats),
    getStats s = (Ok stats, s1) ->
    totalVectors stats = Z.of_nat (List.length (table s))
    /\ fst (count None s) = Ok (totalVectors stats)
    /\ (0 <= uniqueEntities stats <= totalVectors stats)%Z
    /\ (0 <= catalogEntities stats <= uniqueEntities stats)%Z
    /\ (0 <= techdocsEntities stats <= uniqueEntities stats)%Z
    /\ (uniqueEntities stats
        <= catalogEntities stats + techdocsEntities stats)%Z.
Proof.
  intros s s1 stats. unfold getStats, count. rewrite !guarded_eq.
  destruct (initialized s); cbn [negb]; [| discriminate].
  destruct (pool_ended s); [discriminate |].
  destruct (io_frame s) as ((Ht & _) & _).
  destruct (io s) as [[[] | e] sa]; cbn [fst snd] in *; [| discriminate].
  rewrite !try_rethrow. unfold query_SELECT_stats, query_COUNT.
  rewrite !bindM_eq.
  destruct (io_frame sa) as ((Hta & _) & _).
  destruct (io sa) as [[[] | e] sb]; cbn [fst snd] in *; [| discriminate].
  unfold bindM, get, ret. cbv beta iota.
  intros E. inversion E; subst s1 stats. clear E.
  cbn [totalVectors uniqueEntities catalogEntities techdocsEntities
       entity_filter matches fst].
  rewrite Hta, Ht. unfold count_distinct_entities.
  set (rows := table s).
  split; [reflexivity |]. split.
  { f_equal. f_equal. f_equal. clear. induction rows as [| r rows IH];
      cbn; [reflexivity | f_equal; exact IH]. }
  assert (Hsub : forall f : Row N -> bool,
             incl (map (@r_entity_id N) (filter f rows))
                  (map (@r_entity_id N) rows)).
  { intros f x Hx. apply in_map_iff in Hx. destruct Hx as (r & <- & Hr).
    apply filter_In in Hr. apply in_map, Hr. }
  pose proof (count_distinct_incl (Hsub (fun r => match r_source r with
                                                 | catalog => true
                                                 | techdocs => false
                                                 end))) as Hc.
  pose proof (count_distinct_incl (Hsub (fun r => match r_source r with
                                                 | catalog => false
                                                 | techdocs => true
                                                 end))) as Htd.
  pose proof (NoDup_incl_length
                (NoDup_nodup String.string_dec (map (@r_entity_id N) rows))
                (l' := map (@r_entity_id N) rows)) as Hu.
  rewrite length_map in Hu.
  assert (Hcover :
            (List.length (nodup String.string_dec (map (@r_entity_id N) rows))
             <= List.length
                  (nodup String.string_dec
                     (map (@r_entity_id N)
                        (filter (fun r => match r_source r with
                                          | catalog => true
                                          | techdocs => false
                                          end) rows))
                   ++ nodup String.string_dec
                        (map (@r_entity_id N)
                           (filter (fun r => match r_source r with
                                             | catalog => false
                                             | techdocs => true
                                             end) rows))))%nat).
  { apply NoDup_incl_length; [apply NoDup_nodup |].
    intros x Hx. apply nodup_In in Hx. apply in_map_iff in Hx.
    destruct Hx as (r & <- & Hr). apply in_app_iff.
    destruct (r_source r) eqn:Hsrc; [left | right];
      apply nodup_In, in_map, filter_In; rewrite Hsrc; auto. }
  rewrite length_app in Hcover.
  specialize (Hu ltac:(intros x Hx; apply nodup_In in Hx; exact Hx)).
  repeat split; lia.
Qed.

End PgMore.

(** *** Instances *)

Lemma calls_before_initialize_fail_witness :
  let s := PgVectorStore.new (N := float) [demo_row "chunk-0" []] [true] true true in
  PgVectorStore.initialized s = false
  /\ PgVectorStore.storeBatch [] s
     = (Err "PgVectorStore not initialized. Call initialize() first.", s)
  /\ PgVectorStore.count None s
     = (Err "PgVectorStore not initialized. Call initialize() first.", s).
Proof.
  intros s.
  assert (Hi : PgVectorStore.initialized s = false) by reflexivity.
  split; [exact Hi |].
  destruct (@calls_before_initialize_fail float _ (fun _ _ => 0%float) s
              (demo_embedding "chunk-0" []) [] [] 1 None Hi)
    as (_ & Hbatch & _ & _ & Hcount & _).
  split; [exact Hbatch | exact Hcount].
Defined.



Lemma pg_getStats_consistent_witness :
  let s := demo_pg (N := Z) [demo_row "chunk-0" []; demo_row "chunk-1" []] in
  exists stats s1,
    PgVectorStore.getStats s = (Ok stats, s1)
    /\ PgVectorStore.totalVectors stats = 2%Z
    /\ PgVectorStore.uniqueEntities stats = 1%Z.
Proof.
  intros s.
  destruct (PgVectorStore.getStats s) as [[stats | m] s1] eqn:E;
    [| vm_compute in E; discriminate].
  exists stats, s1. split; [reflexivity |].
  destruct (@pg_getStats_consistent Z s s1 stats E) as (Htotal & _).
  split; [exact Htotal |].
  vm_compute in E. inversion E; subst stats. reflexivity.
Defined.

(** ** The chat completion *)

Section Chat.

Import OllamaLLMService.

(** X18: [chat] resolves exactly on a response with an ok status whose body
    parses to an object with a [message] object with a truthy [content],
    and resolves to that content; so an empty completion is rejected.  A
    rejection carries the prefix of the [catch] clause. *)
Theorem chat_outcome :
  forall (messages : list (string * string)) (fetched : result Response),
    (forall completion,
        chat messages fetched = Ok completion
        <-> exists response fields message_fields,
              fetched = Ok response
              /\ ok response = true
              /\ json response = Ok (JObject fields)
              /\ lookup "message" fields = Some (JObject message_fields)
              /\ lookup "content" message_fields = Some completion
              /\ truthy completion = true)
    /\ chat messages fetched <> Ok (JString EmptyString)
    /\ (forall message,
          chat messages fetched = Err message ->
          exists error,
            message = ("Chat completion failed: " ++ error)%string).
Proof.
  intros messages fetched.
  assert (Hiff : forall completion,
             chat messages fetched = Ok completion
             <-> exists response fields message_fields,
                   fetched = Ok response
                   /\ ok response = true
                   /\ json response = Ok (JObject fields)
                   /\ lookup "message" fields = Some (JObject message_fields)
                   /\ lookup "content" message_fields = Some completion
                   /\ truthy completion = true).
  { intros completion. unfold chat, request_chat. split.
    - destruct fetched as [response | e]; cbn [bind]; [| discriminate].
      destruct (ok response) eqn:Hok; cbn [negb].
      2:{ destruct (text response); cbn [bind]; discriminate. }
      destruct (json response) as [j | e] eqn:Hj; cbn [bind]; [| discriminate].
      destruct j as [| b | x | str | items | fields]; cbn [get_message bind];
        try discriminate.
      destruct (lookup "message" fields) as [m |] eqn:Hm;
        cbn [checked_content]; [| discriminate].
      destruct (truthy m) eqn:Htm; cbn [negb]; [| discriminate].
      destruct m as [| b | x | str | items | message_fields];
        cbn [get_content]; try discriminate.
      destruct (lookup "content" message_fields) as [c |] eqn:Hc;
        [| discriminate].
      destruct (truthy c) eqn:Htc; cbn [negb]; [| discriminate].
      intros E. inversion E; subst c.
      exists response, fields, message_fields. repeat split; assumption.
    - intros (response & fields & message_fields
              & -> & Hok & Hj & Hm & Hc & Htc).
      cbn [bind]. rewrite Hok, Hj. cbn [negb bind get_message].
      rewrite Hm. cbn [checked_content truthy negb get_content].
      rewrite Hc, Htc. reflexivity. }
  split; [exact Hiff |]. split.
  - intros E. apply Hiff in E.
    destruct E as (_ & _ & _ & _ & _ & _ & _ & _ & Ht). discriminate.
  - intros message. unfold chat.
    destruct (request_chat fetched); [discriminate |].
    intros E. inversion E. eexists. reflexivity.
Qed.

End Chat.

(** ** The configuration and the factory *)

Section Configuration.

Import ConfigService VectorStoreFactory.

Lemma string_or_truthy (x : option string) (d : string) :
  d <> EmptyString -> string_or x d <> EmptyString.
Proof.
  intros Hd. unfold string_or, truthy_string.
  destruct x as [s |]; [| exact Hd].
  destruct (String.eqb_spec s EmptyString); cbn; assumption.
Qed.

Lemma number_or_nonzero (x : option Z) (d : Z) :
  d <> 0%Z -> number_or x d <> 0%Z.
Proof.
  intros Hd. unfold number_or. destruct x as [n |]; [| exact Hd].
  destruct (Z.eqb_spec n 0); assumption.
Qed.


Lemma loadConfig_vectorStore (config : Config) (c : AskAiConfig) :
  loadConfig config = Ok c ->
  (isPostgresVectorStoreEnabled c = true
   <-> askAi_vectorStore_type config = Some "postgresql")
  /\ (forall pg, vectorStore c = postgresql pg ->
        getPostgresConfig c = Ok pg
        /\ password pg <> EmptyString /\ host pg <> EmptyString
        /\ database pg <> EmptyString /\ user pg <> EmptyString
        /\ port pg <> 0%Z).
Proof.
  unfold loadConfig.
  destruct (loadVectorStoreConfig config) as [vs | e] eqn:Hvs; cbn [bind];
    [| discriminate].
  intros E. inversion E; subst c. clear E.
  unfold isPostgresVectorStoreEnabled, getPostgresConfig. cbn [vectorStore].
  unfold loadVectorStoreConfig, loadPostgresConfig in Hvs.
  destruct (askAi_vectorStore_type config) as [type_ |].
  2:{ inversion Hvs; subst vs. split; [split; discriminate | discriminate]. }
  destruct (String.eqb_spec type_ "postgresql") as [Etype | Hne].
  2:{ inversion Hvs; subst vs.
      split; [split; [discriminate | congruence] | discriminate]. }
  subst type_.
  destruct (truthy_string (string_or (pg_password config) EmptyString))
    eqn:Hpw; cbn [negb bind] in Hvs; [| discriminate].
  inversion Hvs; subst vs. split; [split; reflexivity |].
  intros pg Hpg. inversion Hpg; subst pg. cbn.
  split; [reflexivity |].
  split.
  { unfold truthy_string in Hpw. intros Hempty. rewrite Hempty in Hpw.
    discriminate. }
  repeat (split; [first [apply number_or_nonzero | apply string_or_truthy];
                  discriminate |]).
  apply number_or_nonzero. discriminate.
Qed.

(** X20: A configuration that was loaded has no falsy number or string where a
    default exists: in particular [chunkOverlap] cannot be set to 0, which
    is replaced by 50.  Its store is 'postgresql' exactly when the type key
    says so, then with a password that is not empty, and every other type
    gives the in-memory store. *)
Theorem loadConfig_defaults :
  forall (config : Config) (c : AskAiConfig),
    loadConfig config = Ok c ->
    chunkSize c <> 0%Z /\ chunkOverlap c <> 0%Z /\ defaultTopK c <> 0%Z
    /\ defaultModel c <> EmptyString /\ embeddingModel c <> EmptyString
    /\ ollamaBaseUrl c <> EmptyString /\ ragStrategy c <> EmptyString
    /\ (askAi_chunkOverlap config = Some 0%Z -> chunkOverlap c = 50%Z)
    /\ (isPostgresVectorStoreEnabled c = true
        <-> askAi_vectorStore_type config = Some "postgresql")
    /\ (forall pg, vectorStore c = postgresql pg ->
          getPostgresConfig c = Ok pg
          /\ password pg <> EmptyString /\ host pg <> EmptyString
          /\ database pg <> EmptyString /\ user pg <> EmptyString
          /\ port pg <> 0%Z).
Proof.
  intros config c Hload.
  pose proof (loadConfig_vectorStore config Hload) as Hvs.
  unfold loadConfig in Hload.
  destruct (loadVectorStoreConfig config) as [vs | e]; cbn [bind] in Hload;
    [| discriminate].
  inversion Hload; subst c. clear Hload.
  cbn [chunkSize chunkOverlap defaultTopK defaultModel embeddingModel
       ollamaBaseUrl ragStrategy].
  repeat (split; [first [apply number_or_nonzero | apply string_or_truthy];
                  discriminate |]).
  split; [intros ->; reflexivity | exact Hvs].
Qed.

(** X21: On a configuration that was loaded, [validate] can report the port
    only: the other checks repeat what [loadConfig] has established. *)
Theorem validate_loaded_config :
  forall (config : Config) (c : AskAiConfig),
    loadConfig config = Ok c ->
    validate c
    = match vectorStore c with
      | postgresql pg =>
          if ((1 <=? port pg) && (port pg <=? 65535))%Z
          then (true, [])
          else (false, ["PostgreSQL port must be between 1 and 65535"])
      | memory => (true, [])
      end.
Proof.
  intros config c Hload.
  destruct (loadConfig_vectorStore config Hload) as (_ & Hpg).
  unfold validate, getVectorStoreType, getPostgresConfig.
  destruct (vectorStore c) as [| pg]; [reflexivity |].
  cbn [String.eqb Ascii.eqb Bool.eqb].
  destruct (Hpg pg eq_refl) as (_ & Hpw & Hh & Hd & Hu & Hport).
  assert (Ht : forall s, s <> EmptyString -> truthy_string s = true).
  { intros s Hs. unfold truthy_string.
    destruct (String.eqb_spec s EmptyString); [contradiction | reflexivity]. }
  rewrite (Ht _ Hpw), (Ht _ Hh), (Ht _ Hd), (Ht _ Hu). cbn [negb app].
  destruct (Z.eqb_spec (port pg) 0) as [? | _]; [contradiction |].
  cbn [negb andb].
  destruct (Z.ltb_spec (port pg) 1), (Z.ltb_spec 65535 (port pg)),
    (Z.leb_spec 1 (port pg)), (Z.leb_spec (port pg) 65535);
    try lia; reflexivity.
Qed.

End Configuration.

(** ** The factory *)

Section FactoryOutcome.

Import PgVectorStore ConfigService VectorStoreFactory.

Context {N : Type}.

(** X22: [create] never rejects.  It returns the persistent store only when
    [initialize()] resolved, so that the store is initialized; otherwise it
    returns an empty in-memory store, and for a 'postgresql' configuration
    that is exactly when [createStrict] rejects, with the error of
    [initialize()].  Where [createStrict] resolves, both return the same
    store. *)
Theorem create_outcome :
  forall (config : AskAiConfig) (db : State N),
    match create config db with
    | Ok (Pg store) =>
        isPostgresVectorStoreEnabled config = true
        /\ initialize db = (Ok tt, store)
        /\ initialized store = true
        /\ createStrict config db = Ok (Pg store)
    | Ok (InMemory vectors) =>
        vectors = []
        /\ (if isPostgresVectorStoreEnabled config
            then exists error,
                   createStrict config db
                   = Err ("PgVectorStore initialization failed: " ++ error)%string
            else createStrict config db = Ok (InMemory []))
    | Err _ => False
    end.
Proof.
  intros config db. unfold create, createStrict.
  unfold isPostgresVectorStoreEnabled, getVectorStoreType, getPostgresConfig.
  destruct (vectorStore config) as [| pg];
    cbn [bind String.eqb Ascii.eqb Bool.eqb].
  - split; reflexivity.
  - pose proof (initialize_cases db) as Hinit.
    destruct (initialize db) as [[[] | e] store].
    + destruct Hinit as (Hi & _). repeat split; assumption.
    + destruct Hinit as (_ & _ & _ & error & ->).
      split; [reflexivity |]. exists error. reflexivity.
Qed.

End FactoryOutcome.

(** ** Entity references *)

Section EntityRefs.

Import CatalogCollector TechDocsCollector RefSpec.

Lemma free_of_append (c : ascii) (a b : string) :
  free_of c (a ++ b)%string = free_of c a && free_of c b.
Proof.
  induction a as [| x a IH]; cbn; [reflexivity |].
  rewrite IH, andb_assoc. reflexivity.
Qed.

Lemma split_on_free (c : ascii) (s : string) :
  free_of c s = true -> split_on c s = [s].
Proof.
  induction s as [| x s IH]; cbn; [reflexivity |].
  intros Hfree. apply andb_true_iff in Hfree as [Hx Hs].
  apply negb_true_iff in Hx. rewrite Hx, (IH Hs). reflexivity.
Qed.

Lemma split_on_append (c : ascii) (a b : string) :
  free_of c a = true ->
  split_on c (a ++ String c b)%string = a :: split_on c b.
Proof.
  induction a as [| x a IH]; cbn.
  - intros _. rewrite Ascii.eqb_refl. reflexivity.
  - intros Hfree. apply andb_true_iff in Hfree as [Hx Ha].
    apply negb_true_iff in Hx. rewrite Hx, (IH Ha). reflexivity.
Qed.

(** X23: The reference [getEntityRef] builds is read back by
    [fetchDocumentation]: when neither [:] nor [/] occurs in the kind, the
    namespace and the name, the documentation is requested under the
    entity's own namespace (or 'default'), its kind in lower case, and its
    name. *)
Theorem docUrl_of_entity :
  forall (baseUrl : string) (entity : Entity),
    ref_part (kind entity) = true ->
    ref_part (string_or (metadata_namespace entity) "default") = true ->
    ref_part (metadata_name entity) = true ->
    docUrl baseUrl (getEntityRef entity)
    = (baseUrl ++ "/static/docs/"
       ++ string_or (metadata_namespace entity) "default" ++ "/"
       ++ toLowerCase (kind entity) ++ "/"
       ++ metadata_name entity ++ "/index.html")%string.
Proof.
  intros baseUrl [k ns name]. cbn [kind metadata_namespace metadata_name].
  set (namespace := string_or ns "default").
  unfold ref_part. intros Hk Hns Hname.
  apply andb_true_iff in Hk as [Hk _].
  apply andb_true_iff in Hns as [Hns1 Hns2].
  apply andb_true_iff in Hname as [Hname1 Hname2].
  unfold docUrl, getEntityRef.
  cbn [kind metadata_namespace metadata_name]. fold namespace.
  change (k ++ ":" ++ namespace ++ "/" ++ name)%string
    with (k ++ String ":" (namespace ++ String "/" name))%string.
  rewrite (@split_on_append _ _ _ Hk).
  rewrite split_on_free
    by (rewrite free_of_append; cbn; rewrite Hns1, Hname1; reflexivity).
  cbn [nth nth_error].
  assert (Htruthy : truthy_string (namespace ++ String "/" name) = true).
  { unfold truthy_string. destruct namespace; reflexivity. }
  rewrite Htruthy, (@split_on_append _ _ _ Hns2), (@split_on_free _ _ Hname2).
  reflexivity.
Qed.

End EntityRefs.

(** *** Instances *)

Lemma loadConfig_defaults_witness :
  exists c,
    ConfigService.loadConfig config_chunkSize_50 = Ok c
    /\ chunkSize c = 50%Z /\ chunkOverlap c = 50%Z
    /\ chunkOverlap c <> 0%Z.
Proof.
  destruct (ConfigService.loadConfig config_chunkSize_50) as [c | m] eqn:E;
    [| vm_compute in E; discriminate].
  exists c. split; [reflexivity |].
  destruct (loadConfig_defaults config_chunkSize_50 E) as (_ & Hoverlap & _).
  vm_compute in E. inversion E; subst c.
  split; [reflexivity |]. split; [reflexivity | exact Hoverlap].
Defined.

Lemma validate_loaded_config_witness :
  let config :=
    {| ConfigService.askAi_defaultModel := None;
       ConfigService.askAi_embeddingModel := None;
       ConfigService.askAi_ollamaBaseUrl := None;
       ConfigService.askAi_ragEnabled := None;
       ConfigService.askAi_rag_strategy := None;
       ConfigService.askAi_defaultTopK := None;
       ConfigService.askAi_chunkSize := None;
       ConfigService.askAi_chunkOverlap := None;
       ConfigService.askAi_vectorStore_type := Some "postgresql";
       ConfigService.pg_host := Some EmptyString;
       ConfigService.pg_port := Some 70000%Z;
       ConfigService.pg_database := None;
       ConfigService.pg_user := None;
       ConfigService.pg_password := Some "secret";
       ConfigService.pg_ssl := None;
       ConfigService.pg_maxConnections := None;
       ConfigService.pg_idleTimeoutMillis := None;
       ConfigService.pg_connectionTimeoutMillis := None |} in
  exists c,
    ConfigService.loadConfig config = Ok c
    /\ VectorStoreFactory.validate c
       = (false, ["PostgreSQL port must be between 1 and 65535"]).
Proof.
  intros config.
  destruct (ConfigService.loadConfig config) as [c | m] eqn:E;
    [| vm_compute in E; discriminate].
  exists c. split; [reflexivity |].
  rewrite (validate_loaded_config config E).
  vm_compute in E. inversion E; subst c. reflexivity.
Defined.

Lemma docUrl_of_entity_witness :
  let entity :=
    {| CatalogCollector.kind := "Component";
       CatalogCollector.metadata_namespace := None;
       CatalogCollector.metadata_name := "payments" |} in
  CatalogCollector.getEntityRef entity = "Component:default/payments"
  /\ TechDocsCollector.docUrl "http://localhost:7007/api/techdocs"
       "Component:default/payments"
     = "http://localhost:7007/api/techdocs/static/docs/default/component/payments/index.html".
Proof.
  intros entity. split; [reflexivity |].
  exact (@docUrl_of_entity "http://localhost:7007/api/techdocs" entity
           eq_refl eq_refl eq_refl).
Defined.

(** ** Indexing *)

Section Indexing.

Import Async SimpleRAGStrategy IndexSpec.

Variables N Entity S : Type.
Variable deps : Dependencies N Entity S.

Lemma forM_app {A : Type} (f : A -> M S unit) (l1 l2 : list A) (s : S) :
  forM_ f (l1 ++ l2) s = bindM (forM_ f l1) (fun _ => forM_ f l2) s.
Proof.
  revert s. induction l1 as [| x l1 IH]; intros s; cbn [app forM_].
  - reflexivity.
  - rewrite !bindM_eq. destruct (f x s) as [[[] | e] s1]; [| reflexivity].
    rewrite IH, bindM_eq. reflexivity.
Qed.

Lemma forM_concat {A : Type} (f : A -> M S unit) (ls : list (list A)) (s : S) :
  forM_ (fun l => forM_ f l) ls s = forM_ f (List.concat ls) s.
Proof.
  revert s. induction ls as [| l ls IH]; intros s; cbn [List.concat forM_].
  - reflexivity.
  - rewrite forM_app, !bindM_eq.
    destruct (forM_ f l s) as [[[] | e] s1]; [apply IH | reflexivity].
Qed.

Lemma batches_from_concat (entities : list Entity) (fuel : nat) :
  forall i : Z,
    (0 <= i)%Z ->
    (Z.of_nat (List.length entities) - i <= Z.of_nat fuel)%Z ->
    List.concat (batches_from fuel i entities) = skipn (Z.to_nat i) entities
    /\ Forall (fun batch => (0 < List.length batch <= 10)%nat)
              (batches_from fuel i entities).
Proof.
  induction fuel as [| fuel IH]; intros i Hi Hfuel; cbn [batches_from].
  - split; [| constructor]. cbn. symmetry. apply skipn_all2. lia.
  - destruct (Z.ltb_spec i (Z.of_nat (List.length entities))) as [Hlt | Hge].
    + destruct (IH (i + 10)%Z) as [Hc Hb]; [lia | lia |].
      rewrite slice_window by lia. split.
      * cbn [List.concat]. rewrite Hc.
        replace (Z.to_nat (i + 10)) with (10 + Z.to_nat i)%nat by lia.
        rewrite <- skipn_skipn. apply firstn_skipn.
      * constructor; [| exact Hb].
        rewrite length_firstn, length_skipn. lia.
    + split; [| constructor]. cbn. symmetry. apply skipn_all2. lia.
Qed.

Lemma indexAll_eq (s : S) : indexAll deps s = indexAll_one_by_one deps s.
Proof.
  unfold indexAll, indexAll_one_by_one. rewrite !bindM_eq.
  destruct (vs_clear deps s) as [[[] | e] s1]; [| reflexivity].
  rewrite !bindM_eq. unfold await.
  destruct (fetchAllEntities deps) as [entities | e]; [| reflexivity].
  rewrite !bindM_eq, forM_concat.
  destruct (@batches_from_concat entities (List.length entities) 0%Z)
    as [Hc _]; [lia | lia |].
  rewrite Hc. reflexivity.
Qed.

Lemma forM_never_rejects (entities : list Entity) :
  forall s, fst (forM_ (indexEntityInternal deps) entities s) = Ok tt.
Proof.
  induction entities as [| x l IH]; intros s; cbn [forM_]; [reflexivity |].
  rewrite bindM_eq.
  pose proof (indexEntityInternal_never_rejects deps x s) as Hx.
  destruct (indexEntityInternal deps x s) as [[[] | e] s1]; cbn in Hx;
    [apply IH | discriminate].
Qed.


(** X25: [indexAll] rejects only with an error of [vectorStore.clear()], of
    [fetchAllEntities()] or of [vectorStore.count()]: what goes wrong while
    an entity is indexed is never reported. *)
Theorem indexAll_failures :
  forall (s : S) (error : string),
    fst (indexAll deps s) = Err error ->
    fst (vs_clear deps s) = Err error
    \/ fetchAllEntities deps = Err error
    \/ exists s', fst (vs_count deps s') = Err error.
Proof.
  intros s error. rewrite indexAll_eq. unfold indexAll_one_by_one.
  rewrite bindM_eq.
  destruct (vs_clear deps s) as [[[] | e] s1]; [| intros E; left; exact E].
  rewrite bindM_eq. unfold await at 1.
  destruct (fetchAllEntities deps) as [entities | e];
    [| intros E; right; left; cbn in E; congruence].
  rewrite bindM_eq.
  pose proof (forM_never_rejects entities s1) as Hall.
  destruct (forM_ (indexEntityInternal deps) entities s1) as [[[] | e] s2];
    cbn in Hall; [| discriminate].
  rewrite bindM_eq. intros Hcount. right. right. exists s2.
  destruct (vs_count deps s2) as [[n | e] s3]; cbn in Hcount |- *;
    [discriminate | inversion Hcount; reflexivity].
Qed.

End Indexing.

(** ** An answer of the embedding provider that is too short *)

Section ShortAnswer.

Import SimpleRAGStrategy MapSpec.

Context {N : Type} `{Number N}.

Lemma embeddingVectors_from_nth (allChunks : list DocumentChunk)
    (embeddings : list (list N)) :
  forall (index i : nat) (chunk : DocumentChunk),
    nth_error allChunks i = Some chunk ->
    nth_error (embeddingVectors_from index allChunks embeddings) i
    = Some {| ev_id := id chunk; chunkId := id chunk;
              vector := nth_error embeddings (index + i);
              documentChunk := chunk |}.
Proof.
  induction allChunks as [| c l IH]; intros index i chunk Hi.
  - destruct i; discriminate.
  - destruct i as [| i]; cbn in Hi |- *.
    + inversion Hi; subst. rewrite Nat.add_0_r. reflexivity.
    + rewrite (IH (Datatypes.S index) i chunk Hi).
      replace (Datatypes.S index + i)%nat with (index + Datatypes.S i)%nat
        by lia.
      reflexivity.
Qed.

Lemma embeddingVectors_from_length (allChunks : list DocumentChunk)
    (embeddings : list (list N)) :
  forall index,
    List.length (embeddingVectors_from index allChunks embeddings)
    = List.length allChunks.
Proof.
  induction allChunks as [| c l IH]; intros index; cbn; [reflexivity |].
  rewrite IH. reflexivity.
Qed.

Lemma short_answer_last (allChunks : list DocumentChunk)
    (embeddings : list (list N)) :
  (List.length embeddings < List.length allChunks)%nat ->
  exists front last_,
    embeddingVectors_from 0 allChunks embeddings = front ++ [last_]
    /\ vector last_ = None.
Proof.
  intros Hshort.
  pose proof (embeddingVectors_from_length allChunks embeddings 0) as Hlen.
  destruct (@exists_last _ (embeddingVectors_from 0 allChunks embeddings))
    as (front & last_ & Hsplit).
  { intros E. rewrite E in Hlen. cbn in Hlen. lia. }
  exists front, last_. split; [exact Hsplit |].
  assert (Hfront : List.length front = (List.length allChunks - 1)%nat).
  { rewrite Hsplit, length_app in Hlen. cbn in Hlen. lia. }
  destruct (nth_error allChunks (List.length front)) as [chunk |] eqn:Hc.
  2:{ apply nth_error_None in Hc. lia. }
  pose proof (embeddingVectors_from_nth allChunks embeddings 0 _ Hc) as Hnth.
  rewrite Hsplit, nth_error_app2, Nat.sub_diag in Hnth by lia.
  cbn in Hnth. inversion Hnth; subst last_. cbn.
  apply nth_error_None. lia.
Qed.

Lemma Map_get_In (k : string) (e : EmbeddingVector N)
    (m : InMemoryVectorStore.Store (N := N)) :
  Map_get k m = Some e -> In e (InMemoryVectorStore.Map_values m).
Proof.
  unfold InMemoryVectorStore.Map_values.
  induction m as [| [k' v] m IH]; cbn; [discriminate |].
  destruct (String.eqb k k'); intros E.
  - inversion E. left. reflexivity.
  - right. apply IH, E.
Qed.

Lemma mapM_Ok_In {A B : Type} (f : A -> result B) (l : list A) (ys : list B)
    (x : A) :
  mapM f l = Ok ys -> In x l -> exists y, f x = Ok y.
Proof.
  intros Hm Hx. apply mapM_Forall2 in Hm.
  induction Hm as [| a b l' ys' Hab _ IH]; [destruct Hx |].
  destruct Hx as [<- | Hx]; [exists b; exact Hab | apply IH, Hx].
Qed.

(** X26: The embeddings are attached to the chunks by position, and their
    number is not checked.  When the provider answers with fewer embeddings
    than there are chunks, the last embedding vector has no vector: the
    in-memory store takes the batch, and from then on rejects every search
    over the whole store; the persistent store rejects the batch and keeps
    its table. *)
Theorem short_embeddings_answer :
  forall (allChunks : list DocumentChunk) (embeddings : list (list N)),
    (List.length embeddings < List.length allChunks)%nat ->
    let embeddingVectors := embeddingVectors_from 0 allChunks embeddings in
    (forall i chunk,
        nth_error allChunks i = Some chunk ->
        nth_error embeddingVectors i
        = Some {| ev_id := id chunk; chunkId := id chunk;
                  vector := nth_error embeddings i;
                  documentChunk := chunk |})
    /\ (forall (vectors : InMemoryVectorStore.Store (N := N))
               (q : list N) (topK : Z),
          exists message,
            InMemoryVectorStore.search
              (InMemoryVectorStore.storeBatch embeddingVectors vectors)
              q topK None
            = Err message)
    /\ (forall s : PgVectorStore.State N,
          PgVectorStore.session s = PgVectorStore.Idle ->
          (exists message,
              fst (PgVectorStore.storeBatch embeddingVectors s) = Err message)
          /\ PgVectorStore.table (snd (PgVectorStore.storeBatch embeddingVectors s))
             = PgVectorStore.table s).
Proof.
  intros allChunks embeddings Hshort embeddingVectors.
  destruct (short_answer_last allChunks embeddings Hshort)
    as (front & last_ & Hsplit & Hnone).
  fold embeddingVectors in Hsplit.
  split; [| split].
  - intros i chunk Hi.
    apply (embeddingVectors_from_nth allChunks embeddings 0 i Hi).
  - intros vectors q topK.
    destruct (InMemoryVectorStore.search
                (InMemoryVectorStore.storeBatch embeddingVectors vectors)
                q topK None) as [results | message] eqn:Hsearch;
      [exfalso | exists message; reflexivity].
    unfold InMemoryVectorStore.search in Hsearch.
    destruct (mapM (InMemoryVectorStore.score q) _) as [rs | m] eqn:Hm;
      cbn [bind] in Hsearch; [| discriminate].
    assert (Hin : In last_ (InMemoryVectorStore.vectorsToSearch
                              (InMemoryVectorStore.storeBatch embeddingVectors
                                 vectors) None)).
    { cbn [InMemoryVectorStore.vectorsToSearch].
      apply (@Map_get_In (ev_id last_)).
      rewrite Hsplit. unfold InMemoryVectorStore.storeBatch.
      rewrite fold_left_app. cbn [fold_left].
      rewrite Map_get_set, String.eqb_refl. reflexivity. }
    destruct (mapM_Ok_In _ _ last_ Hm Hin) as [r Hr].
    unfold InMemoryVectorStore.score, InMemoryVectorStore.cosineSimilarity in Hr.
    rewrite Hnone in Hr. discriminate.
  - intros s Hidle.
    pose proof (storeBatch_cases embeddingVectors s Hidle) as Hcases.
    destruct (PgVectorStore.storeBatch embeddingVectors s)
      as [[[] | message] s1]; cbn [fst snd].
    + exfalso. destruct Hcases as (_ & rows & Hrows & _).
      assert (Hin : In last_ embeddingVectors)
        by (rewrite Hsplit; apply in_app_iff; right; left; reflexivity).
      destruct (mapM_Ok_In _ _ last_ Hrows Hin) as [r Hr].
      unfold PgVectorStore.row_of in Hr. rewrite Hnone in Hr. discriminate.
    + split; [exists message; reflexivity | apply Hcases].
Qed.

End ShortAnswer.

(** *** Instances *)

Lemma indexAll_failures_witness :
  let deps : SimpleRAGStrategy.Dependencies Z string nat :=
    {| SimpleRAGStrategy.fetchAllEntities := Ok ["a"; "b"];
       SimpleRAGStrategy.fetchEntity := fun ref => Ok ref;
       SimpleRAGStrategy.extractEntityContent := fun e => e;
       SimpleRAGStrategy.getEntityRef := fun e => e;
       SimpleRAGStrategy.metadata_name := fun e => e;
       SimpleRAGStrategy.chunkDocument :=
         fun _ _ _ _ => Err "chunking failed";
       SimpleRAGStrategy.hasDocumentation := fun _ => Ok false;
       SimpleRAGStrategy.fetchDocumentation := fun _ => Ok None;
       SimpleRAGStrategy.generateEmbeddings := fun _ => Ok [];
       SimpleRAGStrategy.vs_storeBatch := fun _ => Async.ret tt;
       SimpleRAGStrategy.vs_clear := Async.ret tt;
       SimpleRAGStrategy.vs_count := Async.throw "count failed" |} in
  fst (SimpleRAGStrategy.indexAll deps 0%nat) = Err "count failed"
  /\ (fst (SimpleRAGStrategy.vs_clear deps 0%nat) = Err "count failed"
      \/ SimpleRAGStrategy.fetchAllEntities deps = Err "count failed"
      \/ exists s',
           fst (SimpleRAGStrategy.vs_count deps s') = Err "count failed").
Proof.
  intros deps.
  assert (E : fst (SimpleRAGStrategy.indexAll deps 0%nat) = Err "count failed")
    by reflexivity.
  split; [exact E |].
  exact (indexAll_failures deps 0%nat E).
Defined.

Lemma short_embeddings_answer_witness :
  let embeddingVectors :=
    SimpleRAGStrategy.embeddingVectors_from 0 [demo_chunk; demo_chunk]
      [[1%float]] in
  (List.length [[1%float]] < List.length [demo_chunk; demo_chunk])%nat
  /\ map (@vector float) embeddingVectors = [Some [1%float]; None]
  /\ exists message,
       InMemoryVectorStore.search
         (InMemoryVectorStore.storeBatch embeddingVectors [])
         [1%float] 5 None
       = Err message.
Proof.
  intros embeddingVectors.
  assert (Hshort : (List.length [[1%float]]
                    < List.length [demo_chunk; demo_chunk])%nat)
    by (cbn; lia).
  split; [exact Hshort |]. split; [reflexivity |].
  destruct (@short_embeddings_answer float _ [demo_chunk; demo_chunk]
              [[1%float]] Hshort) as (_ & Hmem & _).
  exact (Hmem [] [1%float] 5%Z).
Defined.
